(** * Concurrency demonstrations: a shallow embedding and its properties

  The repository holds five small demonstrations (asynchronous downloads,
  an event loop, one process per image, threads guarded by a counting
  semaphore, a process pool) and a driver that runs them in turn.

  The first part embeds
  - [src/examples/semaphore.py] as an interleaving transition system
    (module [Semaphore]),
  - [src/examples/workerpool.py] as a transition system over the worker
    processes of a pool (module [WorkerPool]),
  - [src/examples/parallelism.py] and the download loop of
    [src/examples/asynchronism.py] as functions over the outcomes of
    their external calls (modules [Parallelism], [Asynchronism]),
  - [src/main.py] as a function producing the driver's actions
    (module [Driver]).

  External calls (whois lookup, HTTP, image codec, model training) are
  oracles: sections quantify over them.  The semaphore and the pool of the
  standard library behave as their documentation says: [acquire] blocks
  while the counter is 0, [map] queues chunks that a fixed number of
  worker processes take one at a time.

  The second part proves the properties, module by module ([SemaphoreFacts]
  and so on), and ends with the statements about the demonstrations as a
  whole.

  Further modules embed what is left of the sources: the reading of the url
  files ([Reading]), the quotes and the copy of a response to a file of
  [src/examples/asynchronism.py] ([Quotes], [Copy]), and
  [src/examples/concurrency.py] as a transition system over the coroutines
  of one event loop ([Concurrency]), where a coroutine runs undisturbed
  from one [await] to the next, and the processes of [run_parallel_taks]
  as a transition system of their own ([Processes]).  Their properties, and further ones of the
  models above, make up the last part. *)

From Stdlib Require Import ZArith Lia.
From stdpp Require Import base tactics option list strings numbers pretty.

(** * The programs *)

(** The exception with which the constructors of the standard library
    refuse their argument. *)
Inductive exception := ValueError (msg : string).

(** ** The semaphore demonstration, [src/examples/semaphore.py] *)

Module Semaphore.

(** [threading.Semaphore(value)] refuses a negative value and accepts any
    other, 0 included; the counter starts at [value]. *)
Definition new_semaphore (value : Z) : exception + nat :=
  if (value <? 0)%Z
  then inl (ValueError "semaphore initial value must be >= 0")
  else inr (Z.to_nat value).

(** Line 70: [Semaphore(4)]; line 71: [range(20)]. *)
Definition demo_permits : Z := 4.
Definition demo_addresses : nat := 20.

Section demo.
(** [R] is the dictionary returned by [lookup_whois], [E] the exceptions
    the lookup can raise. *)
Context {R E : Type}.

(** What [IPWhois(address=address).lookup_whois()] does for one call. *)
Inductive lookup :=
| Found (r : R)       (* a record, bound to [result] *)
| NoRecord            (* [None] *)
| Raised (e : E).     (* an exception, from the constructor or the call *)

(** Program points of [get_address_info]; the local [result] is carried
    while it is live.  [Finished o] is the returned function, [o] telling
    the path taken: through line 46, the early return of line 41, or the
    handler of line 48. *)
Inductive pc :=
| Created                 (* Thread object built, [start] not yet called *)
| AtLookup                (* lines 38-40 *)
| AtWith (r : R)          (* line 42, waiting for a permit *)
| AtLogAcquire (r : R)    (* line 43 *)
| AtAppend (r : R)        (* line 44 *)
| AtSleep (r : R)         (* line 45 *)
| AtExitWith (r : R)      (* end of the [with] block: release *)
| AtLogRelease (r : R)    (* line 46 *)
| AtHandler (e : E)       (* line 48 *)
| Finished (o : lookup).

(** Program points of [run_semaphore_example] after line 75. *)
Inductive main_pc :=
| Starting (i : nat)      (* lines 76-77, about to start thread [i] *)
| Joining (j : nat)       (* lines 78-79, about to join thread [j] *)
| Returned.               (* after line 80 *)

Inductive event :=
| Start (t : nat)
| Lookup (t : nat) (address : string)
| Acquire (t : nat)
| LogAcquiring (t : nat)
| Append (t : nat) (entry : string * R)
| Sleep (t : nat) (seconds : nat)
| Release (t : nat)
| LogReleasing (t : nat)
| LogException (t : nat) (e : E)
| Join (t : nat)
| PrintList (l : list (string * R)).

Record state := State {
  main : main_pc;
  threads : list pc;
  semaphore : nat;                  (* the counter of threading.Semaphore *)
  valid_ips : list (string * R);    (* the module-level shared list *)
  trace : list event                (* what has happened, oldest first *)
}.

Inductive actor := Main | Thread (t : nat).

(** What one atomic action of a thread does: where the thread goes, the
    semaphore counter afterwards, what it appends to the shared list, and
    the event by which the action is seen. *)
Record effect := Effect {
  next : pc;
  permits : nat;
  appended : list (string * R);
  emitted : event
}.

(** The outcome of the lookup made by thread [t] on its address. *)
Variable lookup_whois : nat → string → lookup.
(** The value given to [Semaphore(...)] (4 at line 70), the addresses drawn
    at line 71 (20 of them), and the shared list on entry ([[]] when the
    module has just been loaded, line 9). *)
Variable K : nat.
Variable ips : list string.
Variable shared : list (string * R).

Definition after_lookup (o : lookup) : pc :=
  match o with
  | Found r => AtWith r
  | NoRecord => Finished NoRecord
  | Raised e => AtHandler e
  end.

(** [get_address_info(a, semaphore, t)] at program point [p] with the
    semaphore counter at [sem]; [None] when the thread cannot move (not
    started, blocked in [acquire], or returned). *)
Definition thread_action (t : nat) (a : string) (p : pc) (sem : nat)
  : option effect :=
  match p with
  | Created => None
  | AtLookup => Some (Effect (after_lookup (lookup_whois t a)) sem [] (Lookup t a))
  | AtWith r =>
      match sem with
      | 0 => None
      | S n => Some (Effect (AtLogAcquire r) n [] (Acquire t))
      end
  | AtLogAcquire r => Some (Effect (AtAppend r) sem [] (LogAcquiring t))
  | AtAppend r => Some (Effect (AtSleep r) sem [(a, r)] (Append t (a, r)))
  | AtSleep r => Some (Effect (AtExitWith r) sem [] (Sleep t 3))
  | AtExitWith r => Some (Effect (AtLogRelease r) (S sem) [] (Release t))
  | AtLogRelease r => Some (Effect (Finished (Found r)) sem [] (LogReleasing t))
  | AtHandler e => Some (Effect (Finished (Raised e)) sem [] (LogException t e))
  | Finished _ => None
  end.

(** One atomic step of thread [t] in the whole program. *)
Definition thread_step (t : nat) (s : state) : option state :=
  a ← ips !! t;
  p ← threads s !! t;
  f ← thread_action t a p (semaphore s);
  Some (State (main s) (<[t:=next f]> (threads s)) (permits f)
              (valid_ips s ++ appended f) (trace s ++ [emitted f])).

(** One step of [run_semaphore_example]: start the next thread, join the
    next thread (blocking until it has returned), print the list. *)
Definition main_step (s : state) : option state :=
  match main s with
  | Starting i =>
      match threads s !! i with
      | Some _ =>
          Some (State (Starting (S i)) (<[i:=AtLookup]> (threads s))
                      (semaphore s) (valid_ips s) (trace s ++ [Start i]))
      | None =>
          Some (State (Joining 0) (threads s) (semaphore s) (valid_ips s)
                      (trace s))
      end
  | Joining j =>
      match threads s !! j with
      | Some (Finished _) =>
          Some (State (Joining (S j)) (threads s) (semaphore s)
                      (valid_ips s) (trace s ++ [Join j]))
      | Some _ => None
      | None =>
          Some (State Returned (threads s) (semaphore s) (valid_ips s)
                      (trace s ++ [PrintList (valid_ips s)]))
      end
  | Returned => None
  end.

Definition step (a : actor) (s : state) : option state :=
  match a with
  | Main => main_step s
  | Thread t => thread_step t s
  end.

(** Lines 70-75: the semaphore and one Thread object per address. *)
Definition init : state :=
  State (Starting 0) ((λ _, Created) <$> ips) K shared [].

(** A run under a schedule, which names the thread that moves next. *)
Fixpoint exec (sched : list actor) (s : state) : option state :=
  match sched with
  | [] => Some s
  | a :: sched => s' ← step a s; exec sched s'
  end.

Inductive reachable : state → Prop :=
| reach_init : reachable init
| reach_step a s s' : reachable s → step a s = Some s' → reachable s'.

(** *** Observations on states and traces *)

(** 1 for a thread inside the [with] block, 0 otherwise. *)
Definition holding (p : pc) : nat :=
  match p with
  | AtLogAcquire _ | AtAppend _ | AtSleep _ | AtExitWith _ => 1
  | _ => 0
  end.

Definition holders (s : state) : nat := sum_list_with holding (threads s).

Definition acquired (e : event) : nat :=
  match e with Acquire _ => 1 | _ => 0 end.

Definition released (e : event) : nat :=
  match e with Release _ => 1 | _ => 0 end.

(** Tasks in flight, counted from what has been observed: permits taken
    minus permits given back. *)
Definition in_flight (tr : list event) : Z :=
  Z.of_nat (sum_list_with acquired tr) - Z.of_nat (sum_list_with released tr).

(** The thread an event belongs to; the events of the main thread belong
    to none. *)
Definition owner (e : event) : option nat :=
  match e with
  | Lookup t _ | Acquire t | LogAcquiring t | Append t _ | Sleep t _
  | Release t | LogReleasing t | LogException t _ => Some t
  | Start _ | Join _ | PrintList _ => None
  end.

Definition own (t : nat) (tr : list event) : list event :=
  filter (λ e, owner e = Some t) tr.

Definition main_events (tr : list event) : list event :=
  filter (λ e, owner e = None) tr.

Definition entry_of (e : event) : list (string * R) :=
  match e with Append _ x => [x] | _ => [] end.

Definition entries (tr : list event) : list (string * R) :=
  tr ≫= entry_of.

(** The events of [tr] that happen between an [Acquire] and the next
    [Release]; [inside] tells whether [tr] starts inside. *)
Fixpoint critical_section (inside : bool) (tr : list event) : list event :=
  match tr with
  | [] => []
  | Acquire _ :: tr => critical_section true tr
  | Release _ :: tr => critical_section false tr
  | e :: tr => (if inside then [e] else []) ++ critical_section inside tr
  end.

(** What thread [t] does while it holds a permit. *)
Definition guarded (t : nat) (tr : list event) : list event :=
  critical_section false (own t tr).

(** The events of a call that finds a record, in program order. *)
Definition success_events (t : nat) (a : string) (r : R) : list event :=
  [Lookup t a; Acquire t; LogAcquiring t; Append t (a, r); Sleep t 3;
   Release t; LogReleasing t].

(** What thread [t] has done by the time it stands at [p]. *)
Definition history (t : nat) (a : string) (p : pc) : list event :=
  match p with
  | Created | AtLookup => []
  | AtWith r => take 1 (success_events t a r)
  | AtLogAcquire r => take 2 (success_events t a r)
  | AtAppend r => take 3 (success_events t a r)
  | AtSleep r => take 4 (success_events t a r)
  | AtExitWith r => take 5 (success_events t a r)
  | AtLogRelease r => take 6 (success_events t a r)
  | AtHandler e => [Lookup t a]
  | Finished (Found r) => success_events t a r
  | Finished NoRecord => [Lookup t a]
  | Finished (Raised e) => [Lookup t a; LogException t e]
  end.

(** The locals of a thread at [p] come from its lookup [o]. *)
Definition agrees (p : pc) (o : lookup) : Prop :=
  match p with
  | Created | AtLookup => True
  | AtWith r | AtLogAcquire r | AtAppend r | AtSleep r | AtExitWith r
  | AtLogRelease r => o = Found r
  | AtHandler e => o = Raised e
  | Finished o' => o = o'
  end.

(** What the main thread has done by the time it stands at [m]. *)
Definition main_history (m : main_pc) (l : list (string * R)) : list event :=
  match m with
  | Starting i => Start <$> seq 0 i
  | Joining j => (Start <$> seq 0 (length ips)) ++ (Join <$> seq 0 j)
  | Returned =>
      (Start <$> seq 0 (length ips)) ++ (Join <$> seq 0 (length ips))
      ++ [PrintList l]
  end.

(** How far the threads are, given where the main thread stands. *)
Definition main_ok (m : main_pc) (t : nat) (p : pc) : Prop :=
  match m with
  | Starting i => i ≤ length ips ∧ (t < i → p ≠ Created) ∧ (i ≤ t → p = Created)
  | Joining j => j ≤ length ips ∧ p ≠ Created ∧ (t < j → ∃ o, p = Finished o)
  | Returned => ∃ o, p = Finished o
  end.

Record invariant (s : state) : Prop := Invariant {
  inv_length : length (threads s) = length ips;
  inv_permits : semaphore s + holders s = K;
  inv_in_flight : in_flight (trace s) = Z.of_nat (holders s);
  inv_shared : valid_ips s = shared ++ entries (trace s);
  inv_thread : ∀ t a p, ips !! t = Some a → threads s !! t = Some p →
    own t (trace s) = history t a p ∧ agrees p (lookup_whois t a)
    ∧ main_ok (main s) t p;
  inv_stranger : ∀ t, length ips ≤ t → own t (trace s) = [];
  inv_main : main_events (trace s) = main_history (main s) (valid_ips s);
  inv_bound : match main s with Starting i | Joining i => i ≤ length ips | Returned => True end
}.

(** *** What is left to do *)

(** Actions a thread still has before it, at most. *)
Definition rank (p : pc) : nat :=
  match p with
  | Created => 9
  | AtLookup => 8
  | AtWith _ => 7
  | AtLogAcquire _ => 6
  | AtAppend _ => 5
  | AtSleep _ => 4
  | AtExitWith _ => 3
  | AtLogRelease _ => 2
  | AtHandler _ => 1
  | Finished _ => 0
  end.

Definition main_rank (n : nat) (m : main_pc) : nat :=
  match m with
  | Starting i => 10 * (n - i) + n + 3
  | Joining j => (n - j) + 1
  | Returned => 0
  end.

Definition measure (s : state) : nat :=
  main_rank (length (threads s)) (main s) + sum_list_with rank (threads s).

(** *** What is in the shared list *)

(** The entry item [t] contributes, if its lookup finds a record. *)
Definition record_of (t : nat) (a : string) : list (string * R) :=
  match lookup_whois t a with
  | Found r => [(a, r)]
  | _ => []
  end.

(** The entries of all items, in the order the items were submitted. *)
Definition in_submission_order : list (string * R) :=
  mjoin (imap record_of ips).

(** 1 for a thread that has passed line 44. *)
Definition has_appended (p : pc) : nat :=
  match p with
  | AtSleep _ | AtExitWith _ | AtLogRelease _ | Finished (Found _) => 1
  | _ => 0
  end.

(** 1 for a thread that returned through line 46, the demo's success. *)
Definition succeeded_pc (p : pc) : nat :=
  match p with Finished (Found _) => 1 | _ => 0 end.

Definition succeeded (s : state) : nat :=
  sum_list_with succeeded_pc (threads s).

(** *** Order of starts and of slot claims, and how often things happen *)

(** Thread numbers in the order [start] was called on them. *)
Definition starts (tr : list event) : list nat :=
  omap (λ e, match e with Start t => Some t | _ => None end) tr.

(** Thread numbers in the order they took a permit. *)
Definition acquisitions (tr : list event) : list nat :=
  omap (λ e, match e with Acquire t => Some t | _ => None end) tr.

Definition times (f : event → bool) (tr : list event) : nat :=
  sum_list_with (λ e, if f e then 1 else 0) tr.

Definition is_start (t : nat) (e : event) : bool :=
  match e with Start t' => bool_decide (t' = t) | _ => false end.

(** The body of [get_address_info] is entered for item [t]. *)
Definition is_call (t : nat) (e : event) : bool :=
  match e with Lookup t' _ => bool_decide (t' = t) | _ => false end.

(** Item [t] reports how it went: the line of line 46 or that of line 48. *)
Definition is_report (t : nat) (e : event) : bool :=
  match e with
  | LogReleasing t' | LogException t' _ => bool_decide (t' = t)
  | _ => false
  end.

End demo.

End Semaphore.

(** ** The process pool, [src/examples/workerpool.py] *)

Module WorkerPool.

(** [Pool(processes)] of the multiprocessing module refuses a size below 1
    before it creates any process; otherwise the pool has that many. *)
Definition Pool (processes : Z) : exception + nat :=
  if (processes <? 1)%Z
  then inl (ValueError "Number of processes must be at least 1")
  else inr (Z.to_nat processes).

(** Line 62: [Pool(3)]. *)
Definition demo_processes : Z := 3.

(** Line 63: [list(range(100, 200, 10))]. *)
Definition demo_max_iters : list Z := (λ i, 100 + 10 * i)%Z <$> seqZ 0 10.

(** [map] cuts the items into chunks: [divmod(len(iterable), len(pool) * 4)],
    one more when there is a remainder. *)
Definition chunksize (n workers : nat) : nat :=
  let q := n / (workers * 4) in
  let extra := n mod (workers * 4) in
  let size := if decide (extra = 0) then q else S q in
  if decide (n = 0) then 0 else size.

Section pool.
Context {A B : Type}.

(** [_get_tasks]: slices of [size] items until the items run out; [fuel]
    bounds the loop. *)
Fixpoint get_tasks (fuel size : nat) (it : list A) : list (list A) :=
  match fuel with
  | 0 => []
  | S fuel =>
      match take size it with
      | [] => []
      | x => x :: get_tasks fuel size (drop size it)
      end
  end.

(** A worker process: waiting in [get], holding a chunk between two items
    ([acc] the results so far, [todo] the items left), or inside a call of
    the mapped function. *)
Inductive worker :=
| Idle
| Holding (c : nat) (acc : list B) (todo : list A)
| Running (c : nat) (acc : list B) (x : A) (todo : list A).

Inductive event :=
| Take (w c : nat)          (* worker [w] takes chunk [c] from the queue *)
| Enter (w : nat) (x : A)   (* the mapped function is entered on [x] *)
| Exit (w : nat) (x : A)
| Put (w c : nat)           (* the results of chunk [c] are handed back *)
| Return (v : list B).      (* [map] returns *)

Record state := State {
  inqueue : list (nat * list A);      (* chunks not yet taken, numbered *)
  workers : list worker;
  value : list (option (list B));     (* results by chunk, as they arrive *)
  result : option (list B);           (* what [map] returned, once it has *)
  trace : list event
}.

Inductive actor := Main | Worker (w : nat).

(** The mapped function ([train_model] at line 63), the size of the pool
    and the items. *)
Variable func : A → B.
Variable K : nat.
Variable items : list A.

(** The task batches [map] queues for the items. *)
Definition chunks : list (list A) :=
  get_tasks (length items) (chunksize (length items) K) items.

(** One step of worker process [w]: take the next chunk from the queue
    (blocking while there is none), enter the mapped function on the next
    item of its chunk, leave it with the result, or hand the results of a
    finished chunk back. *)
Definition worker_step (w : nat) (s : state) : option state :=
  p ← workers s !! w;
  match p with
  | Idle =>
      match inqueue s with
      | [] => None
      | (c, xs) :: q =>
          Some (State q (<[w:=Holding c [] xs]> (workers s)) (value s)
                      (result s) (trace s ++ [Take w c]))
      end
  | Holding c acc (x :: todo) =>
      Some (State (inqueue s) (<[w:=Running c acc x todo]> (workers s))
                  (value s) (result s) (trace s ++ [Enter w x]))
  | Running c acc x todo =>
      Some (State (inqueue s) (<[w:=Holding c (acc ++ [func x]) todo]> (workers s))
                  (value s) (result s) (trace s ++ [Exit w x]))
  | Holding c acc [] =>
      Some (State (inqueue s) (<[w:=Idle]> (workers s))
                  (<[c:=Some acc]> (value s)) (result s)
                  (trace s ++ [Put w c]))
  end.

(** All chunks are in: the values in chunk order. *)
Fixpoint collect (v : list (option (list B))) : option (list B) :=
  match v with
  | [] => Some []
  | None :: _ => None
  | Some ys :: v => (ys ++.) <$> collect v
  end.

(** [map] blocks until every chunk has come back, then returns the list. *)
Definition main_step (s : state) : option state :=
  match result s with
  | Some _ => None
  | None =>
      v ← collect (value s);
      Some (State (inqueue s) (workers s) (value s) (Some v)
                  (trace s ++ [Return v]))
  end.

Definition step (a : actor) (s : state) : option state :=
  match a with
  | Main => main_step s
  | Worker w => worker_step w s
  end.

(** Lines 62-63 at the call of [map]: [K] idle workers, the chunks queued
    in order, no result yet. *)
Definition init : state :=
  State (imap pair chunks) (replicate K Idle) ((λ _, None) <$> chunks) None [].

(** A run under a schedule, which names the process that moves next. *)
Fixpoint exec (sched : list actor) (s : state) : option state :=
  match sched with
  | [] => Some s
  | a :: sched => s' ← step a s; exec sched s'
  end.

Inductive reachable : state → Prop :=
| reach_init : reachable init
| reach_step a s s' : reachable s → step a s = Some s' → reachable s'.

(** *** Observations *)

Definition running (p : worker) : nat :=
  match p with Running _ _ _ _ => 1 | _ => 0 end.

Definition entered (e : event) : nat :=
  match e with Enter _ _ => 1 | _ => 0 end.

Definition exited (e : event) : nat :=
  match e with Exit _ _ => 1 | _ => 0 end.

(** Calls of the mapped function in flight: entered and not yet left. *)
Definition in_flight (tr : list event) : Z :=
  Z.of_nat (sum_list_with entered tr) - Z.of_nat (sum_list_with exited tr).

(** Chunk numbers in the order the workers took them. *)
Definition takes (tr : list event) : list nat :=
  omap (λ e, match e with Take _ c => Some c | _ => None end) tr.

(** The chunk a worker holds. *)
Definition held (p : worker) (c : nat) : Prop :=
  match p with
  | Idle => False
  | Holding c' _ _ | Running c' _ _ _ => c' = c
  end.

(** A worker's chunk is a chunk of the items, worked off from the front. *)
Definition worker_ok (p : worker) : Prop :=
  match p with
  | Idle => True
  | Holding c acc todo =>
      ∃ pre, chunks !! c = Some (pre ++ todo) ∧ acc = func <$> pre
  | Running c acc x todo =>
      ∃ pre, chunks !! c = Some (pre ++ x :: todo) ∧ acc = func <$> pre
  end.

Record invariant (s : state) : Prop := Invariant {
  inv_workers : length (workers s) = K;
  inv_in_flight :
    in_flight (trace s) = Z.of_nat (sum_list_with running (workers s));
  inv_takes : takes (trace s) ++ (fst <$> inqueue s) = seq 0 (length chunks);
  inv_queue : ∀ i c xs, inqueue s !! i = Some (c, xs) → chunks !! c = Some xs;
  inv_held : ∀ w p, workers s !! w = Some p → worker_ok p;
  inv_value_length : length (value s) = length chunks;
  inv_value : ∀ c ys, value s !! c = Some (Some ys) →
    ∃ xs, chunks !! c = Some xs ∧ ys = func <$> xs;
  inv_where : ∀ c, c < length chunks →
    c ∈ (fst <$> inqueue s)
    ∨ (∃ w p, workers s !! w = Some p ∧ held p c)
    ∨ (∃ ys, value s !! c = Some (Some ys))
}.

(** *** What is left to do *)

Definition busy (p : worker) : nat :=
  match p with Idle => 0 | _ => 1 end.

Definition worker_cost (p : worker) : nat :=
  match p with
  | Idle => 0
  | Holding _ _ todo => 2 * length todo + 1
  | Running _ _ _ todo => 2 * length todo + 2
  end.

Definition chunk_cost (t : nat * list A) : nat := 2 * length (t.2) + 2.

Definition measure (s : state) : nat :=
  match result s with Some _ => 0 | None => 1 end
  + sum_list_with chunk_cost (inqueue s)
  + sum_list_with worker_cost (workers s).

End pool.

End WorkerPool.

(** ** Sequential code that prints and may raise *)

Module Out.

Section monad.
(** [L] is what gets written (lines, calls), [E] the exceptions. *)
Context {L E : Type}.

(** A computation: what it has written, and the exception it raised or the
    value it returned. *)
Definition M (X : Type) : Type := list L * (E + X).

Definition ret {X} (x : X) : M X := ([], inr x).
Definition raise {X} (e : E) : M X := ([], inl e).
Definition emit (l : L) : M unit := ([l], inr tt).
(** An external call, which raises or returns. *)
Definition call {X} (r : E + X) : M X := ([], r).

Definition bind {X Y} (m : M X) (k : X → M Y) : M Y :=
  match m with
  | (out, inl e) => (out, inl e)
  | (out, inr x) => let '(out', r) := k x in (out ++ out', r)
  end.

(** [try: m except Exception as e: h e]. *)
Definition try_except {X} (m : M X) (h : E → M X) : M X :=
  match m with
  | (out, inl e) => let '(out', r) := h e in (out ++ out', r)
  | (out, inr x) => (out, inr x)
  end.
End monad.

Global Instance out_bind {L E} : MBind (@M L E) := λ X Y k m, bind m k.
Global Instance out_ret {L E} : MRet (@M L E) := λ X x, ret x.

End Out.

(** ** One process per image, [src/examples/parallelism.py] *)

Module Parallelism.
Import Out.

(** Line 13. *)
Definition allowed_types : list string := ["image/jpeg"; "image/png"; "image/jpg"].

Definition allowed (content_type : option string) : bool :=
  match content_type with
  | Some ct => bool_decide (ct ∈ allowed_types)
  | None => false
  end.

(** Line 49: [width // 2, lenght // 2]. *)
Definition new_size (size : Z * Z) : Z * Z := (size.1 `div` 2, size.2 `div` 2)%Z.

Section task.
(** [Img] is a decoded image, [Resp] a response; exceptions are known by
    their message. *)
Context {Resp Img : Type}.
(** The external calls of [task]: the request, the header lookup, the
    decoder, the size of an image, writing the resized image (which gives
    the path written to), and [stat]. *)
Variable get : string → string + Resp.
Variable content_type_of : Resp → option string.
Variable open_image : Resp → string + Img.
Variable size_of : Img → Z * Z.
Variable save_resized : Img → Z * Z → option string → string + string.
Variable stat_size : string → string + Z.

Definition tag (p_num : nat) : string := "[PROCESS-" +:+ pretty p_num +:+ "] ".

(** Lines 39-54, the body of the [try]. *)
Definition task_body (url : string) (p_num : nat) : M (L:=string) (E:=string) (bool * Z) :=
  emit (tag p_num +:+ "Downloading image from " +:+ url) ;;
  response ← call (get url);
  let content_type := content_type_of response in
  (if allowed content_type then ret tt else raise "Not an allowed extension.") ;;
  image ← call (open_image response);
  filepath ← call (save_resized image (new_size (size_of image)) content_type);
  emit (tag p_num +:+ "Download completed!") ;;
  size ← call (stat_size filepath);
  ret (true, size).

(** Lines 38-57. *)
Definition task (url : string) (p_num : nat) : M (L:=string) (E:=string) (bool * Z) :=
  try_except (task_body url p_num)
    (λ e, emit (tag p_num +:+ "Error while downloading the file: " +:+ e) ;;
          ret (false, 0%Z)).
End task.

(** What [run_parallel_taks] does to its processes. *)
Inductive op :=
| StartProcess (url : string) (num : nat)
| JoinProcess (url : string) (num : nat)
| Print (line : string).

(** Lines 83-85: one Process object per url, with [task]'s arguments. *)
Definition processes (urls : list string) : list (string * nat) :=
  imap (λ num url, (url, num)) urls.

(** Lines 86-93, given the lines of the url file and the elapsed time as
    printed. *)
Definition run_parallel_taks (urls : list string) (total : string) : list op :=
  (uncurry StartProcess <$> processes urls)
  ++ (uncurry JoinProcess <$> processes urls)
  ++ [Print ("Total: " +:+ total +:+ " seconds")].

Definition is_start_of (url : string) (num : nat) (o : op) : nat :=
  match o with
  | StartProcess url' num' => if decide (url' = url ∧ num' = num) then 1 else 0
  | _ => 0
  end.

End Parallelism.

(** ** The download loop of [src/examples/asynchronism.py] *)

Module Asynchronism.
Import Out.

Section downloads.
(** The calls made for pdf number [n] at [url]: the request, giving the
    Content-Type header of the response or raising, and the copy of the
    body to a file. *)
Variable get : nat → string → string + option string.
Variable write_file : nat → string → string + unit.

(** Lines 97-109. *)
Definition download_file (pdf_url : string) (pdf_num : nat)
  : M (L:=string) (E:=string) unit :=
  content_type ← call (get pdf_num pdf_url);
  if decide (content_type = Some "application/pdf")
  then
    call (write_file pdf_num pdf_url) ;;
    emit ("[ASYNC] PDF " +:+ pretty pdf_num +:+ " downloaded to filesystem!")
  else emit "[ASYNC] Not an allowed extension.".

(** Lines 131-133, from pdf number [pdf_num] on. *)
Fixpoint download_loop (pdf_num : nat) (pdf_urls : list string)
  : M (L:=string) (E:=string) unit :=
  match pdf_urls with
  | [] => ret tt
  | pdf_url :: pdf_urls =>
      emit ("[ASYNC] Downloading PDF " +:+ pretty pdf_num +:+ "...") ;;
      download_file pdf_url pdf_num ;;
      download_loop (S pdf_num) pdf_urls
  end.

(** Lines 129-135; [listing] is what [read_pdf_urls_list] gives. *)
Definition download_pdfs (listing : string + list string)
  : M (L:=string) (E:=string) unit :=
  try_except
    (pdf_urls ← call listing; download_loop 0 pdf_urls)
    (λ e, emit ("[ASYNC] Error while downloading the file: " +:+ e)).

End downloads.

End Asynchronism.

(** ** The driver, [src/main.py] *)

Module Driver.
Import Out.

(** The five functions imported at lines 5-9. *)
Inductive demo :=
| run_async_tasks_in_background
| run_concurrent_tasks
| run_parallel_taks
| run_semaphore_example
| run_workerpool_tasks.

(** What the driver can do: print a line, run a demo until it returns, or
    pause ([sleep], imported at line 3). *)
Inductive action :=
| Print (line : string)
| Run (d : demo)
| Sleep (seconds : Z).

(** Lines 14-16: [while n >= 0: print(f"{n}..."); n -= 1]. *)
Fixpoint count_down (fuel : nat) (n : Z) : list action :=
  match fuel with
  | 0 => []
  | S fuel =>
      if (0 <=? n)%Z
      then Print (pretty n +:+ "...") :: count_down fuel (n - 1)
      else []
  end.

(** Lines 12-17. *)
Definition wait_for (n : Z) : list action :=
  [Print "Next example will run in..."]
  ++ count_down (Z.to_nat (n + 1)) n
  ++ [Print "Now!"].

Section main.
(** The exception a demo lets escape, if any. *)
Variable escapes : demo → option string.

Definition run (d : demo) : M (L:=action) (E:=string) unit :=
  emit (Run d) ;;
  match escapes d with
  | Some e => raise e
  | None => ret tt
  end.

Definition print (line : string) : M (L:=action) (E:=string) unit :=
  emit (Print line).

Definition wait (n : Z) : M (L:=action) (E:=string) unit :=
  (wait_for n, inr tt).

(** Lines 20-39. *)
Definition main : M (L:=action) (E:=string) unit :=
  print "Running async tasks..." ;;
  run run_async_tasks_in_background ;;
  print "Async tasks completed!" ;;
  wait 5 ;;
  print "Running concurrent tasks..." ;;
  run run_concurrent_tasks ;;
  print "Concurrent tasks completed!" ;;
  wait 5 ;;
  print "Running parallel tasks..." ;;
  run run_parallel_taks ;;
  print "Parallel tasks completed!" ;;
  wait 5 ;;
  print "Running semaphore tasks..." ;;
  run run_semaphore_example ;;
  print "Semaphore tasks completed!" ;;
  wait 5 ;;
  print "Running workerpool tasks..." ;;
  run run_workerpool_tasks ;;
  print "Workerpool tasks completed!".

(** The status the interpreter exits with after lines 42-43: 0 when
    [main] returns, 1 when an exception escapes it. *)
Definition exit_code (m : M (L:=action) (E:=string) unit) : Z :=
  match m.2 with
  | inr _ => 0
  | inl _ => 1
  end.

(** The demos run, in the order they were run. *)
Definition demos_run (out : list action) : list demo :=
  omap (λ a, match a with Run d => Some d | _ => None end) out.

Definition pauses (out : list action) : list Z :=
  omap (λ a, match a with Sleep n => Some n | _ => None end) out.

(** The order of the demos in the source. *)
Definition programme : list demo :=
  [run_async_tasks_in_background; run_concurrent_tasks; run_parallel_taks;
   run_semaphore_example; run_workerpool_tasks].

End main.

End Driver.

(** ** Concrete runs *)

Module Scenario.
Import Semaphore.

(** Four addresses: the first and third are found, the second has no
    record, the lookup of the fourth raises. *)
Definition addresses : list string :=
  ["198.51.100.7"; "203.0.113.9"; "192.0.2.44"; "233.252.0.1"].

Definition whois (t : nat) (a : string) : lookup (R:=string) (E:=string) :=
  match t with
  | 0 => Found "AS64500"
  | 1 => NoRecord
  | 2 => Found "AS64502"
  | _ => Raised "IPDefinedError"
  end.

(** All threads are started; thread 2 runs to its end, then 1, 3 and 0;
    [main] joins them and prints. *)
Definition schedule : list actor :=
  replicate 5 Main ++ replicate 7 (Thread 2) ++ [Thread 1]
  ++ replicate 2 (Thread 3) ++ replicate 7 (Thread 0) ++ replicate 5 Main.

Definition start : state (R:=string) (E:=string) := init 4 addresses [].

Definition final : state (R:=string) (E:=string) :=
  default start (exec whois addresses schedule start).

(** Threads 2 and 0 are both inside the [with] block. *)
Definition overlapped : list actor :=
  replicate 4 Main
  ++ [Thread 2; Thread 0; Thread 2; Thread 0; Thread 2; Thread 0; Thread 2].

Definition midway : state (R:=string) (E:=string) :=
  default start (exec whois addresses overlapped start).

(** The scenario of the demo: 20 addresses under 4 permits.  Every third
    lookup finds a record, the next has none, the next raises. *)
Definition twenty : list string :=
  (λ i, "192.0.2." +:+ pretty i) <$> seq 0 demo_addresses.

Definition whois20 (t : nat) (a : string) : lookup (R:=string) (E:=string) :=
  match t `mod` 3 with
  | 0 => Found ("AS" +:+ pretty t)
  | 1 => NoRecord
  | _ => Raised "HTTPLookupError"
  end.

Definition steps_of (o : lookup (R:=string) (E:=string)) : nat :=
  match o with Found _ => 7 | NoRecord => 1 | Raised _ => 2 end.

(** The threads run one after the other, the last one first. *)
Definition schedule20 : list actor :=
  replicate 21 Main
  ++ mjoin (reverse (imap (λ t a, replicate (steps_of (whois20 t a)) (Thread t)) twenty))
  ++ replicate 21 Main.

Definition start20 : state (R:=string) (E:=string) := init 4 twenty [].

Definition final20 : state (R:=string) (E:=string) :=
  default start20 (exec whois20 twenty schedule20 start20).

(** The model trained for an iteration count, as it prints. *)
Definition train_model (max_iter : Z) : string :=
  "SGDClassifier(max_iter=" +:+ pretty max_iter +:+ ")".

Definition pool_start : WorkerPool.state (A:=Z) (B:=string) :=
  WorkerPool.init 3 WorkerPool.demo_max_iters.

(** Two workers have taken a chunk each and are inside [train_model]. *)
Definition pool_schedule : list WorkerPool.actor :=
  [WorkerPool.Worker 0; WorkerPool.Worker 1; WorkerPool.Worker 0;
   WorkerPool.Worker 1].

Definition pool_midway : WorkerPool.state (A:=Z) (B:=string) :=
  default pool_start
    (WorkerPool.exec train_model pool_schedule pool_start).

(** The pool of the demo after a run in which worker 0 does all the work
    and [map] returns. *)
Definition pool_done : WorkerPool.state (A:=Z) (B:=string) :=
  default pool_start
    (WorkerPool.exec train_model
       (replicate 40 (WorkerPool.Worker 0) ++ [WorkerPool.Main])
       pool_start).

(** Two pdfs: the request for the first raises, the second would be
    served. *)
Definition pdfs : list string :=
  ["https://example.org/a.pdf"; "https://example.org/b.pdf"].

Definition pdf_get (n : nat) (url : string) : string + option string :=
  match n with
  | 0 => inl "ClientConnectorError"
  | _ => inr (Some "application/pdf")
  end.

Definition pdf_write (n : nat) (url : string) : string + unit := inr tt.

End Scenario.

(** ** Further observations on the semaphore demonstration *)

Module SemaphoreRun.
Import Semaphore.

Section demo.
Context {R E : Type}.

(** The list is printed (line 80). *)
Definition is_print (e : event (R:=R) (E:=E)) : bool :=
  match e with PrintList _ => true | _ => false end.

(** Thread numbers in the order [join] returned for them (lines 78-79). *)
Definition joins (tr : list (event (R:=R) (E:=E))) : list nat :=
  omap (λ e, match e with Join t => Some t | _ => None end) tr.

(** Thread [t] takes a permit (line 42, on entry). *)
Definition is_acquire (t : nat) (e : event (R:=R) (E:=E)) : bool :=
  match e with Acquire t' => bool_decide (t' = t) | _ => false end.

(** Thread [t] gives a permit back (line 42, on exit). *)
Definition is_release (t : nat) (e : event (R:=R) (E:=E)) : bool :=
  match e with Release t' => bool_decide (t' = t) | _ => false end.

(** An upper bound on the atomic steps of a run over [n] addresses: what
    [measure] gives for the state the run starts in. *)
Definition step_bound (n : nat) : nat := 20 * n + 3.

(** *** Tasks in flight *)

(** 1 for a thread whose call of [get_address_info] has been entered and
    has not returned (lines 37-48): the task is between its entry and its
    exit. *)
Definition active (p : pc (R:=R) (E:=E)) : nat :=
  match p with
  | Created | Finished _ => 0
  | _ => 1
  end.

(** 1 for a thread that has taken its permit (line 42) and has not yet
    returned: the line of line 46 is still before it when it has given the
    permit back. *)
Definition admitted (p : pc (R:=R) (E:=E)) : nat :=
  match p with
  | AtLogAcquire _ | AtAppend _ | AtSleep _ | AtExitWith _ | AtLogRelease _ => 1
  | _ => 0
  end.

(** The tasks in flight, counted at the entry and the exit of the task. *)
Definition tasks_in_flight (s : state (R:=R) (E:=E)) : nat :=
  sum_list_with active (threads s).

(** The tasks that have claimed a slot and have not ended. *)
Definition tasks_admitted (s : state (R:=R) (E:=E)) : nat :=
  sum_list_with admitted (threads s).

End demo.
End SemaphoreRun.

Module Crowd.
Import Semaphore.

(** The demo's 20 addresses under its 4 permits, when lines 76-77 have
    started every thread and none has moved yet. *)
Definition crowded : state (R:=string) (E:=string) :=
  default Scenario.start20
    (exec Scenario.whois20 Scenario.twenty (replicate 20 Main) Scenario.start20).

(** One permit: thread 0 has left the [with] block and stands before line
    46, thread 2 has taken the permit. *)
Definition serial_schedule : list actor :=
  replicate 4 Main ++ replicate 6 (Thread 0) ++ replicate 2 (Thread 2).

Definition serial_start : state (R:=string) (E:=string) :=
  init 1 Scenario.addresses [].

Definition serial : state (R:=string) (E:=string) :=
  default serial_start
    (exec Scenario.whois Scenario.addresses serial_schedule serial_start).

End Crowd.

Module Again.
Import Semaphore.

(** [run_semaphore_example] called a second time in the same interpreter:
    the module-level list still holds what the first call left. *)
Definition start : state (R:=string) (E:=string) :=
  init 4 Scenario.addresses (valid_ips Scenario.final).

Definition final : state (R:=string) (E:=string) :=
  default start (exec Scenario.whois Scenario.addresses Scenario.schedule start).

(** Thread 0 stands inside the [with] block, after its append. *)
Definition midway : state (R:=string) (E:=string) :=
  default start
    (exec Scenario.whois Scenario.addresses
       (replicate 4 Main ++ replicate 4 (Thread 0)) start).

End Again.

(** ** Further observations on the pool *)

Module PoolRun.
Import WorkerPool.

Section pool.
Context {A B : Type}.

(** The items the mapped function has been entered on, in that order. *)
Definition entered_items (tr : list (event (A:=A) (B:=B))) : list A :=
  omap (λ e, match e with Enter _ x => Some x | _ => None end) tr.

(** The items the mapped function has returned for. *)
Definition exited_items (tr : list (event (A:=A) (B:=B))) : list A :=
  omap (λ e, match e with Exit _ x => Some x | _ => None end) tr.

(** Chunk numbers in the order their results were handed back. *)
Definition puts (tr : list (event (A:=A) (B:=B))) : list nat :=
  omap (λ e, match e with Put _ c => Some c | _ => None end) tr.

(** The chunk a worker holds, if any. *)
Definition holds (p : worker (A:=A) (B:=B)) : list nat :=
  match p with
  | Idle => []
  | Holding c _ _ | Running c _ _ _ => [c]
  end.

(** The item a worker is inside the mapped function for, if any. *)
Definition inside (p : worker (A:=A) (B:=B)) : list A :=
  match p with Running _ _ x _ => [x] | _ => [] end.

(** The items of its chunk a worker has not entered yet. *)
Definition todo_of (p : worker (A:=A) (B:=B)) : list A :=
  match p with
  | Idle => []
  | Holding _ _ todo | Running _ _ _ todo => todo
  end.

(** The items the mapped function has not been entered on: those of the
    queued chunks and those the workers still have before them. *)
Definition remaining (s : state (A:=A) (B:=B)) : list A :=
  mjoin (snd <$> inqueue s) ++ mjoin (todo_of <$> workers s).

(** Nothing is queued and every worker waits. *)
Definition quiet (s : state (A:=A) (B:=B)) : Prop :=
  inqueue s = [] ∧ ∀ w p, workers s !! w = Some p → p = Idle.

Variable K : nat.
Variable items : list A.

(** An upper bound on the atomic steps of [map]: a take and a put for
    each chunk, an entry and an exit for each item, and the return. *)
Definition map_bound : nat :=
  2 * length items + 2 * length (chunks K items) + 1.

(** Where the items and the chunks are. *)
Record accounting (s : state (A:=A) (B:=B)) : Prop := Accounting {
  acc_items : entered_items (trace s) ++ remaining s ≡ₚ items;
  acc_exits :
    exited_items (trace s) ++ mjoin (inside <$> workers s)
    ≡ₚ entered_items (trace s);
  acc_chunks : mjoin (holds <$> workers s) ++ puts (trace s) ≡ₚ takes (trace s);
  acc_value : ∀ c ys, value s !! c = Some (Some ys) → c ∈ puts (trace s);
  acc_quiet : is_Some (result s) → quiet s
}.

End pool.
End PoolRun.

(** ** Further observations on the parallelism demonstration *)

Module ParallelRun.
Import Parallelism.

(** Line 39. *)
Definition downloading (p_num : nat) (url : string) : string :=
  tag p_num +:+ "Downloading image from " +:+ url.

(** Line 53. *)
Definition completed (p_num : nat) : string :=
  tag p_num +:+ "Download completed!".

(** Line 56. *)
Definition error (p_num : nat) (e : string) : string :=
  tag p_num +:+ "Error while downloading the file: " +:+ e.

Section task.
Context {Resp Img : Type}.
Variable get : string → string + Resp.
Variable content_type_of : Resp → option string.
Variable open_image : Resp → string + Img.
Variable size_of : Img → Z * Z.
Variable save_resized : Img → Z * Z → option string → string + string.

(** Lines 40-52 went through for [url]: the response [resp] had an allowed
    type, and its image was decoded, halved and written to [path]. *)
Definition saved (url : string) (resp : Resp) (path : string) : Prop :=
  get url = inr resp
  ∧ allowed (content_type_of resp) = true
  ∧ ∃ img, open_image resp = inr img
      ∧ save_resized img (new_size (size_of img)) (content_type_of resp)
        = inr path.

End task.

End ParallelRun.

(** ** The processes of [run_parallel_taks], [src/examples/parallelism.py] *)

Module Processes.

Section demo.

(** A process of line 85: not yet started; started and running [task];
    or ended.  [task] returns whatever happens, and the process ends with
    it. *)
Inductive pc :=
| Created
| Alive
| Exited.

(** The caller in the loop of lines 87-88, in that of lines 89-90, or past
    line 93. *)
Inductive main_pc :=
| Starting (i : nat)
| Joining (j : nat)
| Returned.

Inductive event :=
| Start (url : string) (num : nat)   (* [process.start()], line 88 *)
| Exit (num : nat)                   (* process [num] ends *)
| Join (num : nat)                   (* [process.join()] returns, line 90 *)
| PrintTotal.                        (* line 93 *)

Record state := State {
  main : main_pc;
  procs : list pc;
  trace : list event
}.

Inductive actor := Main | Process (num : nat).

(** The urls of the file, as lines 79-82 give them. *)
Variable urls : list string.

(** Process [num] comes to its end. *)
Definition process_step (num : nat) (s : state) : option state :=
  p ← procs s !! num;
  match p with
  | Alive =>
      Some (State (main s) (<[num:=Exited]> (procs s)) (trace s ++ [Exit num]))
  | _ => None
  end.

(** Lines 87-93: every process is started, in the order of the urls, with
    nothing in between; then each is joined, which blocks until it has
    ended; then the line of line 93. *)
Definition main_step (s : state) : option state :=
  match main s with
  | Starting i =>
      match urls !! i with
      | Some url =>
          Some (State (Starting (S i)) (<[i:=Alive]> (procs s))
                      (trace s ++ [Start url i]))
      | None => Some (State (Joining 0) (procs s) (trace s))
      end
  | Joining j =>
      match procs s !! j with
      | Some Exited =>
          Some (State (Joining (S j)) (procs s) (trace s ++ [Join j]))
      | Some _ => None
      | None => Some (State Returned (procs s) (trace s ++ [PrintTotal]))
      end
  | Returned => None
  end.

Definition step (a : actor) (s : state) : option state :=
  match a with
  | Main => main_step s
  | Process num => process_step num s
  end.

(** Lines 83-86: one process for each url, none started. *)
Definition init : state := State (Starting 0) ((λ _, Created) <$> urls) [].

Fixpoint exec (sched : list actor) (s : state) : option state :=
  match sched with
  | [] => Some s
  | a :: sched => s' ← step a s; exec sched s'
  end.

Inductive reachable : state → Prop :=
| reach_init : reachable init
| reach_step a s s' : reachable s → step a s = Some s' → reachable s'.

(** *** Observations *)

Definition alive_pc (p : pc) : nat :=
  match p with Alive => 1 | _ => 0 end.

(** The processes alive at once: started and not yet ended. *)
Definition alive (s : state) : nat := sum_list_with alive_pc (procs s).

Definition started (tr : list event) : nat :=
  sum_list_with (λ e, match e with Start _ _ => 1 | _ => 0 end) tr.

Definition ended (tr : list event) : nat :=
  sum_list_with (λ e, match e with Exit _ => 1 | _ => 0 end) tr.

Record invariant (s : state) : Prop := Invariant {
  inv_length : length (procs s) = length urls;
  inv_alive : started (trace s) = ended (trace s) + alive s;
  inv_main :
    match main s with
    | Starting i =>
        i ≤ length urls
        ∧ (∀ k p, procs s !! k = Some p → i ≤ k → p = Created)
        ∧ (∀ k p, procs s !! k = Some p → k < i → p ≠ Created)
    | Joining j =>
        j ≤ length urls
        ∧ ∀ k p, procs s !! k = Some p → p ≠ Created ∧ (k < j → p = Exited)
    | Returned => ∀ k p, procs s !! k = Some p → p = Exited
    end
}.

End demo.
End Processes.

Module ProcessScenario.
Import Processes.

Definition urls : list string :=
  ["https://example.org/a.jpg"; "https://example.org/b.png";
   "https://example.org/c.jpg"].

(** All three processes are started; the second has ended. *)
Definition schedule : list actor := [Main; Main; Main; Process 1].

Definition start : state := init urls.

Definition midway : state := default start (exec urls schedule start).

End ProcessScenario.

(** ** Reading the url files *)

Module Reading.

Definition newline : Ascii.ascii := Ascii.ascii_of_nat 10.

Definition carriage_return : Ascii.ascii := Ascii.ascii_of_nat 13.

(** What a file opened in text mode ([open(path, "r")], line 80 of
    [parallelism.py] and line 33 of [asynchronism.py]) hands over for the
    characters [text] it holds: a carriage return followed by a newline,
    and a carriage return alone, are each turned into one newline. *)
Fixpoint universal_newlines (text : string) : string :=
  match text with
  | EmptyString => EmptyString
  | String c rest =>
      if decide (c = carriage_return)
      then
        String newline
          match rest with
          | EmptyString => EmptyString
          | String c' rest' =>
              if decide (c' = newline) then universal_newlines rest'
              else universal_newlines rest
          end
      else String c (universal_newlines rest)
  end.

(** The lines of a translated text, in order, each with the newline that
    ends it; the last line has none when the text does not end in one. *)
Fixpoint split_lines (text : string) : list string :=
  match text with
  | EmptyString => []
  | String c rest =>
      if decide (c = newline) then String c EmptyString :: split_lines rest
      else
        match split_lines rest with
        | [] => [String c EmptyString]
        | line :: lines => String c line :: lines
        end
  end.

(** [file.readlines()] on a file that holds the characters [text]: the
    lines of what the text mode hands over. *)
Definition readlines (text : string) : list string :=
  split_lines (universal_newlines text).

(** [s.replace("\n", "")]: every newline of [s] is dropped. *)
Fixpoint remove_newlines (s : string) : string :=
  match s with
  | EmptyString => EmptyString
  | String c rest =>
      if decide (c = newline) then remove_newlines rest
      else String c (remove_newlines rest)
  end.

(** Lines 81-82 of [parallelism.py] and 34-35 of [asynchronism.py]:
    [readlines()], then [replace("\n", "")] on each line. *)
Definition urls_of (text : string) : list string :=
  remove_newlines <$> readlines text.





End Reading.

(** ** Further observations on the download loop *)

Module AsyncRun.

(** Line 132. *)
Definition downloading (pdf_num : nat) : string :=
  "[ASYNC] Downloading PDF " +:+ pretty pdf_num +:+ "...".

(** Line 109. *)
Definition downloaded (pdf_num : nat) : string :=
  "[ASYNC] PDF " +:+ pretty pdf_num +:+ " downloaded to filesystem!".

(** Line 102. *)
Definition refused : string := "[ASYNC] Not an allowed extension.".

(** Line 135. *)
Definition error (e : string) : string :=
  "[ASYNC] Error while downloading the file: " +:+ e.

(** A line that starts the way the line of line 135 does. *)
Definition is_error (line : string) : bool :=
  String.prefix "[ASYNC] Error while downloading the file: " line.

(** What the loop prints for pdf number [pdf_num] when its request is
    answered with [content_type] and, for a pdf, the copy goes through. *)
Definition attempt (pdf_num : nat) (content_type : option string)
  : list string :=
  [downloading pdf_num;
   if decide (content_type = Some "application/pdf")
   then downloaded pdf_num else refused].

End AsyncRun.

Module AsyncScenario.

(** Two urls: the first is served as a pdf, the second as a web page. *)
Definition urls : list string :=
  ["https://example.org/a.pdf"; "https://example.org/page.html"].

Definition content_types : list (option string) :=
  [Some "application/pdf"; Some "text/html"].

Definition get (n : nat) (url : string) : string + option string :=
  inr (default None (content_types !! n)).

Definition write_file (n : nat) (url : string) : string + unit := inr tt.

End AsyncScenario.

(** ** The quotes of [src/examples/asynchronism.py] *)

Module Quotes.
Import Out.

(** Line 13. *)
Definition QUOTES_API_URL : string := "https://zenquotes.io/api/random/".

(** What [json.loads] gives: [None], a bool, a number (by its text), a
    string, a list, or a dict (by its items, each key once). *)
Local Unset Elimination Schemes.
Inductive json :=
| JNull
| JBool (b : bool)
| JNumber (text : string)
| JString (s : string)
| JArray (l : list json)
| JObject (items : list (string * json)).
Local Set Elimination Schemes.

(** The exceptions of this part: those of the calls made, known by their
    message, and those of subscripting. *)
Inductive error :=
| Failed (e : string)
| IndexError
| KeyError (key : string)
| TypeError.

(** What [get_quotes] does: it sleeps, sends a request, prints a line. *)
Inductive action :=
| Sleep (seconds : Z)
| Request (url : string)
| Print (line : string).

(** [v[0]], as at line 158. *)
Definition subscript_0 (v : json) : error + json :=
  match v with
  | JArray [] => inl IndexError
  | JArray (x :: _) => inr x
  | JString EmptyString => inl IndexError
  | JString (String c _) => inr (JString (String c EmptyString))
  | JObject _ => inl (KeyError "0")
  | _ => inl TypeError
  end.

Fixpoint lookup_item (key : string) (items : list (string * json))
  : option json :=
  match items with
  | [] => None
  | (k, v) :: items => if decide (k = key) then Some v else lookup_item key items
  end.

(** [v[key]] for a string [key], as at line 184. *)
Definition subscript (key : string) (v : json) : error + json :=
  match v with
  | JObject items =>
      match lookup_item key items with
      | Some x => inr x
      | None => inl (KeyError ("'" +:+ key +:+ "'"))
      end
  | _ => inl TypeError
  end.

Section quotes.
(** The text of the response to request number [n], or the exception
    raised on the way to it; [json.loads]; and what an f-string shows for
    a value that is not a string. *)
Variable fetch : nat → error + string.
Variable loads : string → error + json.
Variable str_of : json → string.

Definition shown (v : json) : string :=
  match v with JString s => s | _ => str_of v end.

(** Lines 154-158, for request number [n]. *)
Definition get_quote (n : nat) : M (L:=action) (E:=error) json :=
  emit (Request QUOTES_API_URL) ;;
  quotes ← call (fetch n);
  quotes ← call (loads quotes);
  call (subscript_0 quotes).

(** Lines 182-184, the body of the loop. *)
Definition quote_round (n : nat) : M (L:=action) (E:=error) unit :=
  emit (Sleep 6) ;;
  quote ← get_quote n;
  a ← call (subscript "a" quote);
  q ← call (subscript "q" quote);
  emit (Print ("[ASYNC] " +:+ shown a +:+ ": '" +:+ shown q +:+ "'")).

(** Line 181 with [todo] iterations left, [n] done. *)
Fixpoint quotes_loop (n todo : nat) : M (L:=action) (E:=error) unit :=
  match todo with
  | 0 => ret tt
  | S todo => quote_round n ;; quotes_loop (S n) todo
  end.

(** Lines 181-184. *)
Definition get_quotes : M (L:=action) (E:=error) unit := quotes_loop 0 20.

End quotes.

(** *** Observations *)

Definition requests (out : list action) : nat :=
  sum_list_with (λ a, match a with Request _ => 1 | _ => 0 end) out.

Definition prints (out : list action) : nat :=
  sum_list_with (λ a, match a with Print _ => 1 | _ => 0 end) out.

(** The seconds slept. *)
Definition slept (out : list action) : Z :=
  foldr (λ a t, match a with Sleep s => s + t | _ => t end)%Z 0%Z out.

(** Every request comes directly after a sleep of 6 seconds or more;
    [rested] tells whether [out] starts directly after one. *)
Fixpoint paced (rested : bool) (out : list action) : bool :=
  match out with
  | [] => true
  | Sleep s :: out => paced (bool_decide (6 ≤ s)%Z) out
  | Request _ :: out => rested && paced false out
  | Print _ :: out => paced false out
  end.

(** What a round that goes through leaves behind, and one that fails. *)
Definition round_of (line : string) : list action :=
  [Sleep 6; Request QUOTES_API_URL; Print line].

Definition failed_round : list action := [Sleep 6; Request QUOTES_API_URL].

End Quotes.

Module QuotesScenario.
Import Quotes.

(** The API answers twice; the third answer is an empty list. *)
Definition fetch (n : nat) : error + string :=
  match n with
  | 0 => inr "first"
  | 1 => inr "second"
  | _ => inr "empty"
  end.

Definition quote (a q : string) : json :=
  JArray [JObject [("q", JString q); ("a", JString a); ("h", JString "")]].

Definition loads (text : string) : error + json :=
  if decide (text = "first") then inr (quote "Seneca" "Begin at once to live.")
  else if decide (text = "second") then inr (quote "Laozi" "Act without expectation.")
  else inr (JArray []).

Definition str_of (v : json) : string := "".

End QuotesScenario.

(** ** Copying a response to a file, [write_file] of
    [src/examples/asynchronism.py] *)

Module Copy.
Import Out.

(** What [write_file] does to the file. *)
Inductive action :=
| Open (filepath : string)
| Write (chunk : list Byte.byte)
| Close.

(** Line 66: [chunk in (None, b"")]. *)
Definition at_end (chunk : option (list Byte.byte)) : bool :=
  match chunk with
  | None | Some [] => true
  | Some (_ :: _) => false
  end.

Section write_file.
(** [aiofiles.open(filepath, "wb")], which raises or gives the file; call
    number [k] of [content.read(2048)], which raises or gives [None] or
    bytes; and call number [k] of [output_file.write]. *)
Variable open_file : string → string + unit.
Variable read : nat → string + option (list Byte.byte).
Variable write : nat → list Byte.byte → string + unit.

(** Lines 64-68 from read number [k] on; [fuel] bounds the rounds of the
    [while True], and [None] tells that it ran out. *)
Fixpoint copy (fuel k : nat) : option (M (L:=action) (E:=string) unit) :=
  match fuel with
  | 0 => None
  | S fuel =>
      match read k with
      | inl e => Some (raise e)
      | inr chunk =>
          if at_end chunk then Some (ret tt)
          else
            match write k (default [] chunk) with
            | inl e => Some (raise e)
            | inr _ =>
                rest ← copy fuel (S k);
                Some (emit (Write (default [] chunk)) ;; rest)
            end
      end
  end.

(** Lines 63-68: the file is closed on the way out of the [async with],
    also when the loop raises. *)
Definition write_file (fuel : nat) (filepath : string)
  : option (M (L:=action) (E:=string) unit) :=
  match open_file filepath with
  | inl e => Some (raise e)
  | inr _ =>
      body ← copy fuel 0;
      Some ([Open filepath] ++ body.1 ++ [Close], body.2)
  end.

End write_file.

(** The bytes written. *)
Definition written (out : list action) : list Byte.byte :=
  mjoin (omap (λ a, match a with Write chunk => Some chunk | _ => None end) out).

End Copy.

Module CopyScenario.

(** A body that arrives in two pieces, then the end of the stream. *)
Definition pieces : list (list Byte.byte) :=
  [[Byte.x25; Byte.x50; Byte.x44; Byte.x46]; [Byte.x2d; Byte.x31]].

Definition read (k : nat) : string + option (list Byte.byte) :=
  match pieces !! k with
  | Some piece => inr (Some piece)
  | None => inr (Some [])
  end.

Definition open_file (filepath : string) : string + unit := inr tt.

Definition write (k : nat) (chunk : list Byte.byte) : string + unit := inr tt.

End CopyScenario.

(** ** Requests on one event loop, [src/examples/concurrency.py] *)

Module Concurrency.

(** Line 29. *)
Definition url_of (delay : nat) : string :=
  "https://httpbin.org/delay/" +:+ pretty delay.

(** Line 53: [range(10)]. *)
Definition demo_delays : list nat := seq 0 10.

Section demo.
(** [Resp] is a response, [J] what [response.json()] gives; exceptions are
    known by their message. *)
Context {Resp J : Type}.

(** Where a coroutine of [task] stands: created at line 53 and not yet
    run; suspended in [session.get] (line 32); suspended in
    [response.json()] (line 34); returned; or ended by the exception that
    line 32 or line 34 raised.  Between two of these points a coroutine
    runs without giving way to another. *)
Inductive pc :=
| Created
| Requesting
| Reading (response : Resp)
| Done (value : J)
| FailedRequest (e : string)
| FailedReading (e : string).

(** The caller inside [run_until_complete] (line 55), past line 60, or
    left by an exception. *)
Inductive main_pc :=
| Gathering
| Returned
| Escaped (e : string).

Inductive event :=
| Sending (delay : nat)      (* the line of line 30 *)
| Get (url : string)         (* the request of line 32 goes out *)
| Succeeded (delay : nat)    (* the line of line 33 *)
| Total                      (* the line of line 59 *)
| CloseLoop.                 (* line 60 *)

Record state := State {
  main : main_pc;
  tasks : list pc;
  raised : option string;    (* the exception [gather] holds, if any *)
  trace : list event
}.

Inductive actor := Main | Task (i : nat).

(** What the requests are answered with, by delay; and the delays. *)
Variable respond : nat → string + Resp.
Variable json_of : nat → Resp → string + J.
Variable delays : list nat.

(** [gather] keeps the first exception raised. *)
Definition note (first : option string) (e : string) : option string :=
  match first with
  | Some e' => Some e'
  | None => Some e
  end.

(** One run of coroutine [i] from where it stands to its next suspension
    or its end (lines 29-34).  Once [run_until_complete] is over, the loop
    runs nothing. *)
Definition task_step (i : nat) (s : state) : option state :=
  match main s with
  | Gathering =>
      delay ← delays !! i;
      p ← tasks s !! i;
      match p with
      | Created =>
          Some (State Gathering (<[i:=Requesting]> (tasks s)) (raised s)
                      (trace s ++ [Sending delay; Get (url_of delay)]))
      | Requesting =>
          match respond delay with
          | inl e =>
              Some (State Gathering (<[i:=FailedRequest e]> (tasks s))
                          (note (raised s) e) (trace s))
          | inr response =>
              Some (State Gathering (<[i:=Reading response]> (tasks s))
                          (raised s) (trace s ++ [Succeeded delay]))
          end
      | Reading response =>
          match json_of delay response with
          | inl e =>
              Some (State Gathering (<[i:=FailedReading e]> (tasks s))
                          (note (raised s) e) (trace s))
          | inr value =>
              Some (State Gathering (<[i:=Done value]> (tasks s)) (raised s)
                          (trace s))
          end
      | _ => None
      end
  | _ => None
  end.

Definition is_done (p : pc) : bool :=
  match p with Done _ => true | _ => false end.

(** Lines 55-61: [run_until_complete] raises the exception [gather] holds
    as soon as there is one, and returns when every coroutine has; the
    lines after it run only then. *)
Definition main_step (s : state) : option state :=
  match main s with
  | Gathering =>
      match raised s with
      | Some e => Some (State (Escaped e) (tasks s) (raised s) (trace s))
      | None =>
          if forallb is_done (tasks s)
          then Some (State Returned (tasks s) None
                           (trace s ++ [Total; CloseLoop]))
          else None
      end
  | _ => None
  end.

Definition step (a : actor) (s : state) : option state :=
  match a with
  | Main => main_step s
  | Task i => task_step i s
  end.

(** Lines 52-54: one coroutine for each delay, none run yet. *)
Definition init : state := State Gathering ((λ _, Created) <$> delays) None [].

Fixpoint exec (sched : list actor) (s : state) : option state :=
  match sched with
  | [] => Some s
  | a :: sched => s' ← step a s; exec sched s'
  end.

Inductive reachable : state → Prop :=
| reach_init : reachable init
| reach_step a s s' : reachable s → step a s = Some s' → reachable s'.

(** *** Observations *)

Definition sendings (tr : list event) : nat :=
  sum_list_with (λ e, match e with Sending _ => 1 | _ => 0 end) tr.

Definition successes (tr : list event) : nat :=
  sum_list_with (λ e, match e with Succeeded _ => 1 | _ => 0 end) tr.

Definition totals (tr : list event) : nat :=
  sum_list_with (λ e, match e with Total => 1 | _ => 0 end) tr.

Definition closes (tr : list event) : nat :=
  sum_list_with (λ e, match e with CloseLoop => 1 | _ => 0 end) tr.

(** 1 for a coroutine that has printed the line of line 30. *)
Definition started (p : pc) : nat :=
  match p with Created => 0 | _ => 1 end.

(** 1 for a coroutine that has printed the line of line 33. *)
Definition answered (p : pc) : nat :=
  match p with Reading _ | Done _ | FailedReading _ => 1 | _ => 0 end.

(** The request for [delay] and the reading of its answer both go through. *)
Definition served (delay : nat) : Prop :=
  ∃ response value,
    respond delay = inr response ∧ json_of delay response = inr value.

(** The request for [delay], or the reading of its answer, raises [e]. *)
Definition fails_with (delay : nat) (e : string) : Prop :=
  respond delay = inl e
  ∨ ∃ response, respond delay = inr response ∧ json_of delay response = inl e.

(** A coroutine stands where the answers to its request put it. *)
Definition agrees (delay : nat) (p : pc) : Prop :=
  match p with
  | Created | Requesting => True
  | Reading response => respond delay = inr response
  | Done value =>
      ∃ response, respond delay = inr response
                  ∧ json_of delay response = inr value
  | FailedRequest e => respond delay = inl e
  | FailedReading e =>
      ∃ response, respond delay = inr response
                  ∧ json_of delay response = inl e
  end.

Definition failed (p : pc) : option string :=
  match p with
  | FailedRequest e | FailedReading e => Some e
  | _ => None
  end.

Record invariant (s : state) : Prop := Invariant {
  inv_length : length (tasks s) = length delays;
  inv_task : ∀ i delay p, delays !! i = Some delay → tasks s !! i = Some p →
    agrees delay p;
  inv_raised : ∀ e, raised s = Some e →
    ∃ i p, tasks s !! i = Some p ∧ failed p = Some e;
  inv_calm : raised s = None → ∀ i p, tasks s !! i = Some p → failed p = None;
  inv_sendings : sendings (trace s) = sum_list_with started (tasks s);
  inv_successes : successes (trace s) = sum_list_with answered (tasks s);
  inv_main :
    match main s with
    | Gathering => totals (trace s) = 0 ∧ closes (trace s) = 0
    | Returned =>
        raised s = None
        ∧ (∀ i p, tasks s !! i = Some p → is_done p = true)
        ∧ ∃ tr, trace s = tr ++ [Total; CloseLoop]
                ∧ totals tr = 0 ∧ closes tr = 0
    | Escaped e => raised s = Some e ∧ totals (trace s) = 0 ∧ closes (trace s) = 0
    end
}.

(** *** What is left to do *)

Definition rank (p : pc) : nat :=
  match p with
  | Created => 3
  | Requesting => 2
  | Reading _ => 1
  | _ => 0
  end.

Definition measure (s : state) : nat :=
  match main s with Gathering => 1 | _ => 0 end
  + sum_list_with rank (tasks s).

(** An upper bound on the steps of a run over [n] delays. *)
Definition step_bound (n : nat) : nat := 3 * n + 1.

End demo.
End Concurrency.

Module ConcurrencyScenario.
Import Concurrency.

(** The service answers every request but that for delay 7. *)
Definition respond (delay : nat) : string + nat :=
  if decide (delay = 7) then inl "ServerDisconnectedError" else inr delay.

Definition json_of (delay : nat) (response : nat) : string + string :=
  inr ("{}").

(** Every coroutine is run until it is suspended in its request; those
    for the delays 0 and 7 get their answers; then the caller goes on. *)
Definition schedule : list actor :=
  (Task <$> seq 0 10) ++ [Task 0; Task 7; Main].

Definition start : state (Resp:=nat) (J:=string) := init demo_delays.

Definition final : state (Resp:=nat) (J:=string) :=
  default start (exec respond json_of demo_delays schedule start).

(** A service that answers everything, and a run in which the coroutines
    finish one after the other. *)
Definition respond_all (delay : nat) : string + nat := inr delay.

Definition schedule_all : list actor :=
  (Task <$> seq 0 10) ++ (Task <$> seq 0 10) ++ (Task <$> seq 0 10) ++ [Main].

Definition final_all : state (Resp:=nat) (J:=string) :=
  default start (exec respond_all json_of demo_delays schedule_all start).

End ConcurrencyScenario.

(** * Their properties *)

(** ** List facts shared by the models *)

Section list_facts.
Context {A : Type}.

(** Replacing cell [i] moves a weighted sum by the difference of weights. *)
Lemma sum_list_with_insert (f : A → nat) (l : list A) i x y :
  l !! i = Some x →
  sum_list_with f (<[i:=y]> l) + f x = sum_list_with f l + f y.
Proof.
  revert i; induction l as [|z l IH]; intros [|i] Hi; simplify_eq/=; try lia.
  specialize (IH _ Hi). lia.
Qed.

Lemma sum_list_with_pos (f : A → nat) (l : list A) :
  0 < sum_list_with f l → ∃ i x, l !! i = Some x ∧ 0 < f x.
Proof.
  induction l as [|z l IH]; simpl; [lia|].
  destruct (f z) as [|n] eqn:Hz.
  - intros H. destruct (IH H) as (i & x & Hi & Hx). by exists (S i), x.
  - intros _. exists 0, z. split; [done|lia].
Qed.

Lemma sum_list_with_zero (f : A → nat) (l : list A) :
  (∀ i x, l !! i = Some x → f x = 0) → sum_list_with f l = 0.
Proof.
  induction l as [|z l IH]; simpl; [done|]. intros H.
  rewrite (H 0 z eq_refl), IH; [done|]. intros i x Hi. by apply (H (S i)).
Qed.

(** Growing one cell of a family of lists grows their concatenation by as
    much, up to order. *)
Lemma mjoin_update_perm (f g : nat → list A) (x : list A) t0 (l : list nat) :
  NoDup l → t0 ∈ l → g t0 = x ++ f t0 → (∀ t, t ≠ t0 → g t = f t) →
  mjoin (g <$> l) ≡ₚ x ++ mjoin (f <$> l).
Proof.
  intros Hnd Hin Hg Hf. induction Hnd as [|t l Hnotin Hnd IH]; csimpl.
  - by apply elem_of_nil in Hin.
  - destruct (decide (t = t0)) as [->|Hne].
    + rewrite Hg, <-(assoc_L (++)).
      assert (g <$> l = f <$> l) as ->; [|done].
      apply list_fmap_ext. intros i t Ht. apply Hf. intros ->.
      apply Hnotin. eauto using list_elem_of_lookup_2.
    + apply elem_of_cons in Hin as [?|Hin]; [congruence|].
      rewrite (Hf t Hne), (IH Hin). by rewrite Permutation_app_swap_app.
Qed.

Lemma mjoin_all_nil {B} (l : list B) : mjoin ((λ _, @nil A) <$> l) = [].
Proof. induction l; simpl; eauto. Qed.

Lemma sum_list_with_ext (f g : A → nat) (l : list A) :
  (∀ i x, l !! i = Some x → f x = g x) →
  sum_list_with f l = sum_list_with g l.
Proof.
  induction l as [|z l IH]; simpl; [done|]. intros H.
  rewrite (H 0 z eq_refl), IH; [done|]. intros i x Hi. by apply (H (S i)).
Qed.

(** Counting with [f] sees only what a filter that [f] implies lets through. *)
Lemma sum_list_with_filter (f : A → nat) (P : A → Prop)
    `{!∀ x, Decision (P x)} (l : list A) :
  (∀ x, ¬ P x → f x = 0) →
  sum_list_with f (filter P l) = sum_list_with f l.
Proof.
  intros Hf. induction l as [|z l IH]; [done|].
  rewrite filter_cons. case_decide; simpl; rewrite IH; [done|].
  by rewrite (Hf z).
Qed.

Lemma sum_list_with_mono (f g : A → nat) (l : list A) :
  (∀ x, f x ≤ g x) → sum_list_with f l ≤ sum_list_with g l.
Proof.
  intros Hfg. induction l as [|x l IH]; [done|]. simpl.
  specialize (Hfg x). lia.
Qed.

Lemma sum_list_with_le_length (f : A → nat) (l : list A) :
  (∀ x, f x ≤ 1) → sum_list_with f l ≤ length l.
Proof.
  intros Hf. induction l as [|x l IH]; [done|]. simpl.
  specialize (Hf x). lia.
Qed.

Lemma length_mjoin_imap_le {B} (f : nat → B → list A) (l : list B) :
  (∀ i x, length (f i x) ≤ 1) → length (mjoin (imap f l)) ≤ length l.
Proof.
  revert f; induction l as [|x l IH]; intros f Hf; csimpl; [done|].
  rewrite length_app. specialize (IH (f ∘ S) (λ i, Hf (S i))).
  specialize (Hf 0 x). lia.
Qed.
End list_facts.

(** ** The semaphore demonstration *)

Module SemaphoreFacts.
Import Semaphore.

Section demo.
Context {R E : Type}.
Variable lookup_whois : nat → string → lookup (R:=R) (E:=E).
Variable K : nat.
Variable ips : list string.
Variable shared : list (string * R).

Implicit Types (s : state (R:=R) (E:=E)) (tr : list (event (R:=R) (E:=E))).
Implicit Types (e : event (R:=R) (E:=E)) (p : pc (R:=R) (E:=E)).
Implicit Types (o : lookup (R:=R) (E:=E)).

Local Abbreviation thread_action := (Semaphore.thread_action lookup_whois).
Local Abbreviation thread_step := (Semaphore.thread_step lookup_whois ips).
Local Abbreviation step := (Semaphore.step lookup_whois ips).
Local Abbreviation init := (Semaphore.init (E:=E) K ips shared).
Local Abbreviation exec := (Semaphore.exec lookup_whois ips).
Local Abbreviation reachable := (Semaphore.reachable lookup_whois K ips shared).
Local Abbreviation main_history := (Semaphore.main_history (R:=R) (E:=E) ips).
Local Abbreviation main_ok := (Semaphore.main_ok (R:=R) (E:=E) ips).
Local Abbreviation invariant := (Semaphore.invariant lookup_whois K ips shared).
Local Abbreviation record_of := (Semaphore.record_of lookup_whois).
Local Abbreviation in_submission_order :=
  (Semaphore.in_submission_order lookup_whois ips).

(** *** Traces grow at the end *)

Lemma own_snoc t tr e :
  own t (tr ++ [e]) = own t tr ++ (if decide (owner e = Some t) then [e] else []).
Proof.
  unfold own. by rewrite list.filter_app.
Qed.

Lemma main_events_snoc tr e :
  main_events (tr ++ [e])
  = main_events tr ++ (if decide (owner e = None) then [e] else []).
Proof.
  unfold main_events. by rewrite list.filter_app.
Qed.

Lemma entries_snoc tr e : entries (tr ++ [e]) = entries tr ++ entry_of e.
Proof. unfold entries. rewrite bind_app. simpl. by rewrite app_nil_r. Qed.

Lemma in_flight_snoc tr e :
  in_flight (tr ++ [e])
  = (in_flight tr + Z.of_nat (acquired e) - Z.of_nat (released e))%Z.
Proof. unfold in_flight. rewrite !sum_list_with_app. simpl. lia. Qed.

(** *** What one action of a thread changes *)

Lemma action_permits t a p sem f :
  thread_action t a p sem = Some f →
  permits f + holding (next f) = sem + holding p.
Proof.
  destruct p as [| | | | | | | | |[]]; simpl; intros; simplify_eq/=; try done;
    try (destruct (lookup_whois t a); simpl; lia).
  destruct sem; simplify_eq/=; lia.
Qed.

Lemma action_in_flight t a p sem f :
  thread_action t a p sem = Some f →
  acquired (emitted f) + holding p = released (emitted f) + holding (next f).
Proof.
  destruct p as [| | | | | | | | |[]]; simpl; intros; simplify_eq/=; try done;
    try (by destruct (lookup_whois t a)).
  destruct sem; by simplify_eq/=.
Qed.

Lemma action_owner t a p sem f :
  thread_action t a p sem = Some f → owner (emitted f) = Some t.
Proof.
  destruct p; simpl; intros; simplify_eq/=; try done.
  destruct sem; by simplify_eq/=.
Qed.

Lemma action_entries t a p sem f :
  thread_action t a p sem = Some f → entry_of (emitted f) = appended f.
Proof.
  destruct p; simpl; intros; simplify_eq/=; try done.
  destruct sem; by simplify_eq/=.
Qed.

Lemma action_history t a p sem f :
  thread_action t a p sem = Some f →
  agrees p (lookup_whois t a) →
  history t a p ++ [emitted f] = history t a (next f)
  ∧ agrees (next f) (lookup_whois t a).
Proof.
  destruct p as [| | | | | | | | |[]]; simpl; intros Hf Ho; simplify_eq/=;
    try done.
  - by destruct (lookup_whois t a).
  - destruct sem; by simplify_eq/=.
Qed.

(** A thread that moves has been started and has not returned, and it
    never goes back to where it was before [start]. *)
Lemma action_running t a p sem f :
  thread_action t a p sem = Some f →
  p ≠ Created ∧ (∀ o, p ≠ Finished o) ∧ next f ≠ Created.
Proof.
  destruct p; simpl; intros; simplify_eq/=; try done.
  - by destruct (lookup_whois t a).
  - destruct sem; by simplify_eq/=.
Qed.

(** *** The invariant holds in every reachable state *)

Lemma holders_init :
  sum_list_with (holding (R:=R) (E:=E)) ((λ _ : string, Created) <$> ips) = 0.
Proof.
  apply sum_list_with_zero. intros i x Hi.
  rewrite list_lookup_fmap in Hi. by destruct (ips !! i); simplify_eq/=.
Qed.

Lemma init_invariant : invariant init.
Proof.
  split; simpl.
  - by rewrite length_fmap.
  - unfold holders; simpl. rewrite holders_init. lia.
  - unfold holders; simpl. by rewrite holders_init.
  - by rewrite app_nil_r.
  - intros t a p Ha Hp. rewrite list_lookup_fmap, Ha in Hp. simplify_eq/=.
    split_and!; [done|done|lia|lia|done].
  - done.
  - done.
  - lia.
Qed.

Lemma thread_step_invariant t s s' :
  invariant s → thread_step t s = Some s' → invariant s'.
Proof.
  intros [Hlen Hperm Hfl Hsh Hthr Hstr Hmain Hbnd]. unfold Semaphore.thread_step.
  destruct (ips !! t) as [a|] eqn:Ha; [|done]; simpl.
  destruct (threads s !! t) as [p|] eqn:Hp; [|done]; simpl.
  destruct (thread_action t a p (semaphore s)) as [f|] eqn:Hf; [|done]; simpl.
  intros ?; simplify_eq.
  destruct (Hthr _ _ _ Ha Hp) as (Hown & Hagr & Hok).
  pose proof (sum_list_with_insert holding _ _ _ (next f) Hp) as Hsum.
  pose proof (action_permits _ _ _ _ _ Hf) as H1.
  pose proof (action_in_flight _ _ _ _ _ Hf) as H2.
  pose proof (action_owner _ _ _ _ _ Hf) as H3.
  pose proof (action_entries _ _ _ _ _ Hf) as H4.
  destruct (action_history _ _ _ _ _ Hf Hagr) as [H5 H6].
  destruct (action_running _ _ _ _ _ Hf) as (H7 & H8 & H9).
  split; simpl.
  - by rewrite length_insert.
  - unfold holders in *; simpl. lia.
  - rewrite in_flight_snoc, Hfl. unfold holders in *; simpl. lia.
  - by rewrite entries_snoc, H4, Hsh, (assoc_L (++)).
  - intros t' a' p' Ha' Hp'. rewrite own_snoc, H3.
    destruct (decide (t = t')) as [->|Hne].
    + rewrite list_lookup_insert_eq in Hp' by eauto using lookup_lt_Some.
      simplify_eq. rewrite decide_True by done.
      rewrite Hown. split_and!; [done|done|].
      destruct (main s); simpl in *.
      * destruct Hok as (? & ? & Hc). split_and!; [done|done|].
        intros Hle. by specialize (Hc Hle).
      * destruct Hok as (? & ? & Hc). split_and!; [done|done|].
        intros Hlt. destruct (Hc Hlt) as [o ->]. by destruct (H8 o).
      * destruct Hok as [o ->]. by destruct (H8 o).
    + rewrite list_lookup_insert_ne in Hp' by done.
      rewrite decide_False by congruence. rewrite app_nil_r. eauto.
  - intros t' Hle. rewrite own_snoc, H3.
    rewrite decide_False; [rewrite app_nil_r; eauto|].
    apply lookup_lt_Some in Ha. intros ?; simplify_eq. lia.
  - rewrite main_events_snoc, H3. rewrite decide_False by done.
    rewrite app_nil_r, Hmain.
    destruct (main s); simpl in *; try done.
    destruct (Hok) as [o ->]. by destruct (H8 o).
  - done.
Qed.

Lemma main_step_invariant s s' :
  invariant s → main_step s = Some s' → invariant s'.
Proof.
  intros [Hlen Hperm Hfl Hsh Hthr Hstr Hmain Hbnd]. unfold main_step.
  destruct (main s) as [i|j|] eqn:Hm; [| |done].
  - destruct (threads s !! i) as [p|] eqn:Hp; intros ?; simplify_eq.
    + (* [threads[i].start()] *)
      assert (i < length ips) as Hi
        by (rewrite <-Hlen; eauto using lookup_lt_Some).
      destruct (lookup_lt_is_Some_2 ips i Hi) as [a Ha].
      destruct (Hthr _ _ _ Ha Hp) as (Hown & _ & Hok).
      assert (p = Created) as -> by (apply Hok; lia).
      pose proof (sum_list_with_insert holding _ _ _ AtLookup Hp) as Hsum.
      split; cbn [main threads semaphore valid_ips trace].
      * by rewrite length_insert.
      * unfold holders in *; simpl in *. lia.
      * rewrite in_flight_snoc, Hfl. unfold holders in *; simpl in *. lia.
      * by rewrite entries_snoc, app_nil_r.
      * intros t' a' p' Ha' Hp'. rewrite own_snoc, decide_False by done.
        rewrite app_nil_r.
        destruct (decide (i = t')) as [->|Hne].
        -- rewrite list_lookup_insert_eq in Hp' by eauto using lookup_lt_Some.
           simplify_eq. rewrite Hown. simpl. split_and!; try done; lia.
        -- rewrite list_lookup_insert_ne in Hp' by done.
           destruct (Hthr _ _ _ Ha' Hp') as (? & ? & Hok').
           destruct Hok' as (? & Hlt & Hge). simpl.
           split_and!; try done; intros ?; [apply Hlt|apply Hge]; lia.
      * intros t' Hle. rewrite own_snoc, decide_False by done.
        rewrite app_nil_r. eauto.
      * rewrite main_events_snoc, decide_True by done.
        rewrite Hmain. unfold Semaphore.main_history. by rewrite seq_S, fmap_app.
      * lia.
    + (* the loop of lines 76-77 is over *)
      assert (i = length ips) as ->
        by (apply lookup_ge_None in Hp; lia).
      split; cbn [main threads semaphore valid_ips trace]; try done; [| |lia].
      * intros t a p Ha Hp'. destruct (Hthr _ _ _ Ha Hp') as (? & ? & Hok).
        destruct Hok as (? & Hlt & _). simpl.
        split_and!; try done; [lia| |lia].
        apply Hlt. eauto using lookup_lt_Some.
      * rewrite Hmain. simpl. by rewrite app_nil_r.
  - destruct (threads s !! j) as [p|] eqn:Hp.
    + (* [threads[j].join()] returns once the thread has *)
      destruct p as [| | | | | | | | |o]; intros ?; simplify_eq.
      assert (j < length ips) as Hj
        by (rewrite <-Hlen; eauto using lookup_lt_Some).
      split; cbn [main threads semaphore valid_ips trace]; try done.
      * rewrite in_flight_snoc, Hfl. unfold holders; simpl. lia.
      * by rewrite entries_snoc, app_nil_r.
      * intros t a p Ha Hp'. rewrite own_snoc, decide_False by done.
        rewrite app_nil_r.
        destruct (Hthr _ _ _ Ha Hp') as (? & ? & Hok).
        destruct Hok as (? & ? & Hlt). simpl.
        split_and!; try done. intros Ht.
        destruct (decide (t = j)) as [->|]; [simplify_eq; eauto|].
        apply Hlt. lia.
      * intros t' Hle. rewrite own_snoc, decide_False by done.
        rewrite app_nil_r. eauto.
      * rewrite main_events_snoc, decide_True by done.
        rewrite Hmain. unfold Semaphore.main_history. by rewrite seq_S, fmap_app, (assoc_L (++)).
    + (* line 80 *)
      intros ?; simplify_eq.
      assert (j = length ips) as ->
        by (apply lookup_ge_None in Hp; lia).
      split; cbn [main threads semaphore valid_ips trace]; try done.
      * rewrite in_flight_snoc, Hfl. unfold holders; simpl. lia.
      * by rewrite entries_snoc, app_nil_r.
      * intros t a p Ha Hp'. rewrite own_snoc, decide_False by done.
        rewrite app_nil_r.
        destruct (Hthr _ _ _ Ha Hp') as (? & ? & Hok).
        destruct Hok as (? & ? & Hlt). simpl.
        split_and!; try done. apply Hlt. eauto using lookup_lt_Some.
      * intros t' Hle. rewrite own_snoc, decide_False by done.
        rewrite app_nil_r. eauto.
      * rewrite main_events_snoc, decide_True by done.
        rewrite Hmain. simpl. by rewrite <-!(assoc_L (++)).
Qed.

Lemma reachable_invariant s : reachable s → invariant s.
Proof.
  induction 1 as [|[|t] s s' _ IH Hstep]; simpl in *;
    eauto using init_invariant, main_step_invariant, thread_step_invariant.
Qed.

(** *** Every run is finite and ends with the return of line 80 *)

Lemma action_rank t a p sem f :
  thread_action t a p sem = Some f → rank (next f) < rank p.
Proof.
  destruct p; simpl; intros; simplify_eq/=; try lia.
  - destruct (lookup_whois t a); simpl; lia.
  - destruct sem; simplify_eq/=; lia.
Qed.

Lemma step_measure a s s' : step a s = Some s' → measure s' < measure s.
Proof.
  destruct a as [|t]; simpl.
  - unfold main_step, measure. destruct (main s) as [i|j|]; [| |done].
    + destruct (threads s !! i) as [p|] eqn:Hp; intros ?; simplify_eq/=.
      * pose proof (sum_list_with_insert rank _ _ _ AtLookup Hp) as Hsum.
        apply lookup_lt_Some in Hp. rewrite length_insert.
        simpl in Hsum. destruct p; simpl in *; lia.
      * lia.
    + destruct (threads s !! j) as [[| | | | | | | | |o]|] eqn:Hp;
        intros ?; simplify_eq/=; [|lia].
      apply lookup_lt_Some in Hp. lia.
  - unfold Semaphore.thread_step, measure.
    destruct (ips !! t) as [a|]; [|done]; simpl.
    destruct (threads s !! t) as [p|] eqn:Hp; [|done]; simpl.
    destruct (thread_action t a p (semaphore s)) as [f|] eqn:Hf; [|done].
    intros ?; simplify_eq/=. rewrite length_insert.
    pose proof (sum_list_with_insert rank _ _ _ (next f) Hp).
    pose proof (action_rank _ _ _ _ _ Hf). lia.
Qed.

(** No schedule runs for more steps than the measure of its first state. *)
Lemma exec_bounded sched s s' :
  exec sched s = Some s' → length sched + measure s' ≤ measure s.
Proof.
  revert s; induction sched as [|a sched IH]; intros s Hex; simplify_eq/=.
  - lia.
  - destruct (step a s) as [s1|] eqn:Hs; [|done]. simpl in Hex.
    apply step_measure in Hs. apply IH in Hex. lia.
Qed.

Lemma exec_app sched1 sched2 s :
  exec (sched1 ++ sched2) s = s' ← exec sched1 s; exec sched2 s'.
Proof.
  revert s; induction sched1 as [|a sched1 IH]; intros s; simpl; [done|].
  destruct (step a s); simpl; eauto.
Qed.

Lemma exec_reachable sched s s' :
  reachable s → exec sched s = Some s' → reachable s'.
Proof.
  revert s; induction sched as [|a sched IH]; intros s Hs Hex; simplify_eq/=.
  - done.
  - destruct (step a s) as [s1|] eqn:Hstep; [|done].
    eauto using reach_step.
Qed.

(** With at least one permit, some actor can move until [main] returns. *)
Lemma progress s :
  1 ≤ K → invariant s → main s ≠ Returned → ∃ a s', step a s = Some s'.
Proof.
  intros HK [Hlen Hperm _ _ Hthr _ _ _] Hm.
  destruct (main s) as [i|j|] eqn:Hmain; [| |done].
  - exists Main. simpl. unfold main_step. rewrite Hmain.
    destruct (threads s !! i); eauto.
  - destruct (threads s !! j) as [p|] eqn:Hp; cycle 1.
    { exists Main. simpl. unfold main_step. rewrite Hmain, Hp. eauto. }
    assert (∀ t q, threads s !! t = Some q → holding q = 1 →
                   ∃ s', step (Thread t) s = Some s') as Hholder.
    { intros t q Hq Hh. simpl. unfold Semaphore.thread_step.
      destruct (lookup_lt_is_Some_2 ips t) as [a ->];
        [rewrite <-Hlen; eauto using lookup_lt_Some|].
      rewrite Hq. simpl. destruct q; simplify_eq/=; eauto. }
    assert (∀ r, semaphore s = 0 → p = AtWith r →
                 ∃ a s', step a s = Some s') as Hblocked.
    { intros r Hsem ->.
      destruct (sum_list_with_pos holding (threads s)) as (t & q & Hq & Hh);
        [unfold holders in *; lia|].
      destruct (Hholder t q Hq) as [s' Hs'];
        [destruct q; simpl in *; lia|eauto]. }
    destruct (lookup_lt_is_Some_2 ips j) as [a Ha];
      [rewrite <-Hlen; eauto using lookup_lt_Some|].
    destruct (Hthr _ _ _ Ha Hp) as (_ & _ & _ & Hc & _).
    destruct p as [| |r|r|r|r|r|r|e|o]; try done;
      try (exists (Thread j); simpl; unfold Semaphore.thread_step; rewrite Ha, Hp;
           simpl; eauto; fail).
    + destruct (semaphore s) as [|n] eqn:Hsem; [eauto|].
      exists (Thread j); simpl; unfold Semaphore.thread_step; rewrite Ha, Hp; simpl.
      rewrite Hsem. simpl. eauto.
    + exists Main. simpl. unfold main_step. rewrite Hmain, Hp. eauto.
Qed.

Lemma can_return_from s :
  1 ≤ K → reachable s →
  ∃ sched s', exec sched s = Some s' ∧ main s' = Returned.
Proof.
  intros HK. remember (measure s) as n eqn:Hn.
  revert s Hn. induction n as [n IH] using lt_wf_ind. intros s -> Hs.
  assert (main s = Returned ∨ main s ≠ Returned) as [|Hm]
    by (destruct (main s); eauto).
  { by exists [], s. }
  destruct (progress s HK (reachable_invariant _ Hs) Hm) as (a & s1 & Hstep).
  destruct (IH _ (step_measure _ _ _ Hstep) s1 eq_refl) as (sched & s' & Hex & Hret);
    [eauto using reach_step|].
  exists (a :: sched), s'. simpl. by rewrite Hstep.
Qed.

(** *** What is in the shared list *)

Lemma entries_partition tr :
  (∀ t, length ips ≤ t → own t tr = []) →
  entries tr ≡ₚ mjoin ((λ t, entries (own t tr)) <$> seq 0 (length ips)).
Proof.
  induction tr as [|e tr IH]; intros Hstr.
  - simpl. by rewrite mjoin_all_nil.
  - assert (∀ t, length ips ≤ t → own t tr = []) as Hstr'.
    { intros t Ht. specialize (Hstr t Ht). unfold own in *.
      rewrite filter_cons in Hstr. by case_decide. }
    specialize (IH Hstr'). change (entries (e :: tr)) with (entry_of e ++ entries tr).
    destruct (owner e) as [t0|] eqn:Ho.
    + assert (t0 < length ips) as Ht0.
      { destruct (decide (t0 < length ips)) as [|Hge]; [done|].
        specialize (Hstr t0 ltac:(lia)). unfold own in Hstr.
        rewrite filter_cons, decide_True in Hstr by done. done. }
      rewrite IH. symmetry. apply (mjoin_update_perm _ _ _ t0).
      * apply NoDup_seq.
      * apply elem_of_seq. lia.
      * unfold own. by rewrite filter_cons, decide_True by done.
      * intros t Hne. unfold own.
        rewrite filter_cons, decide_False; [done|]. congruence.
    + assert (entry_of e = []) as -> by (by destruct e).
      rewrite IH. simpl.
      assert ((λ t, entries (own t tr)) <$> seq 0 (length ips)
              = (λ t, entries (own t (e :: tr))) <$> seq 0 (length ips))
        as ->; [|done].
      apply list_fmap_ext. intros i t _.
      unfold own. rewrite filter_cons, decide_False; [done|]. congruence.
Qed.

Lemma entries_history t a :
  entries (history t a (Finished (lookup_whois t a))) = record_of t a.
Proof. unfold Semaphore.record_of. by destruct (lookup_whois t a). Qed.

(** Once [main] has returned, every thread has, and has done exactly what
    its lookup made it do. *)
Lemma returned_thread s t a :
  reachable s → main s = Returned → ips !! t = Some a →
  threads s !! t = Some (Finished (lookup_whois t a))
  ∧ own t (trace s) = history t a (Finished (lookup_whois t a)).
Proof.
  intros Hs Hm Ha. destruct (reachable_invariant _ Hs) as [Hlen _ _ _ Hthr _ _ _].
  destruct (lookup_lt_is_Some_2 (threads s) t) as [p Hp];
    [rewrite Hlen; eauto using lookup_lt_Some|].
  destruct (Hthr _ _ _ Ha Hp) as (Hown & Hagr & Hok).
  rewrite Hm in Hok. destruct Hok as [o ->]. simpl in Hagr. by subst o.
Qed.

Lemma returned_entries s :
  reachable s → main s = Returned → entries (trace s) ≡ₚ in_submission_order.
Proof.
  intros Hs Hm. pose proof (reachable_invariant _ Hs) as Hinv.
  rewrite (entries_partition _ (inv_stranger _ _ _ _ _ Hinv)).
  unfold Semaphore.in_submission_order.
  assert ((λ t, entries (own t (trace s))) <$> seq 0 (length ips)
          = imap record_of ips) as ->; [|done].
  apply list_eq. intros t. rewrite list_lookup_fmap, list_lookup_imap.
  destruct (ips !! t) as [a|] eqn:Ha; simpl.
  - rewrite lookup_seq_lt by eauto using lookup_lt_Some. simpl.
    destruct (returned_thread s t a Hs Hm Ha) as [_ ->].
    by rewrite entries_history.
  - by rewrite lookup_seq_ge by (by apply lookup_ge_None).
Qed.

(** *** Bounds, guards and counts *)

Lemma in_flight_bounds s :
  reachable s → (0 ≤ in_flight (trace s) ≤ Z.of_nat K)%Z.
Proof.
  intros Hs. destruct (reachable_invariant _ Hs) as [_ Hperm Hfl _ _ _ _ _].
  rewrite Hfl. lia.
Qed.

(** A step leaves the shared list alone, unless it is line 44 of a thread
    that is inside the [with] block; then it adds that thread's entry. *)
Lemma append_guarded a s s' :
  step a s = Some s' →
  valid_ips s' = valid_ips s
  ∨ ∃ t a' r, a = Thread t ∧ ips !! t = Some a'
      ∧ threads s !! t = Some (AtAppend r) ∧ holding (AtAppend (E:=E) r) = 1
      ∧ valid_ips s' = valid_ips s ++ [(a', r)].
Proof.
  destruct a as [|t]; simpl.
  - unfold main_step. destruct (main s) as [i|j|]; [| |done].
    + destruct (threads s !! i); intros ?; simplify_eq/=; eauto.
    + destruct (threads s !! j) as [[| | | | | | | | |o]|];
        intros ?; simplify_eq/=; eauto.
  - unfold Semaphore.thread_step.
    destruct (ips !! t) as [a|] eqn:Ha; [|done]; simpl.
    destruct (threads s !! t) as [p|] eqn:Hp; [|done]; simpl.
    destruct (thread_action t a p (semaphore s)) as [f|] eqn:Hf; [|done].
    intros ?; simplify_eq/=.
    destruct p; simplify_eq/=; rewrite ?app_nil_r; eauto 10.
    destruct (semaphore s); simplify_eq/=. rewrite app_nil_r. eauto.
Qed.

Lemma action_appended t a p sem f :
  thread_action t a p sem = Some f →
  length (appended f) + has_appended p = has_appended (next f).
Proof.
  destruct p as [| | | | | | | | |[]]; simpl; intros; simplify_eq/=; try done.
  - by destruct (lookup_whois t a).
  - destruct sem; by simplify_eq/=.
Qed.

Lemma reachable_appended s :
  reachable s →
  length (valid_ips s) = length shared + sum_list_with has_appended (threads s).
Proof.
  induction 1 as [|a s s' Hs IH Hstep].
  - simpl. rewrite sum_list_with_zero; [lia|]. intros i x Hi.
    rewrite list_lookup_fmap in Hi. by destruct (ips !! i); simplify_eq/=.
  - destruct (reachable_invariant _ Hs) as [Hlen _ _ _ Hthr _ _ _].
    destruct a as [|t]; simpl in Hstep.
    + unfold main_step in Hstep. destruct (main s) as [i|j|] eqn:Hm; [| |done].
      * destruct (threads s !! i) as [p|] eqn:Hp; simplify_eq/=; [|done].
        destruct (lookup_lt_is_Some_2 ips i) as [a Ha];
          [rewrite <-Hlen; eauto using lookup_lt_Some|].
        destruct (Hthr _ _ _ Ha Hp) as (_ & _ & _ & _ & Hc).
        rewrite (Hc ltac:(lia)) in Hp.
        pose proof (sum_list_with_insert has_appended _ _ _ AtLookup Hp).
        simpl in *. lia.
      * destruct (threads s !! j) as [[| | | | | | | | |o]|];
          by simplify_eq/=.
    + unfold Semaphore.thread_step in Hstep.
      destruct (ips !! t) as [a|] eqn:Ha; [|done]; simpl in Hstep.
      destruct (threads s !! t) as [p|] eqn:Hp; [|done]; simpl in Hstep.
      destruct (thread_action t a p (semaphore s)) as [f|] eqn:Hf; [|done].
      simplify_eq/=. rewrite length_app.
      pose proof (sum_list_with_insert has_appended _ _ _ (next f) Hp).
      pose proof (action_appended _ _ _ _ _ Hf). lia.
Qed.

Lemma returned_length s :
  reachable s → main s = Returned →
  length (valid_ips s) = length shared + succeeded s.
Proof.
  intros Hs Hm. rewrite (reachable_appended s Hs). f_equal.
  destruct (reachable_invariant _ Hs) as [Hlen _ _ _ Hthr _ _ _].
  apply sum_list_with_ext. intros t p Hp.
  destruct (lookup_lt_is_Some_2 ips t) as [a Ha];
    [rewrite <-Hlen; eauto using lookup_lt_Some|].
  destruct (Hthr _ _ _ Ha Hp) as (_ & _ & Hok). rewrite Hm in Hok.
  by destruct Hok as [o ->].
Qed.

(** The events of an item whose lookup finds a record come in program
    order. *)
Lemma own_prefix s t a r :
  reachable s → ips !! t = Some a → lookup_whois t a = Found r →
  own t (trace s) `prefix_of` success_events t a r.
Proof.
  intros Hs Ha Ho. destruct (reachable_invariant _ Hs) as [Hlen _ _ _ Hthr _ _ _].
  destruct (lookup_lt_is_Some_2 (threads s) t) as [p Hp];
    [rewrite Hlen; eauto using lookup_lt_Some|].
  destruct (Hthr _ _ _ Ha Hp) as (-> & Hagr & _). rewrite Ho in Hagr.
  destruct p as [| | | | | | | | |o]; simpl in Hagr; simplify_eq;
    try apply prefix_take; try apply prefix_nil; done.
Qed.

(** An item whose lookup returns [None] does nothing but the lookup, and
    never stands inside the [with] block. *)
Lemma no_record_silent s t a :
  reachable s → ips !! t = Some a → lookup_whois t a = NoRecord →
  own t (trace s) `prefix_of` [Lookup t a]
  ∧ ∀ p, threads s !! t = Some p → holding p = 0 ∧ has_appended p = 0.
Proof.
  intros Hs Ha Ho. destruct (reachable_invariant _ Hs) as [Hlen _ _ _ Hthr _ _ _].
  destruct (lookup_lt_is_Some_2 (threads s) t) as [p Hp];
    [rewrite Hlen; eauto using lookup_lt_Some|].
  destruct (Hthr _ _ _ Ha Hp) as (-> & Hagr & _). rewrite Ho in Hagr.
  split.
  - destruct p as [| | | | | | | | |o]; simpl in Hagr; simplify_eq;
      try apply prefix_nil; done.
  - intros p' Hp'. rewrite Hp in Hp'. injection Hp' as <-.
    destruct p as [| | | | | | | | |o]; simpl in Hagr; by simplify_eq.
Qed.

(** *** Order of starts, and how often things happen *)

Lemma starts_cons e tr :
  starts (e :: tr)
  = match e with Start t => [t] | _ => [] end ++ starts tr.
Proof. by destruct e. Qed.

Lemma starts_main_events tr : starts (main_events tr) = starts tr.
Proof.
  induction tr as [|e tr IH]; [done|]. unfold main_events.
  rewrite filter_cons. fold (main_events tr).
  case_decide as Ho; rewrite !starts_cons, IH; [done|]. by destruct e.
Qed.

Lemma starts_Start l : starts (R:=R) (E:=E) (Start <$> l) = l.
Proof. induction l; simpl; unfold starts in *; simpl; by f_equal. Qed.

Lemma starts_Join l : starts (R:=R) (E:=E) (Join <$> l) = [].
Proof. induction l; simpl; unfold starts in *; simpl; by f_equal. Qed.

Lemma starts_app tr1 tr2 : starts (tr1 ++ tr2) = starts tr1 ++ starts tr2.
Proof. apply omap_app. Qed.

(** [start] is called on the threads in submission order. *)
Lemma started_in_order s :
  reachable s →
  ∃ i, i ≤ length ips ∧ starts (trace s) = seq 0 i
       ∧ (∀ j, main s = Joining j ∨ main s = Returned → i = length ips).
Proof.
  intros Hs. destruct (reachable_invariant _ Hs) as [_ _ _ _ _ _ Hmain Hbnd].
  rewrite <-starts_main_events, Hmain.
  destruct (main s) as [i|j|]; unfold Semaphore.main_history;
    rewrite ?starts_app, ?starts_Start, ?starts_Join, ?app_nil_r.
  - exists i. split_and!; [done|done|]. intros j [?|?]; done.
  - by exists (length ips).
  - by exists (length ips).
Qed.

Lemma times_app f tr1 tr2 : times f (tr1 ++ tr2) = times f tr1 + times f tr2.
Proof. unfold times. by rewrite sum_list_with_app. Qed.

Lemma times_own t f tr :
  (∀ e, owner e ≠ Some t → f e = false) → times f (own t tr) = times f tr.
Proof.
  intros Hf. unfold times, own. apply sum_list_with_filter.
  intros e He. by rewrite Hf.
Qed.

Lemma times_main_events f tr :
  (∀ e, owner e ≠ None → f e = false) → times f (main_events tr) = times f tr.
Proof.
  intros Hf. unfold times, main_events. apply sum_list_with_filter.
  intros e He. by rewrite Hf.
Qed.

Lemma times_Start t i n :
  times (R:=R) (E:=E) (is_start t) (Start <$> seq i n)
  = if decide (i ≤ t < i + n) then 1 else 0.
Proof.
  revert i; induction n as [|n IH]; intros i; simpl.
  - case_decide; [lia|done].
  - unfold times in *. simpl. rewrite IH.
    case_bool_decide; repeat case_decide; lia.
Qed.

Lemma times_Join t l :
  times (R:=R) (E:=E) (is_start t) (Join <$> l) = 0.
Proof. induction l; simpl; unfold times in *; simpl; eauto. Qed.

Lemma is_call_owner t e : owner e ≠ Some t → is_call t e = false.
Proof.
  destruct e; simpl; try done. intros Hne.
  apply bool_decide_eq_false_2. congruence.
Qed.

Lemma is_report_owner t e : owner e ≠ Some t → is_report t e = false.
Proof.
  destruct e; simpl; try done; intros Hne;
    apply bool_decide_eq_false_2; congruence.
Qed.

Lemma is_start_owner t e : owner e ≠ None → is_start t e = false.
Proof. by destruct e. Qed.

(** Calls and reports of item [t], by where its thread stands. *)
Lemma times_history t a p :
  times (is_call t) (history t a p)
  = match p with Created | AtLookup => 0 | _ => 1 end
  ∧ times (is_report t) (history t a p)
  = match p with Finished (Found _) | Finished (Raised _) => 1 | _ => 0 end.
Proof.
  unfold times.
  destruct p as [| | | | | | | | |[]]; simpl;
    rewrite ?bool_decide_eq_true_2 by done; done.
Qed.

(** No item is called or reports more than once, at any time. *)
Lemma at_most_once s t :
  reachable s →
  times (is_call t) (trace s) ≤ 1 ∧ times (is_report t) (trace s) ≤ 1.
Proof.
  intros Hs. destruct (reachable_invariant _ Hs) as [Hlen _ _ _ Hthr Hstr _ _].
  rewrite <-(times_own t (is_call t)), <-(times_own t (is_report t))
    by eauto using is_call_owner, is_report_owner.
  destruct (ips !! t) as [a|] eqn:Ha.
  - destruct (lookup_lt_is_Some_2 (threads s) t) as [p Hp];
      [rewrite Hlen; eauto using lookup_lt_Some|].
    destruct (Hthr _ _ _ Ha Hp) as (-> & _ & _).
    destruct (times_history t a p) as [-> ->].
    destruct p as [| | | | | | | | |[]]; lia.
  - rewrite Hstr by (by apply lookup_ge_None). unfold times; simpl. lia.
Qed.

(** By the time [main] returns, item [t] has been started once, called
    once, and has reported once unless its lookup returned [None]. *)
Lemma returned_counts s t a :
  reachable s → main s = Returned → ips !! t = Some a →
  times (is_start t) (trace s) = 1
  ∧ times (is_call t) (trace s) = 1
  ∧ times (is_report t) (trace s)
    = match lookup_whois t a with NoRecord => 0 | _ => 1 end.
Proof.
  intros Hs Hm Ha. destruct (returned_thread s t a Hs Hm Ha) as [Hp Hown].
  destruct (reachable_invariant _ Hs) as [_ _ _ _ _ _ Hmain _].
  rewrite <-(times_main_events (is_start t)) by eauto using is_start_owner.
  rewrite <-(times_own t (is_call t)), <-(times_own t (is_report t))
    by eauto using is_call_owner, is_report_owner.
  rewrite Hown, Hmain, Hm. unfold Semaphore.main_history.
  destruct (times_history t a (Finished (lookup_whois t a))) as [-> ->].
  rewrite !times_app, times_Start, times_Join.
  apply lookup_lt_Some in Ha. rewrite decide_True by lia.
  split_and!; [done|done|by destruct (lookup_whois t a)].
Qed.

Lemma length_in_submission_order : length in_submission_order ≤ length ips.
Proof.
  apply length_mjoin_imap_le. intros t a. unfold Semaphore.record_of.
  destruct (lookup_whois t a); simpl; lia.
Qed.

End demo.
End SemaphoreFacts.

(** ** The process pool *)

Module WorkerPoolFacts.
Import WorkerPool.

Section pool.
Context {A B : Type}.
Variable func : A → B.
Variable K : nat.
Variable items : list A.

Implicit Types (s : state (A:=A) (B:=B)) (tr : list (event (A:=A) (B:=B))).
Implicit Types (e : event (A:=A) (B:=B)) (p : worker (A:=A) (B:=B)).

Local Abbreviation chunks := (WorkerPool.chunks K items).
Local Abbreviation worker_step := (WorkerPool.worker_step func).
Local Abbreviation step := (WorkerPool.step func).
Local Abbreviation init := (WorkerPool.init (B:=B) K items).
Local Abbreviation exec := (WorkerPool.exec func).
Local Abbreviation reachable := (WorkerPool.reachable func K items).
Local Abbreviation worker_ok := (WorkerPool.worker_ok func K items).
Local Abbreviation invariant := (WorkerPool.invariant func K items).

(** *** The invariant holds in every reachable state *)

Lemma pool_in_flight_snoc tr e :
  in_flight (tr ++ [e])
  = (in_flight tr + Z.of_nat (entered e) - Z.of_nat (exited e))%Z.
Proof. unfold in_flight. rewrite !sum_list_with_app. simpl. lia. Qed.

Lemma takes_snoc tr e :
  takes (tr ++ [e])
  = takes tr ++ match e with Take _ c => [c] | _ => [] end.
Proof. unfold takes. rewrite omap_app. by destruct e. Qed.

Lemma fst_imap_pair {X} (l : list X) : fst <$> imap pair l = seq 0 (length l).
Proof.
  rewrite fmap_imap. rewrite <-(list_fmap_id (seq 0 (length l))).
  by rewrite <-imap_seq_0.
Qed.

Lemma pool_init_invariant : invariant init.
Proof.
  split; simpl.
  - by rewrite length_replicate.
  - rewrite sum_list_with_zero; [done|]. intros i x Hi.
    by apply lookup_replicate_1 in Hi as [-> _].
  - by rewrite fst_imap_pair.
  - intros i c xs Hi. rewrite list_lookup_imap in Hi.
    destruct (chunks !! i) eqn:?; by simplify_eq/=.
  - intros w p Hp. by apply lookup_replicate_1 in Hp as [-> _].
  - by rewrite length_fmap.
  - intros c ys Hc. rewrite list_lookup_fmap in Hc.
    destruct (chunks !! c); by simplify_eq/=.
  - intros c Hc. left. rewrite fst_imap_pair. apply elem_of_seq. lia.
Qed.

Lemma worker_step_invariant w s s' :
  invariant s → worker_step w s = Some s' → invariant s'.
Proof.
  intros [Hlen Hfl Htk Hq Hheld Hvl Hv Hwh]. unfold WorkerPool.worker_step.
  destruct (workers s !! w) as [p|] eqn:Hp; [|done]; simpl.
  pose proof (Hheld _ _ Hp) as Hok.
  assert (w < length (workers s)) as Hw by eauto using lookup_lt_Some.
  destruct p as [|c acc [|x todo]|c acc x todo].
  - (* an idle worker takes the chunk at the head of the queue *)
    destruct (inqueue s) as [|[c xs] q] eqn:Hin; [done|].
    intros ?; simplify_eq.
    pose proof (sum_list_with_insert running _ _ _ (Holding c [] xs) Hp).
    split; cbn [inqueue workers value result trace].
    + by rewrite length_insert.
    + rewrite pool_in_flight_snoc, Hfl. simpl in *. lia.
    + rewrite takes_snoc, <-Htk. by rewrite <-(assoc_L (++)).
    + intros i c' xs' Hi. by apply (Hq (S i)).
    + intros w' p' Hp'. destruct (decide (w = w')) as [<-|Hne].
      * rewrite list_lookup_insert_eq in Hp' by done. simplify_eq. simpl.
        exists []. split; [|done]. by apply (Hq 0).
      * rewrite list_lookup_insert_ne in Hp' by done. eauto.
    + done.
    + done.
    + intros c' Hc'. destruct (Hwh c' Hc') as [Hin'|[(w' & p' & Hp' & Hh)|?]].
      * rewrite fmap_cons in Hin'. apply elem_of_cons in Hin' as [->|?];
          [|by left].
        right; left. exists w, (Holding c [] xs).
        by rewrite list_lookup_insert_eq by done.
      * right; left. exists w', p'. split; [|done].
        destruct (decide (w = w')) as [<-|Hne]; [by simplify_eq|].
        by rewrite list_lookup_insert_ne by done.
      * by right; right.
  - (* the chunk is worked off: its results go back *)
    intros ?; simplify_eq. destruct Hok as (pre & Hc & ->).
    rewrite app_nil_r in Hc.
    assert (c < length (value s)) as Hcv
      by (rewrite Hvl; eauto using lookup_lt_Some).
    pose proof (sum_list_with_insert running _ _ _ Idle Hp).
    split; cbn [inqueue workers value result trace].
    + by rewrite length_insert.
    + rewrite pool_in_flight_snoc, Hfl. simpl in *. lia.
    + by rewrite takes_snoc, app_nil_r.
    + done.
    + intros w' p' Hp'. destruct (decide (w = w')) as [<-|Hne].
      * rewrite list_lookup_insert_eq in Hp' by done. by simplify_eq.
      * rewrite list_lookup_insert_ne in Hp' by done. eauto.
    + by rewrite length_insert.
    + intros c' ys Hc'. destruct (decide (c = c')) as [<-|Hne].
      * rewrite list_lookup_insert_eq in Hc' by done. simplify_eq. eauto.
      * rewrite list_lookup_insert_ne in Hc' by done. eauto.
    + intros c' Hc'.
      destruct (decide (c = c')) as [<-|Hne].
      { right; right. exists (func <$> pre).
        by rewrite list_lookup_insert_eq by done. }
      destruct (Hwh c' Hc') as [?|[(w' & p' & Hp' & Hh)|[ys Hys]]].
      * by left.
      * right; left. exists w', p'. split; [|done].
        destruct (decide (w = w')) as [<-|Hne']; [by simplify_eq/=|].
        by rewrite list_lookup_insert_ne by done.
      * right; right. exists ys. by rewrite list_lookup_insert_ne by done.
  - (* the mapped function is entered on the next item of the chunk *)
    intros ?; simplify_eq. destruct Hok as (pre & Hc & ->).
    pose proof (sum_list_with_insert running _ _ _
                  (Running c (func <$> pre) x todo) Hp).
    split; cbn [inqueue workers value result trace]; try done.
    + by rewrite length_insert.
    + rewrite pool_in_flight_snoc, Hfl. simpl in *. lia.
    + by rewrite takes_snoc, app_nil_r.
    + intros w' p' Hp'. destruct (decide (w = w')) as [<-|Hne].
      * rewrite list_lookup_insert_eq in Hp' by done. simplify_eq. simpl. eauto.
      * rewrite list_lookup_insert_ne in Hp' by done. eauto.
    + intros c' Hc'.
      destruct (Hwh c' Hc') as [?|[(w' & p' & Hp' & Hh)|?]];
        [by left| |by right; right].
      right; left. destruct (decide (w = w')) as [<-|Hne'].
      * simplify_eq/=. exists w, (Running c' (func <$> pre) x todo).
        by rewrite list_lookup_insert_eq by done.
      * exists w', p'. by rewrite list_lookup_insert_ne by done.
  - (* the mapped function returns *)
    intros ?; simplify_eq. destruct Hok as (pre & Hc & ->).
    pose proof (sum_list_with_insert running _ _ _
                  (Holding c ((func <$> pre) ++ [func x]) todo) Hp).
    split; cbn [inqueue workers value result trace]; try done.
    + by rewrite length_insert.
    + rewrite pool_in_flight_snoc, Hfl. simpl in *. lia.
    + by rewrite takes_snoc, app_nil_r.
    + intros w' p' Hp'. destruct (decide (w = w')) as [<-|Hne].
      * rewrite list_lookup_insert_eq in Hp' by done. simplify_eq. simpl.
        exists (pre ++ [x]). by rewrite <-(assoc_L (++)), fmap_app.
      * rewrite list_lookup_insert_ne in Hp' by done. eauto.
    + intros c' Hc'.
      destruct (Hwh c' Hc') as [?|[(w' & p' & Hp' & Hh)|?]];
        [by left| |by right; right].
      right; left. destruct (decide (w = w')) as [<-|Hne'].
      * simplify_eq/=.
        exists w, (Holding c' ((func <$> pre) ++ [func x]) todo).
        by rewrite list_lookup_insert_eq by done.
      * exists w', p'. by rewrite list_lookup_insert_ne by done.
Qed.

Lemma map_step_invariant s s' :
  invariant s → main_step s = Some s' → invariant s'.
Proof.
  intros [Hlen Hfl Htk Hq Hheld Hvl Hv Hwh]. unfold main_step.
  destruct (result s); [done|].
  destruct (collect (value s)) as [v|]; [|done]. intros ?; simplify_eq/=.
  split; cbn [inqueue workers value result trace]; try done.
  - rewrite pool_in_flight_snoc, Hfl. simpl. lia.
  - by rewrite takes_snoc, app_nil_r.
Qed.

Lemma pool_reachable_invariant s : reachable s → invariant s.
Proof.
  induction 1 as [|[|w] s s' _ IH Hstep]; simpl in *;
    eauto using pool_init_invariant, map_step_invariant, worker_step_invariant.
Qed.

(** *** What [map] returns *)

Lemma get_tasks_join fuel size (it : list A) :
  1 ≤ size → length it ≤ fuel → mjoin (get_tasks fuel size it) = it.
Proof.
  intros Hsize. revert it. induction fuel as [|fuel IH]; intros it Hfuel.
  - destruct it; simpl in *; [done|lia].
  - simpl. destruct (take size it) as [|x xs] eqn:Htake.
    + destruct it, size; simpl in *; try done; lia.
    + simpl. rewrite IH.
      * change (x :: xs ++ drop size it) with ((x :: xs) ++ drop size it).
        by rewrite <-Htake, take_drop.
      * rewrite length_drop. destruct it; simpl in *; [|lia].
        by rewrite take_nil in Htake.
Qed.

Lemma chunksize_pos n k : n ≠ 0 → 1 ≤ chunksize n k.
Proof.
  intros Hn. unfold chunksize. rewrite decide_False by done.
  case_decide as Hextra; [|lia].
  destruct (k * 4) as [|m] eqn:Hm; [simpl in Hextra; lia|].
  pose proof (Nat.div_mod_eq n (S m)). destruct (n / S m); lia.
Qed.

Lemma chunks_join : mjoin chunks = items.
Proof.
  unfold WorkerPool.chunks. destruct (decide (length items = 0)) as [Hz|Hnz].
  - rewrite Hz. by destruct items.
  - apply get_tasks_join; [by apply chunksize_pos|done].
Qed.

Lemma join_fmap_fmap (l : list (list A)) :
  mjoin (fmap func <$> l) = func <$> mjoin l.
Proof. induction l as [|x l IH]; csimpl; [done|]. by rewrite fmap_app, IH. Qed.

Lemma collect_Some (v : list (option (list B))) ys :
  collect v = Some ys → ∃ yss, v = Some <$> yss ∧ ys = mjoin yss.
Proof.
  revert ys; induction v as [|[zs|] v IH]; intros ys Hys; simplify_eq/=.
  - by exists [].
  - destruct (collect v) as [ys'|]; simplify_eq/=.
    destruct (IH _ eq_refl) as (yss & -> & ->). by exists (zs :: yss).
Qed.

Lemma collect_is_Some (v : list (option (list B))) :
  (∀ c, c < length v → ∃ ys, v !! c = Some (Some ys)) → is_Some (collect v).
Proof.
  induction v as [|[zs|] v IH]; intros Hv; simpl.
  - eauto.
  - destruct IH as [ys ->]; [|by eauto].
    intros c Hc. apply (Hv (S c)). simpl. lia.
  - destruct (Hv 0) as [ys Hys]; simpl in *; [lia|done].
Qed.

Lemma collect_correct s v :
  invariant s → collect (value s) = Some v → v = func <$> items.
Proof.
  intros [_ _ _ _ _ Hvl Hv _] Hcol.
  destruct (collect_Some _ _ Hcol) as (yss & Hval & ->).
  rewrite <-chunks_join, <-join_fmap_fmap. f_equal.
  apply list_eq. intros c. rewrite list_lookup_fmap.
  destruct (yss !! c) as [ys|] eqn:Hys.
  - destruct (Hv c ys) as (xs & -> & ->); [|done].
    by rewrite Hval, list_lookup_fmap, Hys.
  - apply lookup_ge_None in Hys.
    rewrite Hval, length_fmap in Hvl.
    rewrite (proj2 (lookup_ge_None chunks c)); [done|lia].
Qed.

(** Whatever [map] returns is the mapped function applied to the items, in
    the order of the items. *)
Lemma reachable_result s v :
  reachable s → result s = Some v → v = func <$> items.
Proof.
  induction 1 as [|a s s' Hs IH Hstep]; [done|]. intros Hres.
  destruct a as [|w]; simpl in Hstep.
  - unfold main_step in Hstep. destruct (result s) eqn:Hr; [done|].
    destruct (collect (value s)) as [v'|] eqn:Hcol; simplify_eq/=.
    eauto using collect_correct, pool_reachable_invariant.
  - apply IH. unfold WorkerPool.worker_step in Hstep.
    destruct (workers s !! w) as [[|c acc [|x todo]|c acc x todo]|];
      simplify_eq/=; try done.
    destruct (inqueue s) as [|[c xs] q]; by simplify_eq/=.
Qed.

(** *** Every run is finite and ends with the return of [map] *)

Lemma pool_step_measure a s s' : step a s = Some s' → measure s' < measure s.
Proof.
  destruct a as [|w]; simpl; unfold measure.
  - unfold main_step. destruct (result s); [done|].
    destruct (collect (value s)); intros ?; simplify_eq/=. lia.
  - unfold WorkerPool.worker_step. destruct (workers s !! w) as [p|] eqn:Hp; [|done].
    simpl. destruct p as [|c acc [|x todo]|c acc x todo].
    + destruct (inqueue s) as [|[c xs] q]; intros ?; simplify_eq/=.
      pose proof (sum_list_with_insert worker_cost _ _ _ (Holding c [] xs) Hp).
      unfold chunk_cost at 2. simpl in *. lia.
    + intros ?; simplify_eq/=.
      pose proof (sum_list_with_insert worker_cost _ _ _ Idle Hp).
      simpl in *. lia.
    + intros ?; simplify_eq/=.
      pose proof (sum_list_with_insert worker_cost _ _ _
                    (Running c acc x todo) Hp).
      simpl in *. lia.
    + intros ?; simplify_eq/=.
      pose proof (sum_list_with_insert worker_cost _ _ _
                    (Holding c (acc ++ [func x]) todo) Hp).
      simpl in *. lia.
Qed.

Lemma pool_exec_bounded sched s s' :
  exec sched s = Some s' → length sched + measure s' ≤ measure s.
Proof.
  revert s; induction sched as [|a sched IH]; intros s Hex; simplify_eq/=.
  - lia.
  - destruct (step a s) as [s1|] eqn:Hs; [|done]. simpl in Hex.
    apply pool_step_measure in Hs. apply IH in Hex. lia.
Qed.

Lemma pool_exec_reachable sched s s' :
  reachable s → exec sched s = Some s' → reachable s'.
Proof.
  revert s; induction sched as [|a sched IH]; intros s Hs Hex; simplify_eq/=.
  - done.
  - destruct (step a s) as [s1|] eqn:Hstep; [|done].
    eauto using reach_step.
Qed.

(** With at least one worker, some process can move until [map] returns. *)
Lemma pool_progress s :
  1 ≤ K → invariant s → result s = None → ∃ a s', step a s = Some s'.
Proof.
  intros HK [Hlen _ _ _ _ Hvl _ Hwh] Hres.
  destruct (decide (0 < sum_list_with busy (workers s))) as [Hbusy|Hidle].
  - apply sum_list_with_pos in Hbusy as (w & p & Hp & Hb).
    exists (Worker w). simpl. unfold WorkerPool.worker_step. rewrite Hp. simpl.
    destruct p as [|c acc [|x todo]|c acc x todo]; simpl in *; eauto; lia.
  - assert (∀ w p, workers s !! w = Some p → p = Idle) as Hall.
    { intros w p Hp. apply list_elem_of_lookup_2 in Hp.
      apply (sum_list_with_in _ busy) in Hp. destruct p; simpl in *; [done|lia..]. }
    destruct (inqueue s) as [|[c xs] q] eqn:Hin.
    + exists Main. simpl. unfold main_step. rewrite Hres.
      destruct (collect_is_Some (value s)) as [v ->]; [|simpl; eauto].
      intros c Hc. rewrite Hvl in Hc.
      destruct (Hwh c Hc) as [Hq|[(w & p & Hp & Hh)|?]]; [| |done].
      * by apply elem_of_nil in Hq.
      * by rewrite (Hall _ _ Hp) in Hh.
    + destruct (lookup_lt_is_Some_2 (workers s) 0) as [p Hp]; [lia|].
      exists (Worker 0). simpl. unfold WorkerPool.worker_step. rewrite Hp. simpl.
      rewrite (Hall _ _ Hp), Hin. eauto.
Qed.

Lemma map_can_return s :
  1 ≤ K → reachable s →
  ∃ sched s', exec sched s = Some s' ∧ result s' = Some (func <$> items).
Proof.
  intros HK. remember (measure s) as n eqn:Hn.
  revert s Hn. induction n as [n IH] using lt_wf_ind. intros s -> Hs.
  destruct (result s) as [v|] eqn:Hres.
  { exists [], s. simpl. split; [done|].
    by rewrite Hres, (reachable_result s v Hs Hres). }
  destruct (pool_progress s HK (pool_reachable_invariant _ Hs) Hres) as (a & s1 & Hstep).
  destruct (IH _ (pool_step_measure _ _ _ Hstep) s1 eq_refl) as (sched & s' & Hex & Hret);
    [eauto using reach_step|].
  exists (a :: sched), s'. simpl. by rewrite Hstep.
Qed.

(** *** Bounds and order *)

Lemma pool_in_flight_bounds s :
  reachable s → (0 ≤ in_flight (trace s) ≤ Z.of_nat K)%Z.
Proof.
  intros Hs. destruct (pool_reachable_invariant _ Hs) as [Hlen Hfl _ _ _ _ _ _].
  rewrite Hfl, <-Hlen. split; [lia|]. apply inj_le.
  generalize (workers s). intros l. induction l as [|[] l IH]; simpl; lia.
Qed.

(** The workers take the chunks in the order [map] queued them. *)
Lemma taken_in_order s :
  reachable s → ∃ k, k ≤ length chunks ∧ takes (trace s) = seq 0 k.
Proof.
  intros Hs. destruct (pool_reachable_invariant _ Hs) as [_ _ Htk _ _ _ _ _].
  exists (length (takes (trace s))).
  assert (length (takes (trace s)) ≤ length chunks) as Hle.
  { pose proof (f_equal length Htk) as Hl.
    rewrite length_app, length_seq in Hl. lia. }
  split; [done|].
  rewrite <-(take_app_length (takes (trace s)) (fst <$> inqueue s)) at 1.
  by rewrite Htk, take_seq, Nat.min_l.
Qed.

End pool.
End WorkerPoolFacts.

(** ** One process per image *)

Module ParallelismFacts.
Import Out Parallelism.

Section task.
Context {Resp Img : Type}.
Variable get : string → string + Resp.
Variable content_type_of : Resp → option string.
Variable open_image : Resp → string + Img.
Variable size_of : Img → Z * Z.
Variable save_resized : Img → Z * Z → option string → string + string.
Variable stat_size : string → string + Z.

Local Abbreviation task_body :=
  (Parallelism.task_body get content_type_of open_image size_of save_resized
     stat_size).
Local Abbreviation task :=
  (Parallelism.task get content_type_of open_image size_of save_resized
     stat_size).

(** An exception raised anywhere in the body is turned into the error line
    and the pair [(False, 0)]. *)
Lemma task_caught url p_num out e :
  task_body url p_num = (out, inl e) →
  task url p_num
  = (out ++ [tag p_num +:+ "Error while downloading the file: " +:+ e],
     inr (false, 0%Z)).
Proof. unfold Parallelism.task. by intros ->. Qed.

Lemma task_passes url p_num out v :
  task_body url p_num = (out, inr v) → task url p_num = (out, inr v).
Proof. unfold Parallelism.task. by intros ->. Qed.

(** [task] returns, whatever its external calls do. *)
Lemma task_returns url p_num : ∃ out v, task url p_num = (out, inr v).
Proof.
  destruct (task_body url p_num) as [out [e|v]] eqn:Hbody.
  - rewrite (task_caught _ _ _ _ Hbody). eauto.
  - rewrite (task_passes _ _ _ _ Hbody). eauto.
Qed.
End task.

Lemma starts_from k (urls : list string) url num :
  sum_list_with (is_start_of url num)
    (uncurry StartProcess <$> imap (λ i u, (u, k + i)) urls)
  = if decide (k ≤ num ∧ urls !! (num - k) = Some url) then 1 else 0.
Proof.
  revert k; induction urls as [|u urls IH]; intros k; csimpl.
  - by rewrite decide_False by (by intros [_ ?]).
  - rewrite (imap_ext _ (λ i u, (u, S k + i))) by (intros; simpl; f_equal; lia).
    rewrite IH, Nat.add_0_r.
    destruct (decide (k = num)) as [->|Hne].
    + rewrite Nat.sub_diag. simpl.
      rewrite (decide_False (P:=S num ≤ num ∧ _)) by lia.
      rewrite Nat.add_0_r. apply decide_ext. split.
      * by intros [-> _].
      * intros [_ ?]. by simplify_eq.
    + rewrite (decide_False (P:=u = url ∧ k = num)) by (by intros [_ ?]).
      simpl. apply decide_ext. split.
      * intros [Hle Hurl]. split; [lia|].
        by replace (num - k) with (S (num - S k)) by lia.
      * intros [Hle Hurl]. split; [lia|].
        by replace (num - k) with (S (num - S k)) in Hurl by lia.
Qed.

(** Each process is started once, on its own url and number. *)
Lemma started_once urls total num url :
  urls !! num = Some url →
  sum_list_with (is_start_of url num) (run_parallel_taks urls total) = 1.
Proof.
  intros Hurl. unfold run_parallel_taks, processes.
  rewrite !sum_list_with_app.
  assert (sum_list_with (is_start_of url num)
            (uncurry JoinProcess <$> imap (λ num url, (url, num)) urls) = 0)
    as ->.
  { apply sum_list_with_zero. intros i x Hi.
    apply list_lookup_fmap_Some_1 in Hi as ([u n] & -> & _). done. }
  pose proof (starts_from 0 urls url num) as Hs. simpl in Hs. rewrite Hs.
  rewrite Nat.sub_0_r, decide_True by (split; [lia|done]). done.
Qed.

End ParallelismFacts.

(** ** The download loop *)

Module AsynchronismFacts.
Import Out Asynchronism.

Section downloads.
Variable get : nat → string → string + option string.
Variable write_file : nat → string → string + unit.

Local Abbreviation download_file := (Asynchronism.download_file get write_file).
Local Abbreviation download_loop := (Asynchronism.download_loop get write_file).
Local Abbreviation download_pdfs := (Asynchronism.download_pdfs get write_file).

Lemma download_loop_app k pre post :
  (download_loop k pre).2 = inr tt →
  download_loop k (pre ++ post)
  = ((download_loop k pre).1 ++ (download_loop (k + length pre) post).1,
     (download_loop (k + length pre) post).2).
Proof.
  revert k; induction pre as [|url pre IH]; intros k Hpre; simpl.
  - rewrite Nat.add_0_r. by destruct (download_loop k post).
  - simpl in Hpre. unfold mbind, out_bind in *. simpl in *.
    destruct (download_file url k) as [out [e|[]]]; simpl in *; [done|].
    destruct (download_loop (S k) pre) as [out' r] eqn:Hloop; simpl in *.
    subst r. specialize (IH (S k)). rewrite Hloop in IH.
    rewrite (IH eq_refl). simpl.
    replace (k + S (length pre)) with (S (k + length pre)) by lia.
    by rewrite !(assoc_L (++)).
Qed.

(** When the download of one pdf raises, the loop is over: whatever
    follows in the list plays no part. *)
Lemma download_loop_abort k pre url post e :
  (download_loop k pre).2 = inr tt →
  (download_file url (k + length pre)).2 = inl e →
  download_loop k (pre ++ url :: post) = download_loop k (pre ++ [url])
  ∧ (download_loop k (pre ++ [url])).2 = inl e.
Proof.
  intros Hpre Hfile. rewrite !download_loop_app by done. simpl.
  unfold mbind, out_bind. simpl.
  destruct (download_file url (k + length pre)) as [out [e'|[]]];
    simpl in *; by simplify_eq.
Qed.

(** [download_pdfs] returns, whatever its external calls do. *)
Lemma download_pdfs_returns listing : (download_pdfs listing).2 = inr tt.
Proof.
  unfold Asynchronism.download_pdfs. destruct listing as [e|urls]; simpl; [done|].
  unfold mbind, out_bind; simpl.
  by destruct (download_loop 0 urls) as [out [e|[]]].
Qed.

End downloads.
End AsynchronismFacts.

(** ** The driver *)

Module DriverFacts.
Import Out Driver.

Section main.
Variable escapes : demo → option string.

Local Abbreviation run := (Driver.run escapes).
Local Abbreviation main := (Driver.main escapes).

(** The loop of [wait_for] has ended by the time the fuel is used up. *)
Lemma count_down_fuel fuel n :
  Z.to_nat (n + 1) ≤ fuel →
  count_down fuel n = count_down (Z.to_nat (n + 1)) n.
Proof.
  revert n; induction fuel as [|fuel IH]; intros n Hfuel.
  - by replace (Z.to_nat (n + 1)) with 0 by lia.
  - destruct (Z.leb_spec 0 n) as [Hn|Hn].
    + replace (Z.to_nat (n + 1)) with (S (Z.to_nat (n - 1 + 1))) by lia.
      simpl. rewrite (proj2 (Z.leb_le 0 n)) by done.
      f_equal. apply IH. lia.
    + replace (Z.to_nat (n + 1)) with 0 by lia. simpl.
      by rewrite (proj2 (Z.leb_gt 0 n)) by done.
Qed.

(** The driver never pauses, and runs the demos in the order of the
    source until one lets an exception escape. *)
Lemma main_shape :
  pauses main.1 = [] ∧ demos_run main.1 `prefix_of` programme.
Proof.
  unfold Driver.main, Driver.run, mbind, out_bind. simpl.
  destruct (escapes run_async_tasks_in_background); simpl;
    [split; [done|by eexists]|].
  destruct (escapes run_concurrent_tasks); simpl;
    [split; [done|by eexists]|].
  destruct (escapes run_parallel_taks); simpl;
    [split; [done|by eexists]|].
  destruct (escapes run_semaphore_example); simpl;
    [split; [done|by eexists]|].
  destruct (escapes run_workerpool_tasks); simpl;
    split; first [done|by eexists].
Qed.

End main.
End DriverFacts.

(** ** Concrete runs *)

Module ScenarioFacts.
Import Semaphore SemaphoreFacts Scenario.

Lemma final_run : exec whois addresses schedule start = Some final.
Proof. vm_compute. reflexivity. Qed.

Lemma midway_run : exec whois addresses overlapped start = Some midway.
Proof. vm_compute. reflexivity. Qed.

Lemma final_reachable : reachable whois 4 addresses [] final.
Proof. exact (exec_reachable _ _ _ _ _ _ _ (reach_init _ _ _ _) final_run). Qed.

Lemma midway_reachable : reachable whois 4 addresses [] midway.
Proof. exact (exec_reachable _ _ _ _ _ _ _ (reach_init _ _ _ _) midway_run). Qed.

Lemma final20_run : exec whois20 twenty schedule20 start20 = Some final20.
Proof. vm_compute. reflexivity. Qed.

Lemma final20_reachable : reachable whois20 4 twenty [] final20.
Proof. exact (exec_reachable _ _ _ _ _ _ _ (reach_init _ _ _ _) final20_run). Qed.

Lemma final20_returned : main final20 = Returned.
Proof. vm_compute. reflexivity. Qed.

Lemma final_returned : main final = Returned.
Proof. vm_compute. reflexivity. Qed.

Lemma pool_midway_run :
  WorkerPool.exec train_model pool_schedule pool_start = Some pool_midway.
Proof. vm_compute. reflexivity. Qed.

Lemma pool_midway_reachable :
  WorkerPool.reachable train_model 3 WorkerPool.demo_max_iters pool_midway.
Proof.
  exact (WorkerPoolFacts.pool_exec_reachable _ _ _ _ _ _
           (WorkerPool.reach_init _ _ _) pool_midway_run).
Qed.

Lemma pool_done_reachable :
  WorkerPool.reachable train_model 3 WorkerPool.demo_max_iters
    pool_done.
Proof.
  apply (WorkerPoolFacts.pool_exec_reachable _ _ _
           (replicate 40 (WorkerPool.Worker 0) ++ [WorkerPool.Main])
           pool_start).
  - apply WorkerPool.reach_init.
  - vm_compute. reflexivity.
Qed.

End ScenarioFacts.

Module TasksFacts.
Import Semaphore SemaphoreFacts SemaphoreRun.

Section demo.
Context {R E : Type}.
Variable lookup_whois : nat → string → lookup (R:=R) (E:=E).
Variable K : nat.
Variable ips : list string.
Variable shared : list (string * R).

Local Abbreviation reachable := (Semaphore.reachable lookup_whois K ips shared).

(** Lines 76-77 can run through before any thread has moved: then every
    task has been entered and no permit has been taken. *)
Lemma threads_started i :
  i ≤ length ips →
  ∃ s, reachable s ∧ main s = Starting i ∧ tasks_in_flight s = i
       ∧ holders s = 0.
Proof.
  induction i as [|i IH]; intros Hi.
  { exists (init K ips shared). split_and!; [apply reach_init|done| |].
    - unfold tasks_in_flight. apply sum_list_with_zero. intros k p Hp.
      apply list_lookup_fmap_Some_1 in Hp as (? & -> & _). done.
    - unfold holders. apply sum_list_with_zero. intros k p Hp.
      apply list_lookup_fmap_Some_1 in Hp as (? & -> & _). done. }
  destruct IH as (s & Hs & Hm & Hact & Hhold); [lia|].
  destruct (reachable_invariant _ _ _ _ _ Hs) as [Hlen _ _ _ Hthr _ _ _].
  destruct (lookup_lt_is_Some_2 ips i) as [a Ha]; [lia|].
  destruct (lookup_lt_is_Some_2 (threads s) i) as [p Hp]; [lia|].
  destruct (Hthr _ _ _ Ha Hp) as (_ & _ & Hok). rewrite Hm in Hok.
  destruct Hok as (_ & _ & Hcreated). specialize (Hcreated ltac:(lia)).
  subst p.
  pose proof (sum_list_with_insert active _ _ _ AtLookup Hp) as Hsum.
  pose proof (sum_list_with_insert holding _ _ _ AtLookup Hp) as Hsum'.
  exists (State (Starting (S i)) (<[i:=AtLookup]> (threads s)) (semaphore s)
                (valid_ips s) (trace s ++ [Start i])).
  split_and!.
  - apply (reach_step _ _ _ _ Main s); [done|]. simpl. unfold main_step.
    by rewrite Hm, Hp.
  - done.
  - unfold tasks_in_flight in *. cbn [threads]. simpl in Hsum. lia.
  - unfold holders in *. cbn [threads]. simpl in Hsum'. lia.
Qed.

End demo.
End TasksFacts.

Module CrowdFacts.
Import Semaphore SemaphoreFacts Crowd.

Lemma crowded_run :
  exec Scenario.whois20 Scenario.twenty (replicate 20 Main) Scenario.start20
  = Some crowded.
Proof. vm_compute. reflexivity. Qed.

Lemma crowded_reachable :
  reachable Scenario.whois20 4 Scenario.twenty [] crowded.
Proof. exact (exec_reachable _ _ _ _ _ _ _ (reach_init _ _ _ _) crowded_run). Qed.

Lemma serial_run :
  exec Scenario.whois Scenario.addresses serial_schedule serial_start
  = Some serial.
Proof. vm_compute. reflexivity. Qed.

Lemma serial_reachable : reachable Scenario.whois 1 Scenario.addresses [] serial.
Proof. exact (exec_reachable _ _ _ _ _ _ _ (reach_init _ _ _ _) serial_run). Qed.

End CrowdFacts.

(** ** Properties of the demonstrations *)

(** C1, as the code has it.  In the pool the tasks in flight (calls of
    the mapped function entered and not left) number between 0 and the [P]
    processes in every state a run can reach.  In the semaphore demo it is
    the permits taken and not given back, which are the threads inside the
    [with] block, that number between 0 and [K]: every thread is started
    at once and takes its permit only at line 42, and it has still to print
    the line of line 46 when it has given the permit back.  So the tasks
    that have claimed a slot and not ended are at least the threads inside
    the block, the tasks between their entry and their exit are at least
    those, and the bound on both is the number of addresses, which a run
    reaches when lines 76-77 have started every thread and no permit has
    been taken.  The demos build their semaphore with 4 permits and their
    pool with 3 processes. *)
Theorem in_flight_within_limit {R E A B : Type}
    (lookup_whois : nat → string → Semaphore.lookup (R:=R) (E:=E))
    (K P : nat) (ips : list string) (shared : list (string * R))
    (s : Semaphore.state) (func : A → B) (items : list A)
    (w : WorkerPool.state) :
  1 ≤ K → 1 ≤ P →
  Semaphore.reachable lookup_whois K ips shared s →
  WorkerPool.reachable func P items w →
  (0 ≤ WorkerPool.in_flight (WorkerPool.trace w) ≤ Z.of_nat P)%Z
  ∧ (0 ≤ Semaphore.in_flight (Semaphore.trace s) ≤ Z.of_nat K)%Z
  ∧ Semaphore.in_flight (Semaphore.trace s) = Z.of_nat (Semaphore.holders s)
  ∧ Semaphore.holders s ≤ SemaphoreRun.tasks_admitted s
  ∧ SemaphoreRun.tasks_admitted s ≤ SemaphoreRun.tasks_in_flight s
  ∧ SemaphoreRun.tasks_in_flight s ≤ length ips
  ∧ (∃ s', Semaphore.reachable lookup_whois K ips shared s'
           ∧ SemaphoreRun.tasks_in_flight s' = length ips
           ∧ Semaphore.holders s' = 0)
  ∧ Semaphore.new_semaphore Semaphore.demo_permits = inr 4
  ∧ WorkerPool.Pool WorkerPool.demo_processes = inr 3.
Proof.
  intros _ _ Hs Hw.
  destruct (SemaphoreFacts.reachable_invariant _ _ _ _ _ Hs)
    as [Hlen _ Hfl _ _ _ _ _].
  destruct (TasksFacts.threads_started lookup_whois K ips shared (length ips))
    as (s' & Hs' & _ & Hall & Hnone); [done|].
  split_and!; [..|by exists s'|done|done].
  - by apply (WorkerPoolFacts.pool_in_flight_bounds func P items).
  - by apply (WorkerPoolFacts.pool_in_flight_bounds func P items).
  - by apply (SemaphoreFacts.in_flight_bounds lookup_whois K ips shared).
  - by apply (SemaphoreFacts.in_flight_bounds lookup_whois K ips shared).
  - exact Hfl.
  - apply sum_list_with_mono. intros p. destruct p; simpl; lia.
  - apply sum_list_with_mono. intros p. destruct p; simpl; lia.
  - rewrite <-Hlen. apply sum_list_with_le_length.
    intros p. destruct p; simpl; lia.
Qed.

Lemma in_flight_within_limit_witness :
  (0 ≤ WorkerPool.in_flight (WorkerPool.trace Scenario.pool_midway) ≤ 3)%Z
  ∧ (0 ≤ Semaphore.in_flight (Semaphore.trace Crowd.serial) ≤ 1)%Z
  ∧ Semaphore.in_flight (Semaphore.trace Crowd.serial)
    = Z.of_nat (Semaphore.holders Crowd.serial)
  ∧ Semaphore.holders Crowd.serial ≤ SemaphoreRun.tasks_admitted Crowd.serial
  ∧ SemaphoreRun.tasks_admitted Crowd.serial
    ≤ SemaphoreRun.tasks_in_flight Crowd.serial
  ∧ SemaphoreRun.tasks_in_flight Crowd.serial ≤ length Scenario.addresses
  ∧ (∃ s', Semaphore.reachable Scenario.whois 1 Scenario.addresses [] s'
           ∧ SemaphoreRun.tasks_in_flight s' = length Scenario.addresses
           ∧ Semaphore.holders s' = 0)
  ∧ Semaphore.new_semaphore Semaphore.demo_permits = inr 4
  ∧ WorkerPool.Pool WorkerPool.demo_processes = inr 3.
Proof.
  apply (in_flight_within_limit Scenario.whois 1 3 Scenario.addresses []
           Crowd.serial Scenario.train_model WorkerPool.demo_max_iters
           Scenario.pool_midway).
  - lia.
  - lia.
  - exact CrowdFacts.serial_reachable.
  - exact ScenarioFacts.pool_midway_reachable.
Defined.

(** C1, as stated, fails for the semaphore demo.  With the demo's 20
    addresses and 4 permits, once lines 76-77 have started the threads all
    20 tasks are in flight and no permit has been taken.  And with one
    permit, thread 0 stands before line 46 with its permit given back
    while thread 2 holds it: two tasks have claimed the slot and not
    ended, and all four are between entry and exit. *)
Lemma tasks_in_flight_exceed_permits :
  Semaphore.reachable Scenario.whois20 4 Scenario.twenty [] Crowd.crowded
  ∧ SemaphoreRun.tasks_in_flight Crowd.crowded = 20
  ∧ 4 < SemaphoreRun.tasks_in_flight Crowd.crowded
  ∧ Semaphore.in_flight (Semaphore.trace Crowd.crowded) = 0%Z
  ∧ Semaphore.reachable Scenario.whois 1 Scenario.addresses [] Crowd.serial
  ∧ SemaphoreRun.tasks_admitted Crowd.serial = 2
  ∧ 1 < SemaphoreRun.tasks_admitted Crowd.serial
  ∧ SemaphoreRun.tasks_in_flight Crowd.serial = 4
  ∧ Semaphore.holders Crowd.serial = 1.
Proof.
  split_and!.
  - exact CrowdFacts.crowded_reachable.
  - vm_compute. reflexivity.
  - vm_compute. lia.
  - vm_compute. reflexivity.
  - exact CrowdFacts.serial_reachable.
  - vm_compute. reflexivity.
  - vm_compute. lia.
  - vm_compute. reflexivity.
  - vm_compute. reflexivity.
Qed.

(** C5. In a run of the semaphore demo from the freshly loaded module
    (20 addresses under 4 permits in the source; any addresses under any
    [K >= 1] here), a step changes the shared list only when it is line 44
    of a thread standing inside the [with] block, and then by exactly that
    thread's entry; the threads inside the block are as many as the
    permits taken, at most [K]; when [main] has returned, the list is as
    long as the number of threads that returned through line 46, and it
    holds the entries of exactly the items whose lookup found a record,
    each once; and every run can be continued until [main] returns. *)
Theorem shared_list_guarded_and_exact {R E : Type}
    (lookup_whois : nat → string → Semaphore.lookup (R:=R) (E:=E))
    (K : nat) (ips : list string) (s : Semaphore.state) :
  1 ≤ K →
  Semaphore.reachable lookup_whois K ips [] s →
  (∀ a s', Semaphore.step lookup_whois ips a s = Some s' →
     Semaphore.valid_ips s' = Semaphore.valid_ips s
     ∨ ∃ t a' r, a = Semaphore.Thread t ∧ ips !! t = Some a'
         ∧ Semaphore.threads s !! t = Some (Semaphore.AtAppend r)
         ∧ Semaphore.holding (Semaphore.AtAppend (E:=E) r) = 1
         ∧ Semaphore.valid_ips s' = Semaphore.valid_ips s ++ [(a', r)])
  ∧ Z.of_nat (Semaphore.holders s) = Semaphore.in_flight (Semaphore.trace s)
  ∧ Semaphore.holders s ≤ K
  ∧ (Semaphore.main s = Semaphore.Returned →
       length (Semaphore.valid_ips s) = Semaphore.succeeded s
       ∧ Semaphore.valid_ips s ≡ₚ Semaphore.in_submission_order lookup_whois ips)
  ∧ (∃ sched s', Semaphore.exec lookup_whois ips sched s = Some s'
       ∧ Semaphore.main s' = Semaphore.Returned).
Proof.
  intros HK Hs.
  pose proof (SemaphoreFacts.reachable_invariant _ _ _ _ _ Hs) as Hinv.
  split_and!.
  - intros a s'. apply SemaphoreFacts.append_guarded.
  - symmetry. apply (Semaphore.inv_in_flight _ _ _ _ _ Hinv).
  - pose proof (Semaphore.inv_permits _ _ _ _ _ Hinv). lia.
  - intros Hret. split.
    + by rewrite (SemaphoreFacts.returned_length _ _ _ _ _ Hs Hret).
    + rewrite (Semaphore.inv_shared _ _ _ _ _ Hinv). simpl.
      by apply (SemaphoreFacts.returned_entries lookup_whois K ips []).
  - by apply (SemaphoreFacts.can_return_from lookup_whois K ips []).
Qed.

Lemma shared_list_guarded_and_exact_witness :
  length (Semaphore.valid_ips Scenario.final20)
  = Semaphore.succeeded Scenario.final20
  ∧ Semaphore.valid_ips Scenario.final20
    ≡ₚ Semaphore.in_submission_order Scenario.whois20 Scenario.twenty.
Proof.
  apply (shared_list_guarded_and_exact Scenario.whois20 4 Scenario.twenty
           Scenario.final20).
  - lia.
  - exact ScenarioFacts.final20_reachable.
  - exact ScenarioFacts.final20_returned.
Defined.

(** C10. In the semaphore demo an item whose lookup returns [None] does
    nothing but that lookup: its thread never stands inside the [with]
    block and never gets past line 44, nothing it does falls in a guarded
    section, it appends nothing, it prints neither the line of success nor
    that of failure; when [main] has returned, the thread has returned
    through line 41 with the lookup as its only event. *)
Theorem no_record_leaves_no_trace {R E : Type}
    (lookup_whois : nat → string → Semaphore.lookup (R:=R) (E:=E))
    (K : nat) (ips : list string) (shared : list (string * R))
    (s : Semaphore.state) (t : nat) (a : string) :
  Semaphore.reachable lookup_whois K ips shared s →
  ips !! t = Some a →
  lookup_whois t a = Semaphore.NoRecord →
  Semaphore.own t (Semaphore.trace s) `prefix_of` [Semaphore.Lookup t a]
  ∧ (∀ p, Semaphore.threads s !! t = Some p →
       Semaphore.holding p = 0 ∧ Semaphore.has_appended p = 0)
  ∧ Semaphore.guarded t (Semaphore.trace s) = []
  ∧ Semaphore.entries (Semaphore.own t (Semaphore.trace s)) = []
  ∧ Semaphore.times (Semaphore.is_report t) (Semaphore.trace s) = 0
  ∧ (Semaphore.main s = Semaphore.Returned →
       Semaphore.threads s !! t = Some (Semaphore.Finished Semaphore.NoRecord)
       ∧ Semaphore.own t (Semaphore.trace s) = [Semaphore.Lookup t a]).
Proof.
  intros Hs Ha Ho.
  destruct (SemaphoreFacts.no_record_silent _ _ _ _ _ _ _ Hs Ha Ho) as [Hpre Hp].
  assert (Semaphore.own t (Semaphore.trace s) = []
          ∨ Semaphore.own t (Semaphore.trace s) = [Semaphore.Lookup t a])
    as Hown.
  { destruct Hpre as [k Hk].
    destruct (Semaphore.own t (Semaphore.trace s)) as [|e [|e' l]];
      simplify_eq/=; eauto. }
  split_and!; try done.
  - unfold Semaphore.guarded. by destruct Hown as [-> | ->].
  - by destruct Hown as [-> | ->].
  - rewrite <-(SemaphoreFacts.times_own t) by apply SemaphoreFacts.is_report_owner.
    by destruct Hown as [-> | ->].
  - intros Hret.
    destruct (SemaphoreFacts.returned_thread _ _ _ _ _ _ _ Hs Hret Ha) as [Hp' Hown'].
    by rewrite Ho in Hp', Hown'.
Qed.

Lemma no_record_leaves_no_trace_witness :
  Semaphore.own 1 (Semaphore.trace Scenario.final)
    `prefix_of` [Semaphore.Lookup 1 "203.0.113.9"]
  ∧ (∀ p, Semaphore.threads Scenario.final !! 1 = Some p →
       Semaphore.holding p = 0 ∧ Semaphore.has_appended p = 0)
  ∧ Semaphore.guarded 1 (Semaphore.trace Scenario.final) = []
  ∧ Semaphore.entries (Semaphore.own 1 (Semaphore.trace Scenario.final)) = []
  ∧ Semaphore.times (Semaphore.is_report 1) (Semaphore.trace Scenario.final) = 0
  ∧ (Semaphore.main Scenario.final = Semaphore.Returned →
       Semaphore.threads Scenario.final !! 1
       = Some (Semaphore.Finished Semaphore.NoRecord)
       ∧ Semaphore.own 1 (Semaphore.trace Scenario.final)
         = [Semaphore.Lookup 1 "203.0.113.9"]).
Proof.
  apply (no_record_leaves_no_trace Scenario.whois 4 Scenario.addresses []
           Scenario.final 1 "203.0.113.9").
  - exact ScenarioFacts.final_reachable.
  - reflexivity.
  - reflexivity.
Defined.

(** C9, as the code has it.  For an item whose lookup finds a record, the
    events come in the order lookup, acquire, "Acquiring" line, append,
    sleep of 3 seconds, release, "Releasing" line: what the thread has done
    at any time is a beginning of that sequence, and all of it once [main]
    has returned.  What happens under the permit is the "Acquiring" line,
    the append and the sleep; the "Releasing" line comes after the
    release. *)
Theorem guarded_section_order {R E : Type}
    (lookup_whois : nat → string → Semaphore.lookup (R:=R) (E:=E))
    (K : nat) (ips : list string) (shared : list (string * R))
    (s : Semaphore.state) (t : nat) (a : string) (r : R) :
  Semaphore.reachable lookup_whois K ips shared s →
  ips !! t = Some a →
  lookup_whois t a = Semaphore.Found r →
  Semaphore.own t (Semaphore.trace s)
    `prefix_of` [Semaphore.Lookup t a; Semaphore.Acquire t;
                 Semaphore.LogAcquiring t; Semaphore.Append t (a, r);
                 Semaphore.Sleep t 3; Semaphore.Release t;
                 Semaphore.LogReleasing t]
  ∧ Semaphore.guarded t (Semaphore.trace s)
      `prefix_of` [Semaphore.LogAcquiring t; Semaphore.Append t (a, r);
                   Semaphore.Sleep t 3]
  ∧ (Semaphore.main s = Semaphore.Returned →
       Semaphore.own t (Semaphore.trace s)
       = [Semaphore.Lookup t a; Semaphore.Acquire t;
          Semaphore.LogAcquiring t; Semaphore.Append t (a, r);
          Semaphore.Sleep t 3; Semaphore.Release t; Semaphore.LogReleasing t]
       ∧ Semaphore.guarded t (Semaphore.trace s)
         = [Semaphore.LogAcquiring t; Semaphore.Append t (a, r);
            Semaphore.Sleep t 3]).
Proof.
  intros Hs Ha Ho. split_and!.
  - apply (SemaphoreFacts.own_prefix lookup_whois K ips shared s t a r Hs Ha Ho).
  - destruct (SemaphoreFacts.reachable_invariant _ _ _ _ _ Hs)
      as [Hlen _ _ _ Hthr _ _ _].
    destruct (lookup_lt_is_Some_2 (Semaphore.threads s) t) as [p Hp];
      [rewrite Hlen; eauto using lookup_lt_Some|].
    destruct (Hthr _ _ _ Ha Hp) as (Hown & Hagr & _). rewrite Ho in Hagr.
    unfold Semaphore.guarded. rewrite Hown.
    destruct p as [| | | | | | | | |o]; simpl in Hagr; simplify_eq; simpl;
      try apply prefix_nil; try done;
      repeat (apply prefix_cons; try apply prefix_nil); done.
  - intros Hret.
    destruct (SemaphoreFacts.returned_thread _ _ _ _ _ _ _ Hs Hret Ha) as [_ Hown].
    unfold Semaphore.guarded. rewrite Hown, Ho. done.
Qed.

Lemma guarded_section_order_witness :
  Semaphore.own 0 (Semaphore.trace Scenario.final)
  = [Semaphore.Lookup 0 "198.51.100.7"; Semaphore.Acquire 0;
     Semaphore.LogAcquiring 0;
     Semaphore.Append 0 ("198.51.100.7", "AS64500");
     Semaphore.Sleep 0 3; Semaphore.Release 0; Semaphore.LogReleasing 0]
  ∧ Semaphore.guarded 0 (Semaphore.trace Scenario.final)
    = [Semaphore.LogAcquiring 0;
       Semaphore.Append 0 ("198.51.100.7", "AS64500"); Semaphore.Sleep 0 3].
Proof.
  apply (guarded_section_order Scenario.whois 4 Scenario.addresses []
           Scenario.final 0 "198.51.100.7" "AS64500").
  - exact ScenarioFacts.final_reachable.
  - reflexivity.
  - reflexivity.
  - exact ScenarioFacts.final_returned.
Defined.

(** C9, as stated, fails: in the run of [Scenario.schedule], what thread 0 does
    between taking and giving back its permit is three events, the first
    of them the "Acquiring" line, and not the append and the sleep alone. *)
Lemma acquire_log_inside_guard :
  Semaphore.main Scenario.final = Semaphore.Returned
  ∧ Semaphore.guarded 0 (Semaphore.trace Scenario.final)
    = [Semaphore.LogAcquiring 0;
       Semaphore.Append 0 ("198.51.100.7", "AS64500"); Semaphore.Sleep 0 3]
  ∧ Semaphore.guarded 0 (Semaphore.trace Scenario.final)
    ≠ [Semaphore.Append 0 ("198.51.100.7", "AS64500"); Semaphore.Sleep 0 3].
Proof. vm_compute. split_and!; [done|done|discriminate]. Qed.

(** C7, as the code has it.  In the semaphore demo no item is ever called
    or reports more than once; when [main] has returned, every item has
    been started once and called once, and has reported once (the line of
    line 46 or that of line 48) unless its lookup returned [None], in
    which case it has reported nothing; every run can be continued until
    [main] returns.  [run_parallel_taks] starts each of its processes once,
    and a call of [task] returns one pair. *)
Theorem each_item_called_once {R E Resp Img : Type}
    (lookup_whois : nat → string → Semaphore.lookup (R:=R) (E:=E))
    (K : nat) (ips : list string) (shared : list (string * R))
    (s : Semaphore.state) (t : nat) (a : string)
    (get : string → string + Resp) (content_type_of : Resp → option string)
    (open_image : Resp → string + Img) (size_of : Img → Z * Z)
    (save_resized : Img → Z * Z → option string → string + string)
    (stat_size : string → string + Z) :
  1 ≤ K →
  Semaphore.reachable lookup_whois K ips shared s →
  ips !! t = Some a →
  Semaphore.times (Semaphore.is_call t) (Semaphore.trace s) ≤ 1
  ∧ Semaphore.times (Semaphore.is_report t) (Semaphore.trace s) ≤ 1
  ∧ (Semaphore.main s = Semaphore.Returned →
       Semaphore.times (Semaphore.is_start t) (Semaphore.trace s) = 1
       ∧ Semaphore.times (Semaphore.is_call t) (Semaphore.trace s) = 1
       ∧ Semaphore.times (Semaphore.is_report t) (Semaphore.trace s)
         = match lookup_whois t a with Semaphore.NoRecord => 0 | _ => 1 end)
  ∧ (∃ sched s', Semaphore.exec lookup_whois ips sched s = Some s'
       ∧ Semaphore.main s' = Semaphore.Returned)
  ∧ (∀ urls total num url, urls !! num = Some url →
       sum_list_with (Parallelism.is_start_of url num)
         (Parallelism.run_parallel_taks urls total) = 1)
  ∧ (∀ url p_num, ∃ out v,
       Parallelism.task get content_type_of open_image size_of save_resized
         stat_size url p_num = (out, inr v)).
Proof.
  intros HK Hs Ha. split_and!.
  - apply (SemaphoreFacts.at_most_once lookup_whois K ips shared s t Hs).
  - apply (SemaphoreFacts.at_most_once lookup_whois K ips shared s t Hs).
  - intros Hret.
    apply (SemaphoreFacts.returned_counts lookup_whois K ips shared s t a Hs Hret Ha).
  - by apply (SemaphoreFacts.can_return_from lookup_whois K ips shared).
  - apply ParallelismFacts.started_once.
  - apply ParallelismFacts.task_returns.
Qed.

Lemma each_item_called_once_witness :
  Semaphore.times (Semaphore.is_start 3) (Semaphore.trace Scenario.final) = 1
  ∧ Semaphore.times (Semaphore.is_call 3) (Semaphore.trace Scenario.final) = 1
  ∧ Semaphore.times (Semaphore.is_report 3) (Semaphore.trace Scenario.final) = 1.
Proof.
  apply (each_item_called_once (Resp:=string) (Img:=Z * Z)
           Scenario.whois 4 Scenario.addresses [] Scenario.final 3
           "233.252.0.1" (λ _, inl "ConnectionError") (λ _, None)
           (λ _, inl "UnidentifiedImageError") id (λ _ _ _, inl "OSError")
           (λ _, inl "FileNotFoundError")).
  - lia.
  - exact ScenarioFacts.final_reachable.
  - reflexivity.
  - exact ScenarioFacts.final_returned.
Defined.

(** C7, as stated, fails: in the run of [Scenario.schedule] item 1, whose
    lookup returns [None], has been called once and has reported nothing
    by the time [main] has returned, and nothing of it is in the list. *)
Lemma silent_item_has_no_result :
  Semaphore.main Scenario.final = Semaphore.Returned
  ∧ Semaphore.times (Semaphore.is_call 1) (Semaphore.trace Scenario.final) = 1
  ∧ Semaphore.times (Semaphore.is_report 1) (Semaphore.trace Scenario.final) = 0
  ∧ Semaphore.entries (Semaphore.own 1 (Semaphore.trace Scenario.final)) = [].
Proof. vm_compute. done. Qed.

(** C4, as the code has it.  The threads of the semaphore demo are started
    in submission order, and the workers of the pool take the queued
    chunks in submission order; with the 10 items and 3 processes of the
    demo a chunk is one item.  The order in which the threads take their
    permits is not fixed. *)
Theorem started_and_taken_in_order {R E A B : Type}
    (lookup_whois : nat → string → Semaphore.lookup (R:=R) (E:=E))
    (K P : nat) (ips : list string) (shared : list (string * R))
    (s : Semaphore.state) (func : A → B) (items : list A)
    (w : WorkerPool.state) :
  Semaphore.reachable lookup_whois K ips shared s →
  WorkerPool.reachable func P items w →
  (∃ i, i ≤ length ips ∧ Semaphore.starts (Semaphore.trace s) = seq 0 i)
  ∧ (∃ k, k ≤ length (WorkerPool.chunks P items)
        ∧ WorkerPool.takes (WorkerPool.trace w) = seq 0 k)
  ∧ WorkerPool.chunks 3 WorkerPool.demo_max_iters
    = (λ x, [x]) <$> WorkerPool.demo_max_iters.
Proof.
  intros Hs Hw. split_and!.
  - destruct (SemaphoreFacts.started_in_order _ _ _ _ _ Hs) as (i & Hi & Hst & _).
    eauto.
  - apply (WorkerPoolFacts.taken_in_order func P items w Hw).
  - reflexivity.
Qed.

Lemma started_and_taken_in_order_witness :
  (∃ i, i ≤ 4 ∧ Semaphore.starts (Semaphore.trace Scenario.midway) = seq 0 i)
  ∧ (∃ k, k ≤ 10
        ∧ WorkerPool.takes (WorkerPool.trace Scenario.pool_midway) = seq 0 k)
  ∧ WorkerPool.chunks 3 WorkerPool.demo_max_iters
    = (λ x, [x]) <$> WorkerPool.demo_max_iters.
Proof.
  exact (started_and_taken_in_order Scenario.whois 4 3 Scenario.addresses []
           Scenario.midway Scenario.train_model WorkerPool.demo_max_iters
           Scenario.pool_midway ScenarioFacts.midway_reachable
           ScenarioFacts.pool_midway_reachable).
Defined.

(** C4, as stated, fails: in the run of [Scenario.schedule] the threads are
    started in the order 0, 1, 2, 3, and thread 2 takes its permit before
    thread 0 does. *)
Lemma later_item_admitted_first :
  Semaphore.exec Scenario.whois Scenario.addresses Scenario.schedule
    Scenario.start = Some Scenario.final
  ∧ Semaphore.starts (Semaphore.trace Scenario.final) = [0; 1; 2; 3]
  ∧ Semaphore.acquisitions (Semaphore.trace Scenario.final) = [2; 0].
Proof. vm_compute. done. Qed.

(** C2, as the code has it.  When [run_semaphore_example], entered with an
    empty shared list, has returned, the list holds the entries in the
    order in which they were appended; they are the entries of the items
    whose lookup found a record, each once, so at most one per item; and
    such a return can be reached.  What [map] returns in the pool is the
    mapped function applied to the items, item by item in their order, and
    [map] can always go on to return. *)
Theorem results_as_collected {R E A B : Type}
    (lookup_whois : nat → string → Semaphore.lookup (R:=R) (E:=E))
    (K P : nat) (ips : list string) (s : Semaphore.state)
    (func : A → B) (items : list A) (w : WorkerPool.state) :
  1 ≤ K → 1 ≤ P →
  Semaphore.reachable lookup_whois K ips [] s →
  Semaphore.main s = Semaphore.Returned →
  WorkerPool.reachable func P items w →
  Semaphore.valid_ips s = Semaphore.entries (Semaphore.trace s)
  ∧ Semaphore.valid_ips s ≡ₚ Semaphore.in_submission_order lookup_whois ips
  ∧ length (Semaphore.valid_ips s) ≤ length ips
  ∧ (∃ sched s', Semaphore.exec lookup_whois ips sched (Semaphore.init K ips [])
                 = Some s'
       ∧ Semaphore.main s' = Semaphore.Returned)
  ∧ (∀ v, WorkerPool.result w = Some v →
       v = func <$> items ∧ length v = length items
       ∧ ∀ i x, items !! i = Some x → v !! i = Some (func x))
  ∧ (∃ sched w', WorkerPool.exec func sched w = Some w'
       ∧ WorkerPool.result w' = Some (func <$> items)).
Proof.
  intros HK HP Hs Hret Hw.
  pose proof (SemaphoreFacts.reachable_invariant _ _ _ _ _ Hs) as Hinv.
  assert (Semaphore.valid_ips s
          ≡ₚ Semaphore.in_submission_order lookup_whois ips) as Hperm.
  { rewrite (Semaphore.inv_shared _ _ _ _ _ Hinv). simpl.
    by apply (SemaphoreFacts.returned_entries lookup_whois K ips []). }
  split_and!.
  - apply (Semaphore.inv_shared _ _ _ _ _ Hinv).
  - done.
  - rewrite Hperm. apply SemaphoreFacts.length_in_submission_order.
  - apply (SemaphoreFacts.can_return_from lookup_whois K ips []); [done|].
    apply Semaphore.reach_init.
  - intros v Hv.
    rewrite (WorkerPoolFacts.reachable_result func P items w v Hw Hv).
    split_and!; [done|by rewrite length_fmap|].
    intros i x Hi. by rewrite list_lookup_fmap, Hi.
  - by apply (WorkerPoolFacts.map_can_return func P items).
Qed.

Lemma results_as_collected_witness :
  Semaphore.valid_ips Scenario.final
  = Semaphore.entries (Semaphore.trace Scenario.final)
  ∧ Semaphore.valid_ips Scenario.final
    ≡ₚ Semaphore.in_submission_order Scenario.whois Scenario.addresses
  ∧ length (Semaphore.valid_ips Scenario.final) ≤ 4
  ∧ (∃ sched s',
       Semaphore.exec Scenario.whois Scenario.addresses sched
         (Semaphore.init 4 Scenario.addresses []) = Some s'
       ∧ Semaphore.main s' = Semaphore.Returned)
  ∧ (∀ v, WorkerPool.result Scenario.pool_done = Some v →
       v = Scenario.train_model <$> WorkerPool.demo_max_iters
       ∧ length v = 10
       ∧ ∀ i x, WorkerPool.demo_max_iters !! i = Some x →
                v !! i = Some (Scenario.train_model x))
  ∧ (∃ sched w',
       WorkerPool.exec Scenario.train_model sched Scenario.pool_done = Some w'
       ∧ WorkerPool.result w'
         = Some (Scenario.train_model <$> WorkerPool.demo_max_iters)).
Proof.
  apply (results_as_collected Scenario.whois 4 3 Scenario.addresses
           Scenario.final Scenario.train_model WorkerPool.demo_max_iters
           Scenario.pool_done).
  - lia.
  - lia.
  - exact ScenarioFacts.final_reachable.
  - exact ScenarioFacts.final_returned.
  - exact ScenarioFacts.pool_done_reachable.
Defined.

(** C2, as stated, fails: the run of [Scenario.schedule] over four addresses
    returns with two entries in the list, and the entry at index 0 is that
    of item 2, not that of item 0. *)
Lemma shared_list_out_of_submission_order :
  Semaphore.exec Scenario.whois Scenario.addresses Scenario.schedule
    Scenario.start = Some Scenario.final
  ∧ Semaphore.main Scenario.final = Semaphore.Returned
  ∧ length Scenario.addresses = 4
  ∧ Semaphore.valid_ips Scenario.final
    = [("192.0.2.44", "AS64502"); ("198.51.100.7", "AS64500")]
  ∧ Semaphore.in_submission_order Scenario.whois Scenario.addresses
    = [("198.51.100.7", "AS64500"); ("192.0.2.44", "AS64502")].
Proof. vm_compute. done. Qed.

(** C3, as the code has it.  In the semaphore demo, once [main] has
    returned every thread has returned the way its own lookup made it,
    with the events of its own lookup and no others; an item whose lookup
    raised has printed its exception and done nothing else; and [main]
    can always go on to return.  [task] of the parallelism demo returns
    whatever its external calls do, and when its body raises it prints the
    error line and returns [(False, 0)].  [download_pdfs] returns too, but
    the download that raises ends its loop: what follows in the list is
    not attempted. *)
Theorem failures_caught_where_raised {R E Resp Img : Type}
    (lookup_whois : nat → string → Semaphore.lookup (R:=R) (E:=E))
    (K : nat) (ips : list string) (shared : list (string * R))
    (s : Semaphore.state)
    (get : string → string + Resp) (content_type_of : Resp → option string)
    (open_image : Resp → string + Img) (size_of : Img → Z * Z)
    (save_resized : Img → Z * Z → option string → string + string)
    (stat_size : string → string + Z)
    (pdf_get : nat → string → string + option string)
    (write_file : nat → string → string + unit) :
  1 ≤ K →
  Semaphore.reachable lookup_whois K ips shared s →
  Semaphore.main s = Semaphore.Returned →
  (∀ t a, ips !! t = Some a →
     Semaphore.threads s !! t = Some (Semaphore.Finished (lookup_whois t a))
     ∧ Semaphore.own t (Semaphore.trace s)
       = Semaphore.history t a (Semaphore.Finished (lookup_whois t a)))
  ∧ (∀ t a e, ips !! t = Some a → lookup_whois t a = Semaphore.Raised e →
       Semaphore.own t (Semaphore.trace s)
       = [Semaphore.Lookup t a; Semaphore.LogException t e])
  ∧ (∃ sched s',
       Semaphore.exec lookup_whois ips sched (Semaphore.init K ips shared)
       = Some s'
       ∧ Semaphore.main s' = Semaphore.Returned)
  ∧ (∀ url p_num, ∃ out v,
       Parallelism.task get content_type_of open_image size_of save_resized
         stat_size url p_num = (out, inr v))
  ∧ (∀ url p_num out e,
       Parallelism.task_body get content_type_of open_image size_of
         save_resized stat_size url p_num = (out, inl e) →
       Parallelism.task get content_type_of open_image size_of save_resized
         stat_size url p_num
       = (out ++ [Parallelism.tag p_num
                  +:+ "Error while downloading the file: " +:+ e],
          inr (false, 0%Z)))
  ∧ (∀ listing,
       (Asynchronism.download_pdfs pdf_get write_file listing).2 = inr tt)
  ∧ (∀ k pre url post e,
       (Asynchronism.download_loop pdf_get write_file k pre).2 = inr tt →
       (Asynchronism.download_file pdf_get write_file url (k + length pre)).2
       = inl e →
       Asynchronism.download_loop pdf_get write_file k (pre ++ url :: post)
       = Asynchronism.download_loop pdf_get write_file k (pre ++ [url])
       ∧ (Asynchronism.download_loop pdf_get write_file k (pre ++ [url])).2
         = inl e).
Proof.
  intros HK Hs Hret. split_and!.
  - intros t a Ha. by apply (SemaphoreFacts.returned_thread lookup_whois K ips shared).
  - intros t a e Ha Ho.
    destruct (SemaphoreFacts.returned_thread _ _ _ _ _ _ _ Hs Hret Ha) as [_ ->].
    by rewrite Ho.
  - apply (SemaphoreFacts.can_return_from lookup_whois K ips shared); [done|].
    apply Semaphore.reach_init.
  - apply ParallelismFacts.task_returns.
  - apply ParallelismFacts.task_caught.
  - apply AsynchronismFacts.download_pdfs_returns.
  - apply AsynchronismFacts.download_loop_abort.
Qed.

Lemma failures_caught_where_raised_witness :
  Semaphore.own 3 (Semaphore.trace Scenario.final)
  = [Semaphore.Lookup 3 "233.252.0.1";
     Semaphore.LogException 3 "IPDefinedError"].
Proof.
  apply (failures_caught_where_raised (Resp:=string) (Img:=Z * Z)
           Scenario.whois 4 Scenario.addresses [] Scenario.final
           (λ _, inl "ConnectionError") (λ _, None)
           (λ _, inl "UnidentifiedImageError") id (λ _ _ _, inl "OSError")
           (λ _, inl "FileNotFoundError") Scenario.pdf_get Scenario.pdf_write).
  - lia.
  - exact ScenarioFacts.final_reachable.
  - exact ScenarioFacts.final_returned.
  - reflexivity.
  - reflexivity.
Defined.

(** C3, as stated, fails: with two pdfs of which the first cannot be
    requested, [download_pdfs] prints that it downloads pdf 0 and then the
    error, and returns; pdf 1, whose download would have succeeded, is not
    attempted. *)
Lemma download_failure_skips_the_rest :
  Asynchronism.download_pdfs Scenario.pdf_get Scenario.pdf_write
    (inr Scenario.pdfs)
  = (["[ASYNC] Downloading PDF 0...";
      "[ASYNC] Error while downloading the file: ClientConnectorError"],
     inr tt)
  ∧ Asynchronism.download_file Scenario.pdf_get Scenario.pdf_write
      "https://example.org/b.pdf" 1
    = (["[ASYNC] PDF 1 downloaded to filesystem!"], inr tt).
Proof. vm_compute. done. Qed.

(** C8, what the driver does when no demo lets an exception escape: the
    five demos in the order of the source, each between its two lines,
    the countdown of [wait_for 5] between one demo and the next, and exit
    status 0.  The countdown is printed and nothing else: neither
    [wait_for] nor [main] ever pauses. *)
Theorem driver_counts_down_without_pausing :
  Driver.wait_for 5
  = Driver.Print <$> ["Next example will run in..."; "5..."; "4..."; "3...";
                      "2..."; "1..."; "0..."; "Now!"]
  ∧ Driver.main (λ _, None)
    = ([Driver.Print "Running async tasks...";
        Driver.Run Driver.run_async_tasks_in_background;
        Driver.Print "Async tasks completed!"]
       ++ Driver.wait_for 5
       ++ [Driver.Print "Running concurrent tasks...";
           Driver.Run Driver.run_concurrent_tasks;
           Driver.Print "Concurrent tasks completed!"]
       ++ Driver.wait_for 5
       ++ [Driver.Print "Running parallel tasks...";
           Driver.Run Driver.run_parallel_taks;
           Driver.Print "Parallel tasks completed!"]
       ++ Driver.wait_for 5
       ++ [Driver.Print "Running semaphore tasks...";
           Driver.Run Driver.run_semaphore_example;
           Driver.Print "Semaphore tasks completed!"]
       ++ Driver.wait_for 5
       ++ [Driver.Print "Running workerpool tasks...";
           Driver.Run Driver.run_workerpool_tasks;
           Driver.Print "Workerpool tasks completed!"],
       inr tt)
  ∧ Driver.exit_code (Driver.main (λ _, None)) = 0%Z
  ∧ Driver.demos_run (Driver.main (λ _, None)).1 = Driver.programme
  ∧ Driver.pauses (Driver.wait_for 5) = []
  ∧ (∀ escapes, Driver.pauses (Driver.main escapes).1 = []
       ∧ Driver.demos_run (Driver.main escapes).1 `prefix_of` Driver.programme).
Proof.
  split_and!; try (vm_compute; reflexivity).
  intros escapes. apply DriverFacts.main_shape.
Qed.

(** * Further properties *)

(** ** Runs of the semaphore demonstration *)

Module SemaphoreRunFacts.
Import Semaphore SemaphoreFacts SemaphoreRun.

Section demo.
Context {R E : Type}.
Variable lookup_whois : nat → string → lookup (R:=R) (E:=E).
Variable K : nat.
Variable ips : list string.
Variable shared : list (string * R).

Implicit Types (s : state (R:=R) (E:=E)) (tr : list (event (R:=R) (E:=E))).
Implicit Types (e : event (R:=R) (E:=E)) (p : pc (R:=R) (E:=E)).

Local Abbreviation step := (Semaphore.step lookup_whois ips).
Local Abbreviation init := (Semaphore.init (E:=E) K ips shared).
Local Abbreviation exec := (Semaphore.exec lookup_whois ips).
Local Abbreviation reachable := (Semaphore.reachable lookup_whois K ips shared).
Local Abbreviation in_submission_order :=
  (Semaphore.in_submission_order lookup_whois ips).

(** Once [main] has returned, nobody moves. *)
Lemma returned_stuck s a : reachable s → main s = Returned → step a s = None.
Proof.
  intros Hs Hret. destruct a as [|t]; simpl.
  - unfold main_step. by rewrite Hret.
  - unfold Semaphore.thread_step.
    destruct (ips !! t) as [addr|] eqn:Ha; [|done]. simpl.
    destruct (returned_thread _ _ _ _ _ _ _ Hs Hret Ha) as [-> _]. done.
Qed.

Lemma returned_no_holder s :
  reachable s → main s = Returned → holders s = 0.
Proof.
  intros Hs Hret. destruct (reachable_invariant _ _ _ _ _ Hs)
    as [Hlen _ _ _ Hthr _ _ _].
  apply sum_list_with_zero. intros t p Hp.
  destruct (lookup_lt_is_Some_2 ips t) as [a Ha];
    [rewrite <-Hlen; eauto using lookup_lt_Some|].
  destruct (Hthr _ _ _ Ha Hp) as (_ & _ & Hok). rewrite Hret in Hok.
  by destruct Hok as [o ->].
Qed.

(** The last thing a returned [main] has done is to print the list as it
    now is. *)
Lemma returned_last s :
  reachable s → main s = Returned →
  last (trace s) = Some (PrintList (valid_ips s)).
Proof.
  induction 1 as [|a s s' Hs IH Hstep]; [done|]. intros Hret.
  destruct a as [|t]; simpl in Hstep.
  - unfold main_step in Hstep. destruct (main s) as [i|j|] eqn:Hm; [| |done].
    + destruct (threads s !! i); by simplify_eq/=.
    + destruct (threads s !! j) as [[| | | | | | | | |o]|];
        simplify_eq/=. apply last_snoc.
  - unfold Semaphore.thread_step in Hstep.
    destruct (ips !! t) as [addr|] eqn:Ha; [|done]. simpl in Hstep.
    destruct (threads s !! t) as [p|] eqn:Hp; [|done]. simpl in Hstep.
    destruct (thread_action lookup_whois t addr p (semaphore s)) as [f|] eqn:Hf;
      [|done].
    simplify_eq/=.
    destruct (returned_thread _ _ _ _ _ _ _ Hs Hret Ha) as [Hp' _].
    rewrite Hp' in Hp. by simplify_eq/=.
Qed.

Lemma measure_init : measure init = step_bound (length ips).
Proof.
  unfold measure, step_bound, Semaphore.init, main_rank.
  cbn [main threads]. rewrite length_fmap.
  assert (sum_list_with rank ((λ _ : string, Created (R:=R) (E:=E)) <$> ips)
          = 9 * length ips) as ->; [|lia].
  induction ips as [|a l IH]; [done|]. csimpl. rewrite IH. simpl. lia.
Qed.

Lemma step_prefix a s s' :
  step a s = Some s' → valid_ips s `prefix_of` valid_ips s'.
Proof.
  intros Hstep. destruct (append_guarded _ _ _ _ _ Hstep)
    as [->|(t & a' & r & _ & _ & _ & _ & ->)]; [done|].
  by apply prefix_app_r.
Qed.

Lemma reachable_prefix s : reachable s → shared `prefix_of` valid_ips s.
Proof.
  induction 1 as [|a s s' _ IH Hstep]; [done|].
  etrans; [exact IH|]. by eapply step_prefix.
Qed.

Lemma joins_cons e tr :
  joins (e :: tr)
  = match e with Join t => t :: joins tr | _ => joins tr end.
Proof. by destruct e. Qed.

Lemma joins_app tr1 tr2 : joins (tr1 ++ tr2) = joins tr1 ++ joins tr2.
Proof. unfold joins. by rewrite omap_app. Qed.

Lemma joins_main_events tr : joins (main_events tr) = joins tr.
Proof.
  induction tr as [|e tr IH]; [done|]. unfold main_events.
  rewrite filter_cons. fold (main_events tr).
  case_decide as Ho; rewrite !joins_cons, IH; [done|]. by destruct e.
Qed.

Lemma joins_Start l : joins (R:=R) (E:=E) (Start <$> l) = [].
Proof. induction l; simpl; unfold joins in *; simpl; by f_equal. Qed.

Lemma joins_Join l : joins (R:=R) (E:=E) (Join <$> l) = l.
Proof. induction l; simpl; unfold joins in *; simpl; by f_equal. Qed.

Lemma times_is_print_Start l : times (R:=R) (E:=E) is_print (Start <$> l) = 0.
Proof. induction l; [done|]. done. Qed.

Lemma times_is_print_Join l : times (R:=R) (E:=E) is_print (Join <$> l) = 0.
Proof. induction l; [done|]. done. Qed.

(** Where the main thread stands tells how far the joins are and whether
    the list has been printed. *)
Lemma main_observed s :
  reachable s →
  joins (trace s)
  = seq 0 (match main s with
           | Starting _ => 0 | Joining j => j | Returned => length ips
           end)
  ∧ times is_print (trace s)
    = match main s with Returned => 1 | _ => 0 end.
Proof.
  intros Hs. destruct (reachable_invariant _ _ _ _ _ Hs)
    as [_ _ _ _ _ _ Hmain _].
  rewrite <-joins_main_events, <-(times_main_events is_print (trace s))
    by (by intros []).
  rewrite Hmain. unfold Semaphore.main_history.
  destruct (main s) as [i|j|].
  - by rewrite joins_Start, times_is_print_Start.
  - by rewrite joins_app, times_app, joins_Start, joins_Join,
      times_is_print_Start, times_is_print_Join.
  - rewrite !joins_app, !times_app, joins_Start, joins_Join,
      times_is_print_Start, times_is_print_Join.
    simpl. by rewrite app_nil_r.
Qed.

(** A thread takes a permit at most once, and holds one exactly when it
    has taken and not yet given back. *)
Lemma permits_history t a p :
  times (is_acquire t) (history t a p)
  = times (is_release t) (history t a p) + holding p
  ∧ times (is_acquire t) (history t a p) ≤ 1.
Proof.
  destruct p as [| |r|r|r|r|r|r|e|[r| |e]]; unfold times; simpl;
    rewrite ?bool_decide_eq_true_2 by done; simpl; lia.
Qed.

Lemma is_acquire_owner t e : owner e ≠ Some t → is_acquire t e = false.
Proof.
  destruct e; simpl; try done. intros Hne.
  apply bool_decide_eq_false_2. congruence.
Qed.

Lemma is_release_owner t e : owner e ≠ Some t → is_release t e = false.
Proof.
  destruct e; simpl; try done. intros Hne.
  apply bool_decide_eq_false_2. congruence.
Qed.

End demo.
End SemaphoreRunFacts.

Module AgainFacts.
Import Semaphore SemaphoreFacts Again.

Lemma again_run :
  exec Scenario.whois Scenario.addresses Scenario.schedule start = Some final.
Proof. vm_compute. reflexivity. Qed.

Lemma again_reachable :
  reachable Scenario.whois 4 Scenario.addresses (valid_ips Scenario.final) final.
Proof. exact (exec_reachable _ _ _ _ _ _ _ (reach_init _ _ _ _) again_run). Qed.

Lemma again_midway_run :
  exec Scenario.whois Scenario.addresses
    (replicate 4 Main ++ replicate 4 (Thread 0)) start = Some midway.
Proof. vm_compute. reflexivity. Qed.

Lemma again_midway_reachable :
  reachable Scenario.whois 4 Scenario.addresses (valid_ips Scenario.final)
    midway.
Proof.
  exact (exec_reachable _ _ _ _ _ _ _ (reach_init _ _ _ _) again_midway_run).
Qed.

End AgainFacts.

(** ** Further properties of the demonstrations *)

(** X1. The permits of the semaphore demo are accounted for in every state
    a run can reach: the counter of the semaphore and the threads inside
    the [with] block (line 42) add up to the [K] permits it was built with;
    a thread takes a permit at most once, and stands inside the block
    exactly when it has taken one and not given it back; when [main] has
    returned all permits are back, and a thread has taken one exactly when
    its lookup found a record. *)
Theorem permits_accounted_for {R E : Type}
    (lookup_whois : nat → string → Semaphore.lookup (R:=R) (E:=E))
    (K : nat) (ips : list string) (shared : list (string * R))
    (s : Semaphore.state) (t : nat) (a : string) (p : Semaphore.pc) :
  Semaphore.reachable lookup_whois K ips shared s →
  ips !! t = Some a →
  Semaphore.threads s !! t = Some p →
  Semaphore.semaphore s + Semaphore.holders s = K
  ∧ Semaphore.times (SemaphoreRun.is_acquire t) (Semaphore.trace s)
    = Semaphore.times (SemaphoreRun.is_release t) (Semaphore.trace s)
      + Semaphore.holding p
  ∧ Semaphore.times (SemaphoreRun.is_acquire t) (Semaphore.trace s) ≤ 1
  ∧ (Semaphore.main s = Semaphore.Returned →
       Semaphore.semaphore s = K
       ∧ Semaphore.times (SemaphoreRun.is_acquire t) (Semaphore.trace s)
         = match lookup_whois t a with Semaphore.Found _ => 1 | _ => 0 end).
Proof.
  intros Hs Ha Hp.
  destruct (SemaphoreFacts.reachable_invariant _ _ _ _ _ Hs)
    as [_ Hper _ _ Hthr _ _ _].
  destruct (Hthr _ _ _ Ha Hp) as (Hown & _ & _).
  pose proof (SemaphoreRunFacts.permits_history (R:=R) (E:=E) t a p) as Hh.
  rewrite <-Hown in Hh.
  rewrite !SemaphoreFacts.times_own in Hh
    by (apply SemaphoreRunFacts.is_acquire_owner
        || apply SemaphoreRunFacts.is_release_owner).
  split_and!; [done|apply Hh|apply Hh|]. intros Hret. split.
  - pose proof (SemaphoreRunFacts.returned_no_holder _ _ _ _ _ Hs Hret). lia.
  - destruct (SemaphoreFacts.returned_thread _ _ _ _ _ _ _ Hs Hret Ha)
      as [_ Hown'].
    rewrite <-(SemaphoreFacts.times_own t)
      by apply SemaphoreRunFacts.is_acquire_owner.
    rewrite Hown'. destruct (lookup_whois t a); unfold Semaphore.times; simpl;
      rewrite ?bool_decide_eq_true_2 by done; done.
Qed.

Lemma permits_accounted_for_witness :
  Semaphore.semaphore Again.midway + Semaphore.holders Again.midway = 4
  ∧ Semaphore.times (SemaphoreRun.is_acquire 0) (Semaphore.trace Again.midway)
    = Semaphore.times (SemaphoreRun.is_release 0) (Semaphore.trace Again.midway)
      + Semaphore.holding (E:=string) (Semaphore.AtSleep "AS64500")
  ∧ Semaphore.times (SemaphoreRun.is_acquire 0) (Semaphore.trace Again.midway)
    ≤ 1
  ∧ (Semaphore.main Again.midway = Semaphore.Returned →
       Semaphore.semaphore Again.midway = 4
       ∧ Semaphore.times (SemaphoreRun.is_acquire 0)
           (Semaphore.trace Again.midway)
         = match Scenario.whois 0 "198.51.100.7" with
           | Semaphore.Found _ => 1
           | _ => 0
           end).
Proof.
  apply (permits_accounted_for Scenario.whois 4 Scenario.addresses
           (Semaphore.valid_ips Scenario.final) Again.midway 0 "198.51.100.7"
           (Semaphore.AtSleep "AS64500")).
  - exact AgainFacts.again_midway_reachable.
  - reflexivity.
  - vm_compute. reflexivity.
Defined.

(** X2. The module-level list [valid_ips] (line 9) is never cleared or cut:
    what it held when [run_semaphore_example] was entered stays at its
    front, every step leaves the list as it was at the front of what it
    becomes, and when [main] has returned the list is what it held before
    followed, in some order, by the entries of the items whose lookup found
    a record.  A second call in the same interpreter therefore prints the
    entries of the first call again. *)
Theorem shared_list_accumulates {R E : Type}
    (lookup_whois : nat → string → Semaphore.lookup (R:=R) (E:=E))
    (K : nat) (ips : list string) (shared : list (string * R))
    (s : Semaphore.state) :
  Semaphore.reachable lookup_whois K ips shared s →
  shared `prefix_of` Semaphore.valid_ips s
  ∧ (∀ a s', Semaphore.step lookup_whois ips a s = Some s' →
       Semaphore.valid_ips s `prefix_of` Semaphore.valid_ips s')
  ∧ (Semaphore.main s = Semaphore.Returned →
       Semaphore.valid_ips s
       ≡ₚ shared ++ Semaphore.in_submission_order lookup_whois ips).
Proof.
  intros Hs. split_and!.
  - by apply (SemaphoreRunFacts.reachable_prefix lookup_whois K ips shared).
  - intros a s'. apply SemaphoreRunFacts.step_prefix.
  - intros Hret.
    destruct (SemaphoreFacts.reachable_invariant _ _ _ _ _ Hs)
      as [_ _ _ Hsh _ _ _ _].
    rewrite Hsh. apply Permutation_app_head.
    by apply (SemaphoreFacts.returned_entries lookup_whois K ips shared).
Qed.

Lemma shared_list_accumulates_witness :
  Semaphore.valid_ips Scenario.final `prefix_of` Semaphore.valid_ips Again.final
  ∧ (∀ a s', Semaphore.step Scenario.whois Scenario.addresses a Again.final
             = Some s' →
       Semaphore.valid_ips Again.final `prefix_of` Semaphore.valid_ips s')
  ∧ (Semaphore.main Again.final = Semaphore.Returned →
       Semaphore.valid_ips Again.final
       ≡ₚ Semaphore.valid_ips Scenario.final
          ++ Semaphore.in_submission_order Scenario.whois Scenario.addresses).
Proof.
  apply (shared_list_accumulates Scenario.whois 4 Scenario.addresses
           (Semaphore.valid_ips Scenario.final) Again.final).
  exact AgainFacts.again_reachable.
Defined.

(** X3. [run_semaphore_example] joins its threads in the order of the list
    (lines 78-79), a thread that has been joined has returned, and the list
    is printed (line 80) once only: never before [main] returns, and when
    it has returned the print is the last thing that happened in the run
    and shows the list as it stands. *)
Theorem list_printed_once_at_the_end {R E : Type}
    (lookup_whois : nat → string → Semaphore.lookup (R:=R) (E:=E))
    (K : nat) (ips : list string) (shared : list (string * R))
    (s : Semaphore.state) :
  Semaphore.reachable lookup_whois K ips shared s →
  (∃ j, j ≤ length ips ∧ SemaphoreRun.joins (Semaphore.trace s) = seq 0 j)
  ∧ (∀ t, t ∈ SemaphoreRun.joins (Semaphore.trace s) →
       ∃ o, Semaphore.threads s !! t = Some (Semaphore.Finished o))
  ∧ Semaphore.times SemaphoreRun.is_print (Semaphore.trace s)
    = match Semaphore.main s with Semaphore.Returned => 1 | _ => 0 end
  ∧ (Semaphore.main s = Semaphore.Returned →
       SemaphoreRun.joins (Semaphore.trace s) = seq 0 (length ips)
       ∧ last (Semaphore.trace s)
         = Some (Semaphore.PrintList (Semaphore.valid_ips s))).
Proof.
  intros Hs.
  destruct (SemaphoreRunFacts.main_observed _ _ _ _ _ Hs) as [Hj Hp].
  destruct (SemaphoreFacts.reachable_invariant _ _ _ _ _ Hs)
    as [Hlen _ _ _ Hthr _ _ Hb].
  split_and!.
  - eexists. split; [|exact Hj]. destruct (Semaphore.main s); lia.
  - intros t Ht. rewrite Hj in Ht. apply elem_of_seq in Ht.
    assert (t < length ips) as Hlt by (destruct (Semaphore.main s); lia).
    destruct (lookup_lt_is_Some_2 ips t Hlt) as [a Ha].
    destruct (lookup_lt_is_Some_2 (Semaphore.threads s) t) as [p Hp'];
      [lia|].
    destruct (Hthr _ _ _ Ha Hp') as (_ & _ & Hok).
    destruct (Semaphore.main s) as [i|j|]; simpl in Hok.
    + lia.
    + destruct Hok as (_ & _ & Hfin). destruct (Hfin ltac:(lia)) as [o ->].
      eauto.
    + destruct Hok as [o ->]. eauto.
  - exact Hp.
  - intros Hret. rewrite Hret in Hj. split; [done|].
    by apply (SemaphoreRunFacts.returned_last lookup_whois K ips shared).
Qed.

Lemma list_printed_once_at_the_end_witness :
  (∃ j, j ≤ length Scenario.addresses
        ∧ SemaphoreRun.joins (Semaphore.trace Again.final) = seq 0 j)
  ∧ (∀ t, t ∈ SemaphoreRun.joins (Semaphore.trace Again.final) →
       ∃ o, Semaphore.threads Again.final !! t = Some (Semaphore.Finished o))
  ∧ Semaphore.times SemaphoreRun.is_print (Semaphore.trace Again.final)
    = match Semaphore.main Again.final with Semaphore.Returned => 1 | _ => 0 end
  ∧ (Semaphore.main Again.final = Semaphore.Returned →
       SemaphoreRun.joins (Semaphore.trace Again.final)
       = seq 0 (length Scenario.addresses)
       ∧ last (Semaphore.trace Again.final)
         = Some (Semaphore.PrintList (Semaphore.valid_ips Again.final))).
Proof.
  apply (list_printed_once_at_the_end Scenario.whois 4 Scenario.addresses
           (Semaphore.valid_ips Scenario.final) Again.final).
  exact AgainFacts.again_reachable.
Defined.

(** X4. With at least one permit [run_semaphore_example] ends however its
    threads are scheduled: a run over [n] addresses takes at most
    [20 * n + 3] atomic steps (403 for the 20 addresses of the demo), and
    the state it has reached allows no further step exactly when [main]
    has returned, so no run gets stuck before the list is printed. *)
Theorem semaphore_demo_ends {R E : Type}
    (lookup_whois : nat → string → Semaphore.lookup (R:=R) (E:=E))
    (K : nat) (ips : list string) (shared : list (string * R))
    (sched : list Semaphore.actor) (s : Semaphore.state) :
  1 ≤ K →
  Semaphore.exec lookup_whois ips sched (Semaphore.init K ips shared) = Some s →
  length sched ≤ SemaphoreRun.step_bound (length ips)
  ∧ ((∀ a, Semaphore.step lookup_whois ips a s = None)
     ↔ Semaphore.main s = Semaphore.Returned)
  ∧ SemaphoreRun.step_bound Semaphore.demo_addresses = 403.
Proof.
  intros HK Hrun.
  assert (Semaphore.reachable lookup_whois K ips shared s) as Hs.
  { eapply SemaphoreFacts.exec_reachable; [apply Semaphore.reach_init|done]. }
  split_and!.
  - pose proof (SemaphoreFacts.exec_bounded _ _ _ _ _ Hrun) as Hb.
    rewrite SemaphoreRunFacts.measure_init in Hb. lia.
  - split.
    + intros Hstuck.
      assert (Semaphore.main s = Semaphore.Returned
              ∨ Semaphore.main s ≠ Semaphore.Returned) as [|Hne];
        [destruct (Semaphore.main s); auto|done|].
      destruct (SemaphoreFacts.progress lookup_whois K ips shared s HK
                  (SemaphoreFacts.reachable_invariant _ _ _ _ _ Hs) Hne)
        as (a & s' & Hstep).
      by rewrite Hstuck in Hstep.
    + intros Hret a.
      by apply (SemaphoreRunFacts.returned_stuck lookup_whois K ips shared).
  - reflexivity.
Qed.

Lemma semaphore_demo_ends_witness :
  length Scenario.schedule20 ≤ SemaphoreRun.step_bound (length Scenario.twenty)
  ∧ ((∀ a, Semaphore.step Scenario.whois20 Scenario.twenty a Scenario.final20
           = None)
     ↔ Semaphore.main Scenario.final20 = Semaphore.Returned)
  ∧ SemaphoreRun.step_bound Semaphore.demo_addresses = 403.
Proof.
  apply (semaphore_demo_ends Scenario.whois20 4 Scenario.twenty []
           Scenario.schedule20 Scenario.final20).
  - lia.
  - exact ScenarioFacts.final20_run.
Defined.

(** ** Runs of the pool *)

Module PoolRunFacts.
Import WorkerPool WorkerPoolFacts PoolRun.

Lemma mjoin_fmap_insert {X Y} (f : X → list Y) (l : list X) i x y :
  l !! i = Some x →
  mjoin (f <$> <[i:=y]> l) ++ f x ≡ₚ mjoin (f <$> l) ++ f y.
Proof.
  revert i. induction l as [|z l IH]; intros [|i] Hi; simplify_eq/=.
  - solve_Permutation.
  - rewrite <-!(assoc_L (++)). apply Permutation_app_head. by apply IH.
Qed.

(** A worker changes what [f] sees of it from [f x] to [f x ++ new]. *)
Lemma mjoin_fmap_insert_more {X Y} (f : X → list Y) (l : list X) i x y new :
  l !! i = Some x → f y = f x ++ new →
  mjoin (f <$> <[i:=y]> l) ≡ₚ mjoin (f <$> l) ++ new.
Proof.
  intros Hi Hf. pose proof (mjoin_fmap_insert f l i x y Hi) as Hp.
  rewrite Hf in Hp. apply (Permutation_app_inv_r (f x)).
  rewrite Hp. solve_Permutation.
Qed.

(** A worker changes what [f] sees of it from [old ++ f y] to [f y]. *)
Lemma mjoin_fmap_insert_less {X Y} (f : X → list Y) (l : list X) i x y old :
  l !! i = Some x → f x = old ++ f y →
  mjoin (f <$> <[i:=y]> l) ++ old ≡ₚ mjoin (f <$> l).
Proof.
  intros Hi Hf. pose proof (mjoin_fmap_insert f l i x y Hi) as Hp.
  rewrite Hf in Hp. apply (Permutation_app_inv_r (f y)).
  rewrite <-Hp. by rewrite <-!(assoc_L (++)).
Qed.

Section pool.
Context {A B : Type}.
Variable func : A → B.
Variable K : nat.
Variable items : list A.

Implicit Types (s : state (A:=A) (B:=B)) (tr : list (event (A:=A) (B:=B))).
Implicit Types (e : event (A:=A) (B:=B)) (p : worker (A:=A) (B:=B)).

Local Abbreviation chunks := (WorkerPool.chunks K items).
Local Abbreviation worker_step := (WorkerPool.worker_step func).
Local Abbreviation step := (WorkerPool.step func).
Local Abbreviation init := (WorkerPool.init (B:=B) K items).
Local Abbreviation exec := (WorkerPool.exec func).
Local Abbreviation reachable := (WorkerPool.reachable func K items).
Local Abbreviation invariant := (WorkerPool.invariant func K items).
Local Abbreviation accounting := (PoolRun.accounting (B:=B) items).

Lemma entered_items_snoc tr e :
  entered_items (tr ++ [e])
  = entered_items tr ++ match e with Enter _ x => [x] | _ => [] end.
Proof. unfold entered_items. rewrite omap_app. by destruct e. Qed.

Lemma exited_items_snoc tr e :
  exited_items (tr ++ [e])
  = exited_items tr ++ match e with Exit _ x => [x] | _ => [] end.
Proof. unfold exited_items. rewrite omap_app. by destruct e. Qed.

Lemma puts_snoc tr e :
  puts (tr ++ [e]) = puts tr ++ match e with Put _ c => [c] | _ => [] end.
Proof. unfold puts. rewrite omap_app. by destruct e. Qed.

Lemma snd_imap_pair {X} (l : list X) (g : nat → nat) :
  snd <$> imap (λ i x, (g i, x)) l = l.
Proof.
  revert g. induction l as [|x l IH]; intros g; [done|].
  simpl. f_equal. apply (IH (g ∘ S)).
Qed.

Lemma all_idle {Y} (n : nat) (f : worker (A:=A) (B:=B) → list Y) :
  f Idle = [] → mjoin (f <$> replicate n Idle) = [].
Proof.
  intros Hf. induction n as [|n IH]; [done|].
  change (replicate (S n) (Idle (A:=A) (B:=B)))
    with (Idle (A:=A) (B:=B) :: replicate n Idle).
  rewrite fmap_cons. simpl. by rewrite Hf, IH.
Qed.

Lemma init_accounting : accounting init.
Proof.
  split; unfold WorkerPool.init; cbn [inqueue workers value result trace].
  - unfold remaining. cbn [inqueue workers].
    rewrite (snd_imap_pair _ id), chunks_join, all_idle by done.
    simpl. by rewrite app_nil_r.
  - by rewrite all_idle.
  - by rewrite all_idle.
  - intros c ys Hc. apply list_lookup_fmap_Some_1 in Hc as (? & ? & _). done.
  - by intros [? ?].
Qed.

(** When every chunk has come back no worker holds one and none is queued. *)
Lemma collected_quiet s v :
  invariant s → accounting s → collect (value s) = Some v → quiet s.
Proof.
  intros [_ _ Htk _ _ Hvl _ _] [_ _ Hch Hval _] Hcol.
  apply collect_Some in Hcol as (yss & Hv & _).
  assert (∀ c, c ∈ seq 0 (length chunks) → c ∈ puts (trace s)) as Hall.
  { intros c Hc. apply elem_of_seq in Hc.
    destruct (lookup_lt_is_Some_2 (value s) c) as [o Ho]; [lia|].
    pose proof Ho as Ho'. rewrite Hv in Ho'.
    apply list_lookup_fmap_Some_1 in Ho' as (ys & -> & _). eauto. }
  apply NoDup_submseteq in Hall; [|apply NoDup_seq].
  apply submseteq_length in Hall. rewrite length_seq in Hall.
  assert (length (mjoin (holds <$> workers s)) + length (puts (trace s))
          + length (inqueue s) = length chunks) as Hlen.
  { pose proof (f_equal length Htk) as Hl.
    rewrite length_seq, length_app, length_fmap, <-Hch, length_app in Hl.
    done. }
  split.
  - destruct (inqueue s); [done|]. simpl in Hlen. lia.
  - intros w p Hp.
    assert (mjoin (holds <$> workers s) = []) as Hnil
      by (apply length_zero_iff_nil; lia).
    destruct p as [|c acc todo|c acc x todo]; [done|exfalso..].
    + assert (c ∈ mjoin (holds <$> workers s)) as Hin; [|by rewrite Hnil in Hin; apply elem_of_nil in Hin].
      apply list_elem_of_join. exists [c]. split; [by apply list_elem_of_singleton|].
      apply list_elem_of_fmap. exists (Holding c acc todo). split; [done|].
      by eapply list_elem_of_lookup_2.
    + assert (c ∈ mjoin (holds <$> workers s)) as Hin; [|by rewrite Hnil in Hin; apply elem_of_nil in Hin].
      apply list_elem_of_join. exists [c]. split; [by apply list_elem_of_singleton|].
      apply list_elem_of_fmap. exists (Running c acc x todo). split; [done|].
      by eapply list_elem_of_lookup_2.
Qed.

Lemma quiet_stuck s w : quiet s → worker_step w s = None.
Proof.
  intros [Hq Hidle]. unfold WorkerPool.worker_step.
  destruct (workers s !! w) as [p|] eqn:Hp; [|done]. simpl.
  rewrite (Hidle _ _ Hp), Hq. done.
Qed.

Lemma worker_step_accounting w s s' :
  accounting s → worker_step w s = Some s' → accounting s'.
Proof.
  intros [Hit Hex Hch Hval Hq] Hstep.
  assert (result s = None) as Hres.
  { destruct (result s) eqn:Hr; [|done].
    rewrite quiet_stuck in Hstep by (apply Hq; eauto). done. }
  revert Hstep. unfold WorkerPool.worker_step.
  destruct (workers s !! w) as [p|] eqn:Hp; [|done]; simpl.
  destruct p as [|c acc [|x todo]|c acc x todo].
  - destruct (inqueue s) as [|[c xs] q] eqn:Hin; [done|].
    intros ?; simplify_eq.
    split; unfold remaining in *; cbn [inqueue workers value result trace] in *.
    + rewrite entered_items_snoc, app_nil_r.
      rewrite (mjoin_fmap_insert_more todo_of _ _ _ _ xs Hp)
        by (simpl; rewrite ?app_nil_r; done).
      rewrite <-Hit, Hin. simpl. solve_Permutation.
    + rewrite exited_items_snoc, entered_items_snoc, !app_nil_r.
      rewrite (mjoin_fmap_insert_more inside _ _ _ _ [] Hp)
        by (simpl; rewrite ?app_nil_r; done).
      by rewrite app_nil_r.
    + rewrite puts_snoc, takes_snoc, app_nil_r.
      rewrite (mjoin_fmap_insert_more holds _ _ _ _ [c] Hp)
        by (simpl; rewrite ?app_nil_r; done).
      rewrite <-Hch. solve_Permutation.
    + intros c' ys Hc'. rewrite puts_snoc, app_nil_r. eauto.
    + rewrite Hres. by intros [? ?].
  - intros ?; simplify_eq.
    split; unfold remaining in *; cbn [inqueue workers value result trace] in *.
    + rewrite entered_items_snoc, app_nil_r.
      rewrite (mjoin_fmap_insert_more todo_of _ _ _ _ [] Hp)
        by (simpl; rewrite ?app_nil_r; done).
      by rewrite app_nil_r.
    + rewrite exited_items_snoc, entered_items_snoc, !app_nil_r.
      rewrite (mjoin_fmap_insert_more inside _ _ _ _ [] Hp)
        by (simpl; rewrite ?app_nil_r; done).
      by rewrite app_nil_r.
    + rewrite puts_snoc, takes_snoc, app_nil_r.
      rewrite <-Hch.
      rewrite <-(mjoin_fmap_insert_less holds _ _ _ Idle [c] Hp)
        by (simpl; rewrite ?app_nil_r; done).
      solve_Permutation.
    + intros c' ys Hc'. rewrite puts_snoc.
      destruct (decide (c = c')) as [<-|Hne].
      * apply elem_of_app. right. by apply list_elem_of_singleton.
      * rewrite list_lookup_insert_ne in Hc' by done.
        apply elem_of_app. left. eauto.
    + rewrite Hres. by intros [? ?].
  - intros ?; simplify_eq.
    split; unfold remaining in *; cbn [inqueue workers value result trace] in *.
    + rewrite entered_items_snoc. rewrite <-Hit.
      rewrite <-(mjoin_fmap_insert_less todo_of _ _ _ (Running c acc x todo)
                   [x] Hp)
        by (simpl; rewrite ?app_nil_r; done).
      solve_Permutation.
    + rewrite exited_items_snoc, entered_items_snoc, app_nil_r.
      rewrite (mjoin_fmap_insert_more inside _ _ _ _ [x] Hp)
        by (simpl; rewrite ?app_nil_r; done).
      by rewrite (assoc_L (++)), Hex.
    + rewrite puts_snoc, takes_snoc, !app_nil_r.
      rewrite (mjoin_fmap_insert_more holds _ _ _ _ [] Hp)
        by (simpl; rewrite ?app_nil_r; done).
      by rewrite app_nil_r.
    + intros c' ys Hc'. rewrite puts_snoc, app_nil_r. eauto.
    + rewrite Hres. by intros [? ?].
  - intros ?; simplify_eq.
    split; unfold remaining in *; cbn [inqueue workers value result trace] in *.
    + rewrite entered_items_snoc, app_nil_r.
      rewrite (mjoin_fmap_insert_more todo_of _ _ _ _ [] Hp)
        by (simpl; rewrite ?app_nil_r; done).
      by rewrite app_nil_r.
    + rewrite exited_items_snoc, entered_items_snoc, app_nil_r.
      rewrite <-Hex.
      rewrite <-(mjoin_fmap_insert_less inside _ _ _
                   (Holding c (acc ++ [func x]) todo) [x] Hp)
        by (simpl; rewrite ?app_nil_r; done).
      solve_Permutation.
    + rewrite puts_snoc, takes_snoc, !app_nil_r.
      rewrite (mjoin_fmap_insert_more holds _ _ _ _ [] Hp)
        by (simpl; rewrite ?app_nil_r; done).
      by rewrite app_nil_r.
    + intros c' ys Hc'. rewrite puts_snoc, app_nil_r. eauto.
    + rewrite Hres. by intros [? ?].
Qed.

Lemma map_step_accounting s s' :
  invariant s → accounting s → main_step s = Some s' → accounting s'.
Proof.
  intros Hinv Hacc. pose proof Hacc as [Hit Hex Hch Hval Hq].
  unfold main_step. destruct (result s); [done|].
  destruct (collect (value s)) as [v|] eqn:Hcol; [|done].
  intros ?; simplify_eq/=.
  pose proof (collected_quiet _ _ Hinv Hacc Hcol) as Hquiet.
  split; unfold remaining in *; cbn [inqueue workers value result trace] in *.
  - by rewrite entered_items_snoc, app_nil_r.
  - by rewrite exited_items_snoc, entered_items_snoc, !app_nil_r.
  - by rewrite puts_snoc, takes_snoc, !app_nil_r.
  - intros c' ys Hc'. rewrite puts_snoc, app_nil_r. eauto.
  - done.
Qed.

Lemma reachable_accounting s : reachable s → accounting s.
Proof.
  induction 1 as [|a s s' Hs IH Hstep]; [apply init_accounting|].
  destruct a as [|w]; simpl in Hstep.
  - eapply map_step_accounting; eauto using pool_reachable_invariant.
  - by eapply worker_step_accounting.
Qed.

Lemma quiet_remaining s : quiet s → remaining s = [] ∧ mjoin (inside <$> workers s) = [].
Proof.
  intros [Hq Hidle]. unfold remaining. rewrite Hq. simpl.
  assert (∀ (f : worker (A:=A) (B:=B) → list A),
            f Idle = [] → mjoin (f <$> workers s) = []) as Hnil.
  { intros f Hf. revert Hidle. generalize (workers s).
    induction l as [|p l IH]; intros Hidle; [done|]. csimpl.
    rewrite (Hidle 0 p eq_refl), Hf, IH; [done|].
    intros w p' Hp'. by apply (Hidle (S w)). }
  by rewrite !Hnil.
Qed.

Lemma chunk_cost_imap (l : list (list A)) (g : nat → nat) :
  sum_list_with chunk_cost (imap (λ i x, (g i, x)) l)
  = 2 * length (mjoin l) + 2 * length l.
Proof.
  revert g. induction l as [|x l IH]; intros g; [done|].
  pose proof (IH (g ∘ S)) as IH'.
  simpl in *. rewrite length_app. unfold chunk_cost at 1. simpl.
  change (imap ((λ i (x0 : list A), (g i, x0)) ∘ S) l)
    with (imap (λ i (x0 : list A), (g (S i), x0)) l).
  lia.
Qed.

Lemma pool_measure_init : measure init = map_bound K items.
Proof.
  unfold measure, map_bound, WorkerPool.init. cbn [inqueue workers result].
  rewrite (chunk_cost_imap _ id), chunks_join.
  assert (sum_list_with (worker_cost (A:=A) (B:=B)) (replicate K Idle) = 0)
    as ->; [|lia].
  induction K as [|n IH]; [done|]. simpl. by rewrite IH.
Qed.

End pool.
End PoolRunFacts.

Module PoolScenarioFacts.
Import WorkerPool Scenario.

Lemma pool_done_run :
  exec train_model (replicate 40 (Worker 0) ++ [Main]) pool_start
  = Some pool_done.
Proof. vm_compute. reflexivity. Qed.

End PoolScenarioFacts.

(** X5. With at least one worker process, [pool.map] (line 63) ends
    however the processes are scheduled: a run takes at most two steps for
    each item, two for each chunk and one for the return (41 for the 10
    iteration counts and 3 processes of the demo); the pool allows no
    further step exactly when [map] has returned; and by then the queue is
    empty and every worker waits, none holding a chunk or inside
    [train_model]. *)
Theorem pool_map_ends {A B : Type} (func : A → B) (K : nat) (items : list A)
    (sched : list WorkerPool.actor) (s : WorkerPool.state) :
  1 ≤ K →
  WorkerPool.exec func sched (WorkerPool.init K items) = Some s →
  length sched ≤ PoolRun.map_bound K items
  ∧ ((∀ a, WorkerPool.step func a s = None) ↔ is_Some (WorkerPool.result s))
  ∧ (is_Some (WorkerPool.result s) → PoolRun.quiet s)
  ∧ PoolRun.map_bound 3 WorkerPool.demo_max_iters = 41.
Proof.
  intros HK Hrun.
  assert (WorkerPool.reachable func K items s) as Hs.
  { eapply WorkerPoolFacts.pool_exec_reachable;
      [apply WorkerPool.reach_init|done]. }
  pose proof (PoolRunFacts.reachable_accounting func K items s Hs)
    as [_ _ _ _ Hq].
  split_and!.
  - pose proof (WorkerPoolFacts.pool_exec_bounded _ _ _ _ Hrun) as Hb.
    rewrite PoolRunFacts.pool_measure_init in Hb. lia.
  - split.
    + intros Hstuck. destruct (WorkerPool.result s) eqn:Hres; [eauto|].
      destruct (WorkerPoolFacts.pool_progress func K items s HK
                  (WorkerPoolFacts.pool_reachable_invariant _ _ _ _ Hs) Hres)
        as (a & s' & Hstep).
      by rewrite Hstuck in Hstep.
    + intros Hres [|w]; simpl.
      * unfold WorkerPool.main_step. by destruct Hres as [v ->].
      * apply PoolRunFacts.quiet_stuck. by apply Hq.
  - exact Hq.
  - reflexivity.
Qed.

Lemma pool_map_ends_witness :
  length (replicate 40 (WorkerPool.Worker 0) ++ [WorkerPool.Main])
  ≤ PoolRun.map_bound 3 WorkerPool.demo_max_iters
  ∧ ((∀ a, WorkerPool.step Scenario.train_model a Scenario.pool_done = None)
     ↔ is_Some (WorkerPool.result Scenario.pool_done))
  ∧ (is_Some (WorkerPool.result Scenario.pool_done)
     → PoolRun.quiet Scenario.pool_done)
  ∧ PoolRun.map_bound 3 WorkerPool.demo_max_iters = 41.
Proof.
  apply (pool_map_ends Scenario.train_model 3 WorkerPool.demo_max_iters
           (replicate 40 (WorkerPool.Worker 0) ++ [WorkerPool.Main])
           Scenario.pool_done).
  - lia.
  - exact PoolScenarioFacts.pool_done_run.
Defined.

(** X6. [pool.map] calls the mapped function ([train_model] at line 63)
    once for each item and never twice: in every state of a run the items
    entered so far and the items still waiting, queued or in a worker's
    chunk, are together exactly the items given to [map]; the calls that
    have returned and the calls in progress are together the calls
    entered; and when [map] has returned every item has been entered once
    and every call has returned. *)
Theorem each_item_entered_once {A B : Type} (func : A → B) (K : nat)
    (items : list A) (s : WorkerPool.state) :
  WorkerPool.reachable func K items s →
  PoolRun.entered_items (WorkerPool.trace s) ++ PoolRun.remaining s ≡ₚ items
  ∧ PoolRun.exited_items (WorkerPool.trace s)
      ++ mjoin (PoolRun.inside <$> WorkerPool.workers s)
    ≡ₚ PoolRun.entered_items (WorkerPool.trace s)
  ∧ (is_Some (WorkerPool.result s) →
       PoolRun.entered_items (WorkerPool.trace s) ≡ₚ items
       ∧ PoolRun.exited_items (WorkerPool.trace s) ≡ₚ items).
Proof.
  intros Hs.
  pose proof (PoolRunFacts.reachable_accounting func K items s Hs)
    as [Hit Hex _ _ Hq].
  split_and!; [done|done|]. intros Hres.
  destruct (PoolRunFacts.quiet_remaining _ (Hq Hres)) as [Hrem Hin].
  rewrite Hrem, app_nil_r in Hit. rewrite Hin, app_nil_r in Hex.
  split; [done|]. by rewrite Hex.
Qed.

Lemma each_item_entered_once_witness :
  PoolRun.entered_items (WorkerPool.trace Scenario.pool_midway)
    ++ PoolRun.remaining Scenario.pool_midway
  ≡ₚ WorkerPool.demo_max_iters
  ∧ PoolRun.exited_items (WorkerPool.trace Scenario.pool_midway)
      ++ mjoin (PoolRun.inside <$> WorkerPool.workers Scenario.pool_midway)
    ≡ₚ PoolRun.entered_items (WorkerPool.trace Scenario.pool_midway)
  ∧ (is_Some (WorkerPool.result Scenario.pool_midway) →
       PoolRun.entered_items (WorkerPool.trace Scenario.pool_midway)
       ≡ₚ WorkerPool.demo_max_iters
       ∧ PoolRun.exited_items (WorkerPool.trace Scenario.pool_midway)
         ≡ₚ WorkerPool.demo_max_iters).
Proof.
  apply (each_item_entered_once Scenario.train_model 3
           WorkerPool.demo_max_iters Scenario.pool_midway).
  exact ScenarioFacts.pool_midway_reachable.
Defined.

(** ** The driver, for any countdown and any failing demo *)

Module DriverRunFacts.
Import Out Driver.

Lemma count_down_closed (k : nat) (n : Z) :
  Z.of_nat k = (n + 1)%Z →
  count_down k n
  = (λ i, Print (pretty i +:+ "...")) <$> reverse (seqZ 0 (n + 1)).
Proof.
  revert n. induction k as [|k IH]; intros n Hk.
  - replace (n + 1)%Z with 0%Z by lia. done.
  - simpl. rewrite (proj2 (Z.leb_le 0 n)) by lia.
    rewrite <-Hk, seqZ_S, reverse_snoc, fmap_cons.
    replace (0 + Z.of_nat k)%Z with n by lia.
    f_equal. rewrite (IH (n - 1)%Z) by lia.
    by replace (n - 1 + 1)%Z with (Z.of_nat k) by lia.
Qed.

End DriverRunFacts.

(** X7. [wait_for(n)] prints its header, then the numbers from [n] down to
    0, one line each, then the line "Now!", and it never pauses; for a
    negative [n] the loop body is not entered and only the header and
    "Now!" are printed. *)
Theorem wait_for_counts_from_n_down (n : Z) :
  Driver.wait_for n
  = [Driver.Print "Next example will run in..."]
    ++ ((λ i, Driver.Print (pretty i +:+ "...")) <$> reverse (seqZ 0 (n + 1)))
    ++ [Driver.Print "Now!"]
  ∧ length (Driver.wait_for n) = Z.to_nat (n + 1) + 2
  ∧ Driver.pauses (Driver.wait_for n) = []
  ∧ ((n < 0)%Z →
     Driver.wait_for n
     = [Driver.Print "Next example will run in..."; Driver.Print "Now!"]).
Proof.
  assert (Driver.count_down (Z.to_nat (n + 1)) n
          = (λ i, Driver.Print (pretty i +:+ "...")) <$> reverse (seqZ 0 (n + 1)))
    as Hloop.
  { destruct (Z.le_gt_cases 0 (n + 1)) as [Hn|Hn].
    - apply DriverRunFacts.count_down_closed. lia.
    - replace (Z.to_nat (n + 1)) with 0 by lia.
      unfold seqZ. by replace (Z.to_nat (n + 1)) with 0 by lia. }
  unfold Driver.wait_for. rewrite Hloop. split_and!.
  - done.
  - rewrite !length_app, length_fmap, length_reverse, length_seqZ. simpl. lia.
  - unfold Driver.pauses. rewrite !omap_app. simpl. rewrite app_nil_r.
    clear Hloop. induction (reverse (seqZ 0 (n + 1))) as [|i l IH]; [done|].
    rewrite fmap_cons. exact IH.
  - intros Hn. unfold seqZ. by replace (Z.to_nat (n + 1)) with 0 by lia.
Qed.

(** X8. [main] of the driver has no handler: it exits with status 0
    exactly when no demo lets an exception escape, and then all five demos
    have run in the order of the source; when a demo lets one escape, that
    exception is the one that ends the program, running the demo is the
    last thing the driver did (its "completed!" line is not printed), and
    the demos run are those of the source up to that one. *)
Theorem driver_stops_at_first_failure (escapes : Driver.demo → option string) :
  (Driver.exit_code (Driver.main escapes) = 0%Z ↔ ∀ d, escapes d = None)
  ∧ ((Driver.main escapes).2 = inr tt →
       Driver.demos_run (Driver.main escapes).1 = Driver.programme)
  ∧ (∀ e, (Driver.main escapes).2 = inl e →
       ∃ d, escapes d = Some e
         ∧ last (Driver.main escapes).1 = Some (Driver.Run d)
         ∧ ∃ k, Driver.programme !! k = Some d
             ∧ Driver.demos_run (Driver.main escapes).1
               = take (S k) Driver.programme
             ∧ ∀ j d', j < k → Driver.programme !! j = Some d' →
                 escapes d' = None).
Proof.
  unfold Driver.exit_code, Driver.main, Driver.run, mbind, Out.out_bind.
  simpl.
  destruct (escapes Driver.run_async_tasks_in_background) as [e0|] eqn:H0;
    simpl.
  { split_and!; [split; [done|intros H; by rewrite H in H0]|done|].
    intros e ?; simplify_eq. eexists. split_and!; [done..|].
    exists 0. split_and!; [done..|]. intros; lia. }
  destruct (escapes Driver.run_concurrent_tasks) as [e1|] eqn:H1; simpl.
  { split_and!; [split; [done|intros H; by rewrite H in H1]|done|].
    intros e ?; simplify_eq. eexists. split_and!; [done..|].
    exists 1. split_and!; [done..|].
    intros [|j] d' Hj Hd'; simplify_eq/=; [done|lia]. }
  destruct (escapes Driver.run_parallel_taks) as [e2|] eqn:H2; simpl.
  { split_and!; [split; [done|intros H; by rewrite H in H2]|done|].
    intros e ?; simplify_eq. eexists. split_and!; [done..|].
    exists 2. split_and!; [done..|].
    intros [|[|j]] d' Hj Hd'; simplify_eq/=; [done..|lia]. }
  destruct (escapes Driver.run_semaphore_example) as [e3|] eqn:H3; simpl.
  { split_and!; [split; [done|intros H; by rewrite H in H3]|done|].
    intros e ?; simplify_eq. eexists. split_and!; [done..|].
    exists 3. split_and!; [done..|].
    intros [|[|[|j]]] d' Hj Hd'; simplify_eq/=; [done..|lia]. }
  destruct (escapes Driver.run_workerpool_tasks) as [e4|] eqn:H4; simpl.
  { split_and!; [split; [done|intros H; by rewrite H in H4]|done|].
    intros e ?; simplify_eq. eexists. split_and!; [done..|].
    exists 4. split_and!; [done..|].
    intros [|[|[|[|j]]]] d' Hj Hd'; simplify_eq/=; [done..|lia]. }
  split_and!; [|done|done].
  split; [|done]. intros _ []; done.
Qed.

(** X9. What [task] of the parallelism demo prints and returns, whatever
    its external calls do.  It returns [(True, size)] exactly when the
    request succeeded with an allowed Content-Type, the image was decoded,
    resized to half its size and saved, and [stat] gave [size]; it has then
    printed its two lines.  Otherwise it returns [(False, 0)] and its last
    line is the error line with the message of the exception.  When only
    [stat] fails, the image has been saved and "Download completed!" has
    been printed before the error line; a response without Content-Type
    header is refused like one of a type that is not allowed. *)
Theorem task_outcome {Resp Img : Type}
    (get : string → string + Resp) (content_type_of : Resp → option string)
    (open_image : Resp → string + Img) (size_of : Img → Z * Z)
    (save_resized : Img → Z * Z → option string → string + string)
    (stat_size : string → string + Z) (url : string) (p_num : nat) :
  (∀ size,
     (Parallelism.task get content_type_of open_image size_of save_resized
        stat_size url p_num).2 = inr (true, size) ↔
     ∃ resp path,
       ParallelRun.saved get content_type_of open_image size_of save_resized
         url resp path
       ∧ stat_size path = inr size)
  ∧ (∀ size,
       (Parallelism.task get content_type_of open_image size_of save_resized
          stat_size url p_num).2 = inr (true, size) →
       (Parallelism.task get content_type_of open_image size_of save_resized
          stat_size url p_num).1
       = [ParallelRun.downloading p_num url; ParallelRun.completed p_num])
  ∧ (∀ z,
       (Parallelism.task get content_type_of open_image size_of save_resized
          stat_size url p_num).2 = inr (false, z) →
       z = 0%Z
       ∧ ∃ e,
           (Parallelism.task get content_type_of open_image size_of
              save_resized stat_size url p_num).1
           = [ParallelRun.downloading p_num url; ParallelRun.error p_num e]
           ∨ (Parallelism.task get content_type_of open_image size_of
                save_resized stat_size url p_num).1
             = [ParallelRun.downloading p_num url; ParallelRun.completed p_num;
                ParallelRun.error p_num e])
  ∧ (∀ resp path e,
       ParallelRun.saved get content_type_of open_image size_of save_resized
         url resp path →
       stat_size path = inl e →
       Parallelism.task get content_type_of open_image size_of save_resized
         stat_size url p_num
       = ([ParallelRun.downloading p_num url; ParallelRun.completed p_num;
           ParallelRun.error p_num e], inr (false, 0%Z)))
  ∧ (∀ resp, get url = inr resp → content_type_of resp = None →
       Parallelism.task get content_type_of open_image size_of save_resized
         stat_size url p_num
       = ([ParallelRun.downloading p_num url;
           ParallelRun.error p_num "Not an allowed extension."],
          inr (false, 0%Z))).
Proof.
  unfold Parallelism.task, Parallelism.task_body, ParallelRun.saved,
    ParallelRun.downloading, ParallelRun.completed, ParallelRun.error,
    mbind, Out.out_bind.
  simpl.
  destruct (get url) as [e0|resp] eqn:Hget; simpl.
  { split_and!.
    - intros size. split; [done|]. by intros (? & ? & (? & _) & _).
    - done.
    - intros z ?; simplify_eq. split; [done|]. exists e0. by left.
    - by intros ? ? ? (? & _) _.
    - done. }
  destruct (Parallelism.allowed (content_type_of resp)) eqn:Hal; simpl.
  2: { split_and!.
    - intros size. split; [done|].
      intros (? & ? & (? & Hal' & _) & _). congruence.
    - done.
    - intros z ?; simplify_eq. split; [done|]. eexists. by left.
    - intros ? ? ? (? & Hal' & _) _. congruence.
    - done. }
  destruct (open_image resp) as [e1|img] eqn:Hopen; simpl.
  { split_and!.
    - intros size. split; [done|].
      intros (? & ? & (? & _ & ? & Ho & _) & _). congruence.
    - done.
    - intros z ?; simplify_eq. split; [done|]. exists e1. by left.
    - intros ? ? ? (? & _ & ? & Ho & _) _. congruence.
    - intros ? ? Hct. simplify_eq. by rewrite Hct in Hal. }
  destruct (save_resized img (Parallelism.new_size (size_of img))
              (content_type_of resp)) as [e2|path] eqn:Hsave; simpl.
  { split_and!.
    - intros size. split; [done|].
      intros (? & ? & (? & _ & ? & ? & Hs) & _). congruence.
    - done.
    - intros z ?; simplify_eq. split; [done|]. exists e2. by left.
    - intros ? ? ? (? & _ & ? & ? & Hs) _. congruence.
    - intros ? ? Hct. simplify_eq. by rewrite Hct in Hal. }
  destruct (stat_size path) as [e3|size] eqn:Hstat; simpl.
  { split_and!.
    - intros size. split; [done|].
      intros (? & ? & (? & _ & ? & ? & Hs) & Hst). congruence.
    - done.
    - intros z ?; simplify_eq. split; [done|]. exists e3. by right.
    - intros ? ? ? (? & _ & ? & ? & Hs) Hst. repeat f_equal. congruence.
    - intros ? ? Hct. simplify_eq. by rewrite Hct in Hal. }
  split_and!.
  - intros size'. split.
    + intros ?; simplify_eq. exists resp, path. eauto 10.
    + intros (? & ? & (? & _ & ? & ? & Hs) & Hst). repeat f_equal. congruence.
  - done.
  - done.
  - intros ? ? ? (? & _ & ? & ? & Hs) Hst. congruence.
  - intros ? ? Hct. simplify_eq. by rewrite Hct in Hal.
Qed.

(** ** The url files *)

Module ReadingFacts.
Import Reading.












(** A blank line is a url, the newline at the end of the text is none; and
    a line may end in a carriage return and a newline, or in a carriage
    return alone. *)
Lemma blank_line_is_a_url :
  urls_of ("a" +:+ String newline (String newline ("b" +:+ String newline "")))
  = ["a"; ""; "b"]
  ∧ urls_of ("a" +:+ String carriage_return (String newline
               ("b" +:+ String carriage_return ("c" +:+ String newline ""))))
    = ["a"; "b"; "c"].
Proof. split; reflexivity. Qed.

End ReadingFacts.



(** ** The processes of [run_parallel_taks] *)

Module ProcessesFacts.
Import Processes.

Section demo.
Variable urls : list string.

Implicit Types (s : state) (p : pc).

Local Abbreviation step := (Processes.step urls).
Local Abbreviation init := (Processes.init urls).
Local Abbreviation exec := (Processes.exec urls).
Local Abbreviation reachable := (Processes.reachable urls).
Local Abbreviation invariant := (Processes.invariant urls).

Lemma processes_init_invariant : invariant init.
Proof.
  split; unfold Processes.init; cbn [main procs trace].
  - by rewrite length_fmap.
  - unfold alive. cbn [procs]. symmetry. simpl.
    apply sum_list_with_zero. intros k p Hp.
    apply list_lookup_fmap_Some_1 in Hp as (? & -> & _). done.
  - split_and!; [lia| |intros; lia]. intros k p Hp _.
    apply list_lookup_fmap_Some_1 in Hp as (? & -> & _). done.
Qed.

Lemma processes_step_invariant a s s' :
  invariant s → step a s = Some s' → invariant s'.
Proof.
  intros [Hlen Halive Hmain]. destruct a as [|num]; simpl.
  - unfold main_step. destruct (main s) as [i|j|] eqn:Hm; [| |done].
    + destruct Hmain as (Hi & Hcreated & Hstarted).
      destruct (urls !! i) as [url|] eqn:Hurl; intros ?; simplify_eq.
      * assert (i < length urls) as Hlt by eauto using lookup_lt_Some.
        destruct (lookup_lt_is_Some_2 (procs s) i) as [p Hp]; [lia|].
        pose proof (Hcreated _ _ Hp ltac:(lia)) as ->.
        pose proof (sum_list_with_insert alive_pc _ _ _ Alive Hp) as Hsum.
        split; cbn [main procs trace].
        -- by rewrite length_insert.
        -- unfold alive, started, ended in *. cbn [procs].
           rewrite !sum_list_with_app. simpl in *. lia.
        -- split_and!; [lia| |].
           ++ intros k p Hk Hle.
              rewrite list_lookup_insert_ne in Hk by lia.
              apply (Hcreated _ _ Hk). lia.
           ++ intros k p Hk Hle. destruct (decide (i = k)) as [<-|Hne].
              ** rewrite list_lookup_insert_eq in Hk by lia. by simplify_eq.
              ** rewrite list_lookup_insert_ne in Hk by done.
                 apply (Hstarted _ _ Hk). lia.
      * apply lookup_ge_None in Hurl.
        split; cbn [main procs trace]; [done..|].
        split; [lia|]. intros k p Hk. split; [|intros; lia].
        apply (Hstarted _ _ Hk). apply lookup_lt_Some in Hk. lia.
    + destruct Hmain as [Hj Hdone].
      destruct (procs s !! j) as [[| |]|] eqn:Hp; intros ?; simplify_eq.
      * split; cbn [main procs trace]; [done| |].
        -- unfold alive, started, ended in *.
           rewrite !sum_list_with_app. simpl. lia.
        -- split; [apply lookup_lt_Some in Hp; lia|].
           intros k p Hk. split; [by apply (Hdone _ _ Hk)|].
           intros Hlt. destruct (decide (k = j)) as [->|Hne];
             [congruence|]. apply (Hdone _ _ Hk). lia.
      * apply lookup_ge_None in Hp.
        split; cbn [main procs trace]; [done| |].
        -- unfold alive, started, ended in *.
           rewrite !sum_list_with_app. simpl. lia.
        -- intros k p Hk. apply (Hdone _ _ Hk).
           apply lookup_lt_Some in Hk. lia.
  - unfold process_step.
    destruct (procs s !! num) as [[| |]|] eqn:Hp; intros ?; simplify_eq/=.
    pose proof (sum_list_with_insert alive_pc _ _ _ Exited Hp) as Hsum.
    split; cbn [main procs trace].
    + by rewrite length_insert.
    + unfold alive, started, ended in *. cbn [procs].
      rewrite !sum_list_with_app. simpl in *. lia.
    + destruct (main s) as [i|j|].
      * destruct Hmain as (Hi & Hcreated & Hstarted). split_and!; [done| |].
        -- intros k p Hk Hle. destruct (decide (num = k)) as [->|Hne].
           ++ pose proof (Hcreated _ _ Hp Hle). done.
           ++ rewrite list_lookup_insert_ne in Hk by done. eauto.
        -- intros k p Hk Hlt. destruct (decide (num = k)) as [->|Hne].
           ++ rewrite list_lookup_insert_eq in Hk
                by eauto using lookup_lt_Some. by simplify_eq.
           ++ rewrite list_lookup_insert_ne in Hk by done. eauto.
      * destruct Hmain as [Hj Hdone]. split; [done|].
        intros k p Hk. destruct (decide (num = k)) as [->|Hne].
        -- rewrite list_lookup_insert_eq in Hk
             by eauto using lookup_lt_Some. by simplify_eq.
        -- rewrite list_lookup_insert_ne in Hk by done. eauto.
      * intros k p Hk. destruct (decide (num = k)) as [->|Hne].
        -- rewrite list_lookup_insert_eq in Hk
             by eauto using lookup_lt_Some. by simplify_eq.
        -- rewrite list_lookup_insert_ne in Hk by done. eauto.
Qed.

Lemma processes_reachable_invariant s : reachable s → invariant s.
Proof.
  induction 1 as [|a s s' _ IH Hstep]; [apply processes_init_invariant|].
  by eapply processes_step_invariant.
Qed.

Lemma processes_exec_reachable sched s s' :
  reachable s → exec sched s = Some s' → reachable s'.
Proof.
  revert s. induction sched as [|a sched IH]; intros s Hs Hrun; simpl in Hrun.
  - by simplify_eq.
  - destruct (step a s) as [s1|] eqn:Hstep; [|done]. simpl in Hrun.
    eapply IH; [|done]. by eapply reach_step.
Qed.

(** The start loop can run through before any process has ended. *)
Lemma all_started i :
  i ≤ length urls →
  ∃ s, reachable s ∧ main s = Starting i ∧ alive s = i
       ∧ ended (trace s) = 0.
Proof.
  induction i as [|i IH]; intros Hi.
  { exists init. split_and!; [apply reach_init|done| |done].
    unfold alive, Processes.init. cbn [procs].
    apply sum_list_with_zero. intros k p Hp.
    apply list_lookup_fmap_Some_1 in Hp as (? & -> & _). done. }
  destruct IH as (s & Hs & Hm & Halive & Hended); [lia|].
  destruct (processes_reachable_invariant _ Hs) as [Hlen _ Hmain].
  rewrite Hm in Hmain. destruct Hmain as (_ & Hcreated & _).
  destruct (lookup_lt_is_Some_2 urls i) as [url Hurl]; [lia|].
  destruct (lookup_lt_is_Some_2 (procs s) i) as [p Hp]; [lia|].
  pose proof (Hcreated _ _ Hp ltac:(lia)) as ->.
  pose proof (sum_list_with_insert alive_pc _ _ _ Alive Hp) as Hsum.
  exists (State (Starting (S i)) (<[i:=Alive]> (procs s))
                (trace s ++ [Start url i])).
  split_and!.
  - apply (reach_step _ Main s); [done|]. simpl. unfold main_step.
    by rewrite Hm, Hurl.
  - done.
  - unfold alive in *. cbn [procs]. simpl in Hsum. lia.
  - unfold ended in *. cbn [trace]. rewrite sum_list_with_app. simpl. lia.
Qed.

End demo.
End ProcessesFacts.

Module ProcessScenarioFacts.
Import Processes ProcessesFacts ProcessScenario.

Lemma processes_midway_run : exec urls schedule start = Some midway.
Proof. vm_compute. reflexivity. Qed.

Lemma processes_midway_reachable : reachable urls midway.
Proof.
  exact (processes_exec_reachable _ _ _ _ (reach_init _) processes_midway_run).
Qed.

End ProcessScenarioFacts.

(** X11. [run_parallel_taks] puts no cap on its processes (lines 87-90):
    every process is started before the first is joined, so the processes
    alive at once (started and not yet ended) are never more than the
    urls, and they can be all of them, however many the file lists: the
    start loop can run through before any process has ended.  A process
    is joined only when it has ended, and when the function has returned
    every process has ended and none is alive. *)
Theorem all_processes_alive_at_once (urls : list string)
    (s : Processes.state) :
  Processes.reachable urls s →
  Processes.alive s ≤ length urls
  ∧ Processes.started (Processes.trace s)
    = Processes.ended (Processes.trace s) + Processes.alive s
  ∧ (∀ j num, Processes.main s = Processes.Joining j → num < j →
       Processes.procs s !! num = Some Processes.Exited)
  ∧ (Processes.main s = Processes.Returned →
       Processes.alive s = 0
       ∧ ∀ num, num < length urls →
           Processes.procs s !! num = Some Processes.Exited)
  ∧ ∃ s', Processes.reachable urls s'
          ∧ Processes.main s' = Processes.Starting (length urls)
          ∧ Processes.alive s' = length urls
          ∧ Processes.ended (Processes.trace s') = 0.
Proof.
  intros Hs.
  destruct (ProcessesFacts.processes_reachable_invariant _ _ Hs)
    as [Hlen Halive Hmain].
  split_and!.
  - rewrite <-Hlen. apply sum_list_with_le_length. intros []; simpl; lia.
  - exact Halive.
  - intros j num Hm Hlt. rewrite Hm in Hmain. destruct Hmain as [Hj Hdone].
    destruct (lookup_lt_is_Some_2 (Processes.procs s) num) as [p Hp]; [lia|].
    by rewrite Hp, (proj2 (Hdone _ _ Hp) Hlt).
  - intros Hm. rewrite Hm in Hmain. split.
    + apply sum_list_with_zero. intros k p Hp. by rewrite (Hmain _ _ Hp).
    + intros num Hlt.
      destruct (lookup_lt_is_Some_2 (Processes.procs s) num) as [p Hp]; [lia|].
      by rewrite Hp, (Hmain _ _ Hp).
  - by apply ProcessesFacts.all_started.
Qed.

Lemma all_processes_alive_at_once_witness :
  Processes.alive ProcessScenario.midway ≤ length ProcessScenario.urls
  ∧ Processes.started (Processes.trace ProcessScenario.midway)
    = Processes.ended (Processes.trace ProcessScenario.midway)
      + Processes.alive ProcessScenario.midway
  ∧ (∀ j num, Processes.main ProcessScenario.midway = Processes.Joining j →
       num < j →
       Processes.procs ProcessScenario.midway !! num = Some Processes.Exited)
  ∧ (Processes.main ProcessScenario.midway = Processes.Returned →
       Processes.alive ProcessScenario.midway = 0
       ∧ ∀ num, num < length ProcessScenario.urls →
           Processes.procs ProcessScenario.midway !! num
           = Some Processes.Exited)
  ∧ ∃ s', Processes.reachable ProcessScenario.urls s'
          ∧ Processes.main s' = Processes.Starting (length ProcessScenario.urls)
          ∧ Processes.alive s' = length ProcessScenario.urls
          ∧ Processes.ended (Processes.trace s') = 0.
Proof.
  apply (all_processes_alive_at_once ProcessScenario.urls
           ProcessScenario.midway).
  exact ProcessScenarioFacts.processes_midway_reachable.
Defined.

(** ** The download loop, line by line *)

Module AsyncRunFacts.
Import Out Asynchronism AsyncRun.

Section downloads.
Variable get : nat → string → string + option string.
Variable write_file : nat → string → string + unit.

Local Abbreviation download_file := (Asynchronism.download_file get write_file).
Local Abbreviation download_loop := (Asynchronism.download_loop get write_file).
Local Abbreviation download_pdfs := (Asynchronism.download_pdfs get write_file).

Lemma is_error_error e : is_error (error e) = true.
Proof. unfold is_error, error. simpl. by destruct e. Qed.

Lemma is_error_downloading n : is_error (downloading n) = false.
Proof. done. Qed.

Lemma is_error_downloaded n : is_error (downloaded n) = false.
Proof. done. Qed.

(** Nothing [download_file] prints looks like the error line. *)
Lemma download_file_lines url n :
  Forall (λ l, is_error l = false) (download_file url n).1.
Proof.
  unfold Asynchronism.download_file, mbind, out_bind. simpl.
  destruct (get n url) as [e|ct]; simpl; [done|].
  case_decide; simpl; [|by repeat constructor].
  destruct (write_file n url) as [e|[]]; simpl; [done|].
  by repeat constructor.
Qed.

Lemma download_loop_lines k urls :
  Forall (λ l, is_error l = false) (download_loop k urls).1.
Proof.
  revert k. induction urls as [|url urls IH]; intros k; [done|].
  simpl. unfold mbind, out_bind. simpl.
  pose proof (download_file_lines url k) as Hf.
  destruct (download_file url k) as [out [e|[]]]; simpl in *.
  - by constructor.
  - specialize (IH (S k)).
    destruct (download_loop (S k) urls) as [out' r]; simpl in *.
    constructor; [done|]. by apply Forall_app.
Qed.

(** The loop when every request is answered and every copy goes through. *)
Lemma download_loop_answered k urls cts :
  length cts = length urls →
  (∀ i url ct, urls !! i = Some url → cts !! i = Some ct →
     get (k + i) url = inr ct
     ∧ (ct = Some "application/pdf" → write_file (k + i) url = inr tt)) →
  download_loop k urls = (mjoin (imap (λ i, attempt (k + i)) cts), inr tt).
Proof.
  revert k cts. induction urls as [|url urls IH]; intros k [|ct cts] Hlen Hok;
    try done.
  destruct (Hok 0 url ct eq_refl eq_refl) as [Hget Hwrite].
  rewrite Nat.add_0_r in Hget, Hwrite.
  assert (download_loop (S k) urls
          = (mjoin (imap (λ i, attempt (S k + i)) cts), inr tt)) as Hrest.
  { apply IH; [by simplify_eq/=|]. intros i u c Hu Hc.
    replace (S k + i) with (k + S i) by lia. by apply Hok. }
  assert (download_file url k = (drop 1 (attempt k ct), inr tt)) as Hfile.
  { unfold Asynchronism.download_file, attempt, mbind, out_bind. simpl.
    rewrite Hget. simpl. case_decide; [|done]. by rewrite Hwrite. }
  cbn [Asynchronism.download_loop]. rewrite Hrest, Hfile.
  rewrite imap_cons, Nat.add_0_r.
  rewrite (imap_ext ((λ i, attempt (k + i)) ∘ S) (λ i, attempt (S k + i)))
    by (intros; simpl; f_equal; lia).
  done.
Qed.

Lemma attempts_lines k (cts : list (option string)) :
  length (mjoin (imap (λ i, attempt (k + i)) cts)) = 2 * length cts
  ∧ Forall (λ l, is_error l = false) (mjoin (imap (λ i, attempt (k + i)) cts)).
Proof.
  revert k. induction cts as [|ct cts IH]; intros k; [done|].
  destruct (IH (S k)) as [Hlen Hall].
  rewrite imap_cons, Nat.add_0_r.
  rewrite (imap_ext ((λ i, attempt (k + i)) ∘ S) (λ i, attempt (S k + i)))
    by (intros; simpl; f_equal; lia).
  split; [simpl in *; lia|].
  constructor; [done|]. constructor; [by case_decide|done].
Qed.

End downloads.
End AsyncRunFacts.

(** X12. When every request of [download_pdfs] is answered and every copy
    to a file goes through, every url of the list is attempted, in the
    order of the list and numbered from 0: for each one the line of line
    132 and then either the line of line 109 or, for a Content-Type other
    than "application/pdf", the line of line 102.  A download that is
    refused in this way does not end the loop, and no error line is
    printed. *)
Theorem every_pdf_attempted
    (get : nat → string → string + option string)
    (write_file : nat → string → string + unit)
    (urls : list string) (cts : list (option string)) :
  length cts = length urls →
  (∀ i url ct, urls !! i = Some url → cts !! i = Some ct →
     get i url = inr ct
     ∧ (ct = Some "application/pdf" → write_file i url = inr tt)) →
  Asynchronism.download_pdfs get write_file (inr urls)
  = (mjoin (imap AsyncRun.attempt cts), inr tt)
  ∧ length (Asynchronism.download_pdfs get write_file (inr urls)).1
    = 2 * length urls
  ∧ Forall (λ l, AsyncRun.is_error l = false)
      (Asynchronism.download_pdfs get write_file (inr urls)).1.
Proof.
  intros Hlen Hok.
  assert (Asynchronism.download_pdfs get write_file (inr urls)
          = (mjoin (imap AsyncRun.attempt cts), inr tt)) as Heq.
  { unfold Asynchronism.download_pdfs, mbind, Out.out_bind. simpl.
    by rewrite (AsyncRunFacts.download_loop_answered get write_file 0 urls cts). }
  destruct (AsyncRunFacts.attempts_lines 0 cts) as [Hl Hall].
  rewrite Heq. simpl. rewrite <-Hlen. done.
Qed.

Lemma every_pdf_attempted_witness :
  Asynchronism.download_pdfs AsyncScenario.get AsyncScenario.write_file
    (inr AsyncScenario.urls)
  = (mjoin (imap AsyncRun.attempt AsyncScenario.content_types), inr tt)
  ∧ length (Asynchronism.download_pdfs AsyncScenario.get
              AsyncScenario.write_file (inr AsyncScenario.urls)).1
    = 2 * length AsyncScenario.urls
  ∧ Forall (λ l, AsyncRun.is_error l = false)
      (Asynchronism.download_pdfs AsyncScenario.get AsyncScenario.write_file
         (inr AsyncScenario.urls)).1.
Proof.
  apply (every_pdf_attempted AsyncScenario.get AsyncScenario.write_file
           AsyncScenario.urls AsyncScenario.content_types).
  - reflexivity.
  - intros [|[|i]] url ct Hurl Hct; simplify_eq/=; done.
Defined.

Module AsyncErrorFacts.
Import Out Asynchronism AsyncRun.

Lemma download_pdfs_shape
    (get : nat → string → string + option string)
    (write_file : nat → string → string + unit)
    (listing : string + list string) :
  ∃ lines tail,
    (download_pdfs get write_file listing).1 = lines ++ tail
    ∧ Forall (λ l, is_error l = false) lines
    ∧ match listing with
      | inl e => lines = [] ∧ tail = [error e]
      | inr urls =>
          lines = (download_loop get write_file 0 urls).1
          ∧ tail = match (download_loop get write_file 0 urls).2 with
                   | inl e => [error e]
                   | inr _ => []
                   end
      end.
Proof.
  unfold download_pdfs, mbind, out_bind. destruct listing as [e|urls]; simpl.
  - exists [], [error e]. by split_and!.
  - pose proof (AsyncRunFacts.download_loop_lines get write_file 0 urls) as Hl.
    destruct (download_loop get write_file 0 urls) as [out [e|[]]]; simpl in *.
    + exists out, [error e]. by split_and!.
    + exists out, []. split_and!; [by rewrite app_nil_r|done..].
Qed.

End AsyncErrorFacts.

(** X13. [download_pdfs] prints its error line (line 135) at most once and
    as its last line: no line before the last one starts the way the error
    line does.  When the list of urls cannot be read the error line is all
    it prints; when the loop raises, the last line is the error line with
    the message of the exception; and when the loop runs through, no error
    line is printed. *)
Theorem download_error_reported_last
    (get : nat → string → string + option string)
    (write_file : nat → string → string + unit)
    (listing : string + list string) :
  (∀ i line,
     (Asynchronism.download_pdfs get write_file listing).1 !! i = Some line →
     AsyncRun.is_error line = true →
     S i = length (Asynchronism.download_pdfs get write_file listing).1)
  ∧ length (filter (λ l, AsyncRun.is_error l = true)
              (Asynchronism.download_pdfs get write_file listing).1) ≤ 1
  ∧ (∀ e, listing = inl e →
       Asynchronism.download_pdfs get write_file listing
       = ([AsyncRun.error e], inr tt))
  ∧ (∀ urls e, listing = inr urls →
       (Asynchronism.download_loop get write_file 0 urls).2 = inl e →
       last (Asynchronism.download_pdfs get write_file listing).1
       = Some (AsyncRun.error e))
  ∧ (∀ urls, listing = inr urls →
       (Asynchronism.download_loop get write_file 0 urls).2 = inr tt →
       Forall (λ l, AsyncRun.is_error l = false)
         (Asynchronism.download_pdfs get write_file listing).1).
Proof.
  destruct (AsyncErrorFacts.download_pdfs_shape get write_file listing)
    as (lines & tail & Hout & Hlines & Hshape).
  assert (tail = [] ∨ ∃ e, tail = [AsyncRun.error e]) as Htail.
  { destruct listing as [e|urls]; [right; exists e; apply Hshape|].
    destruct Hshape as [_ ->].
    destruct (Asynchronism.download_loop get write_file 0 urls).2; eauto. }
  rewrite Hout. split_and!.
  - intros i line Hi Herr. rewrite length_app.
    apply lookup_app_Some in Hi as [Hi|[Hge Hi]].
    + rewrite Forall_forall in Hlines.
      rewrite Hlines in Herr by (by eapply list_elem_of_lookup_2). done.
    + destruct Htail as [->|[e ->]]; [done|].
      destruct (i - length lines) as [|?] eqn:Hd; [simpl; lia|done].
  - rewrite list.filter_app, length_app.
    assert (filter (λ l, AsyncRun.is_error l = true) lines = []) as ->.
    { clear Hout Hshape. induction lines as [|l lines IH]; [done|].
      apply Forall_cons in Hlines as [Hl Hrest].
      rewrite filter_cons, decide_False by congruence. by apply IH. }
    destruct Htail as [->|[e ->]]; simpl; [lia|].
    rewrite filter_cons. case_decide; simpl; lia.
  - intros e ->. unfold Asynchronism.download_pdfs. done.
  - intros urls e -> Hraise. destruct Hshape as [_ ->].
    rewrite Hraise. apply last_snoc.
  - intros urls -> Hret. destruct Hshape as [-> ->].
    rewrite Hret, app_nil_r. done.
Qed.

(** ** The quotes *)

Module QuotesFacts.
Import Out Quotes.

Section quotes.
Variable fetch : nat → error + string.
Variable loads : string → error + json.
Variable str_of : json → string.

Local Abbreviation quote_round := (Quotes.quote_round fetch loads str_of).
Local Abbreviation quotes_loop := (Quotes.quotes_loop fetch loads str_of).
Local Abbreviation get_quotes := (Quotes.get_quotes fetch loads str_of).

(** A round prints its line, or it raises after its request. *)
Lemma quote_round_shape n :
  (∃ line, quote_round n = (round_of line, inr tt))
  ∨ (∃ e, quote_round n = (failed_round, inl e)).
Proof.
  unfold Quotes.quote_round, Quotes.get_quote, mbind, out_bind,
    round_of, failed_round.
  simpl.
  destruct (fetch n) as [e|text]; simpl; [eauto|].
  destruct (loads text) as [e|quotes]; simpl; [eauto|].
  destruct (subscript_0 quotes) as [e|quote]; simpl; [eauto|].
  destruct (subscript "a" quote) as [e|a]; simpl; [eauto|].
  destruct (subscript "q" quote) as [e|q]; simpl; [eauto|].
  eauto.
Qed.

Lemma quotes_loop_shape n todo :
  ∃ lines,
    (quotes_loop n todo = (mjoin (round_of <$> lines), inr tt)
     ∧ length lines = todo
     ∧ ∀ j, j < todo → (quote_round (n + j)).2 = inr tt)
    ∨ (∃ e,
         quotes_loop n todo
         = (mjoin (round_of <$> lines) ++ failed_round, inl e)
         ∧ length lines < todo
         ∧ (quote_round (n + length lines)).2 = inl e
         ∧ ∀ j, j < length lines → (quote_round (n + j)).2 = inr tt).
Proof.
  revert n. induction todo as [|todo IH]; intros n.
  { exists []. left. split_and!; [done..|]. intros; lia. }
  cbn [Quotes.quotes_loop]. unfold mbind, out_bind.
  destruct (quote_round_shape n) as [[line Hround]|[e Hround]].
  - destruct (IH (S n)) as [lines [(Hloop & Hlen & Hall)|(e & Hloop & Hlen & He & Hall)]].
    + exists (line :: lines). left. rewrite Hround, Hloop.
      split_and!; [done|simpl; lia|].
      intros [|j] Hj; [by rewrite Nat.add_0_r, Hround|].
      replace (n + S j) with (S n + j) by lia. apply Hall. lia.
    + exists (line :: lines). right. exists e. rewrite Hround, Hloop.
      split_and!; [done|simpl; lia| |].
      * simpl. by replace (n + S (length lines)) with (S n + length lines) by lia.
      * intros [|j] Hj; [by rewrite Nat.add_0_r, Hround|].
        replace (n + S j) with (S n + j) by lia. apply Hall. simpl in Hj. lia.
  - exists []. right. exists e. rewrite Hround.
    split_and!; [done|simpl; lia| |].
    + by rewrite Nat.add_0_r, Hround.
    + intros j Hj. simpl in Hj. lia.
Qed.

Lemma rounds_counted (lines : list string) :
  requests (mjoin (round_of <$> lines)) = length lines
  ∧ prints (mjoin (round_of <$> lines)) = length lines
  ∧ slept (mjoin (round_of <$> lines)) = (6 * Z.of_nat (length lines))%Z.
Proof.
  unfold requests, prints.
  induction lines as [|l lines (IH1 & IH2 & IH3)]; [done|].
  rewrite fmap_cons. simpl in *. rewrite IH1, IH2, IH3. split_and!; lia.
Qed.

Lemma slept_app out1 out2 : slept (out1 ++ out2) = (slept out1 + slept out2)%Z.
Proof.
  induction out1 as [|a out1 IH]; [done|]. simpl. rewrite IH.
  destruct a; lia.
Qed.

Lemma rounds_paced rested (lines : list string) tail :
  paced false tail = true →
  paced rested tail = true →
  paced rested (mjoin (round_of <$> lines) ++ tail) = true.
Proof.
  intros Hf. revert rested. induction lines as [|l lines IH]; intros rested Hr;
    [done|].
  rewrite fmap_cons. simpl. by apply IH.
Qed.

End quotes.
End QuotesFacts.

(** X14. [get_quotes] paces its requests, whatever the API answers: it
    sends at most 20, each directly after a sleep of 6 seconds, so the
    seconds slept are 6 for each request; a quote is printed for every
    request but, at most, the last.  When it returns it has sent 20
    requests, printed 20 quotes and slept 120 seconds; when an exception
    escapes, the request of the failing round is the last thing it did and
    no line is printed for it. *)
Theorem quotes_are_paced (fetch : nat → Quotes.error + string)
    (loads : string → Quotes.error + Quotes.json)
    (str_of : Quotes.json → string) :
  Quotes.requests (Quotes.get_quotes fetch loads str_of).1 ≤ 20
  ∧ Quotes.slept (Quotes.get_quotes fetch loads str_of).1
    = (6 * Z.of_nat (Quotes.requests (Quotes.get_quotes fetch loads str_of).1))%Z
  ∧ Quotes.paced false (Quotes.get_quotes fetch loads str_of).1 = true
  ∧ ((Quotes.get_quotes fetch loads str_of).2 = inr tt →
       Quotes.requests (Quotes.get_quotes fetch loads str_of).1 = 20
       ∧ Quotes.prints (Quotes.get_quotes fetch loads str_of).1 = 20
       ∧ Quotes.slept (Quotes.get_quotes fetch loads str_of).1 = 120%Z)
  ∧ (∀ e, (Quotes.get_quotes fetch loads str_of).2 = inl e →
       Quotes.prints (Quotes.get_quotes fetch loads str_of).1 + 1
       = Quotes.requests (Quotes.get_quotes fetch loads str_of).1
       ∧ last (Quotes.get_quotes fetch loads str_of).1
         = Some (Quotes.Request Quotes.QUOTES_API_URL)).
Proof.
  unfold Quotes.get_quotes.
  destruct (QuotesFacts.quotes_loop_shape fetch loads str_of 0 20)
    as [lines [(-> & Hlen & _)|(e & -> & Hlen & _)]];
    destruct (QuotesFacts.rounds_counted lines) as (Hreq & Hpr & Hsl); simpl.
  - rewrite Hreq, Hpr, Hsl, Hlen. split_and!; [lia|lia| |done|done].
    rewrite <-(app_nil_r (mjoin _)). by apply QuotesFacts.rounds_paced.
  - unfold Quotes.requests, Quotes.prints in *.
    rewrite !sum_list_with_app, QuotesFacts.slept_app, Hreq, Hpr, Hsl.
    simpl. split_and!; [lia|lia| |done|].
    + by apply QuotesFacts.rounds_paced.
    + intros e' _. split; [lia|].
      unfold Quotes.failed_round.
      change [Quotes.Sleep 6; Quotes.Request Quotes.QUOTES_API_URL]
        with ([Quotes.Sleep 6] ++ [Quotes.Request Quotes.QUOTES_API_URL]).
      by rewrite (assoc_L (++)), last_snoc.
Qed.

(** X15. [get_quotes] has no handler: the first round whose quote cannot
    be had (the request raises, the answer is not JSON, it is an empty
    list, the quote lacks "a" or "q") ends the loop with that exception.
    If that is round [k], then [k + 1] requests have been sent, the [k]
    quotes before it have been printed and no later round is started. *)
Theorem first_failed_quote_ends_the_loop
    (fetch : nat → Quotes.error + string)
    (loads : string → Quotes.error + Quotes.json)
    (str_of : Quotes.json → string) (k : nat) (e : Quotes.error) :
  k < 20 →
  (∀ j, j < k → (Quotes.quote_round fetch loads str_of j).2 = inr tt) →
  (Quotes.quote_round fetch loads str_of k).2 = inl e →
  (Quotes.get_quotes fetch loads str_of).2 = inl e
  ∧ Quotes.requests (Quotes.get_quotes fetch loads str_of).1 = k + 1
  ∧ Quotes.prints (Quotes.get_quotes fetch loads str_of).1 = k
  ∧ Quotes.slept (Quotes.get_quotes fetch loads str_of).1
    = (6 * (Z.of_nat k + 1))%Z.
Proof.
  intros Hk Hbefore Hfail. unfold Quotes.get_quotes.
  destruct (QuotesFacts.quotes_loop_shape fetch loads str_of 0 20)
    as [lines [(_ & _ & Hall)|(e' & -> & Hlen & He' & Hall)]].
  { specialize (Hall k Hk). simpl in Hall. rewrite Hall in Hfail. done. }
  simpl in He', Hall.
  assert (length lines = k) as Hlines.
  { destruct (Nat.lt_trichotomy (length lines) k) as [Hlt|[Heq|Hgt]]; [|done|].
    - rewrite (Hbefore _ Hlt) in He'. done.
    - rewrite (Hall _ Hgt) in Hfail. done. }
  rewrite Hlines in He'. rewrite He' in Hfail. simplify_eq.
  destruct (QuotesFacts.rounds_counted lines) as (Hreq & Hpr & Hsl).
  unfold Quotes.requests, Quotes.prints in *. simpl.
  rewrite !sum_list_with_app, QuotesFacts.slept_app, Hreq, Hpr, Hsl.
  simpl. split_and!; [done|lia|lia|lia].
Qed.

Lemma first_failed_quote_ends_the_loop_witness :
  (Quotes.get_quotes QuotesScenario.fetch QuotesScenario.loads
     QuotesScenario.str_of).2 = inl Quotes.IndexError
  ∧ Quotes.requests
      (Quotes.get_quotes QuotesScenario.fetch QuotesScenario.loads
         QuotesScenario.str_of).1 = 2 + 1
  ∧ Quotes.prints
      (Quotes.get_quotes QuotesScenario.fetch QuotesScenario.loads
         QuotesScenario.str_of).1 = 2
  ∧ Quotes.slept
      (Quotes.get_quotes QuotesScenario.fetch QuotesScenario.loads
         QuotesScenario.str_of).1 = (6 * (Z.of_nat 2 + 1))%Z.
Proof.
  apply (first_failed_quote_ends_the_loop QuotesScenario.fetch
           QuotesScenario.loads QuotesScenario.str_of 2 Quotes.IndexError).
  - lia.
  - intros [|[|j]] Hj; [reflexivity..|lia].
  - reflexivity.
Defined.

(** ** Copying a response to a file *)

Module CopyFacts.
Import Out Copy.

Section write_file.
Variable open_file : string → string + unit.
Variable read : nat → string + option (list Byte.byte).
Variable write : nat → list Byte.byte → string + unit.

Local Abbreviation copy := (Copy.copy read write).
Local Abbreviation write_file := (Copy.write_file open_file read write).

(** The loop over a stream that gives [chunks]: either it stops at the
    read after them, or that read gives one more chunk to write. *)
Lemma copy_chunks fuel k (chunks : list (list Byte.byte)) :
  length chunks < fuel →
  (∀ i c, chunks !! i = Some c →
     c ≠ [] ∧ read (k + i) = inr (Some c) ∧ write (k + i) c = inr tt) →
  copy fuel k
  = Some (Write <$> chunks,
          match read (k + length chunks) with
          | inl e => inl e
          | inr chunk =>
              if at_end chunk then inr tt
              else
                match write (k + length chunks) (default [] chunk) with
                | inl e => inl e
                | inr _ => inr tt
                end
          end)
  ∨ (∃ c, read (k + length chunks) = inr (Some c) ∧ c ≠ []
        ∧ write (k + length chunks) c = inr tt).
Proof.
  revert k fuel. induction chunks as [|c chunks IH]; intros k [|fuel] Hfuel Hok;
    simpl in Hfuel; try lia.
  - simpl. rewrite Nat.add_0_r.
    destruct (read k) as [e|chunk] eqn:Hread; [by left|].
    destruct chunk as [[|b c]|]; simpl; [by left| |by left].
    destruct (write k (b :: c)) as [e|[]] eqn:Hwrite; [by left|].
    right. exists (b :: c). done.
  - destruct (Hok 0 c eq_refl) as (Hne & Hread & Hwrite).
    rewrite Nat.add_0_r in Hread, Hwrite.
    destruct (IH (S k) fuel) as [Hrest|Hmore].
    + lia.
    + intros i c' Hc'. replace (S k + i) with (k + S i) by lia. by apply Hok.
    + left. simpl. rewrite Hread.
      destruct c as [|b c]; [done|]. simpl. rewrite Hwrite, Hrest. simpl.
      replace (k + S (length chunks)) with (S k + length chunks) by lia.
      unfold mbind, out_bind. simpl.
      by destruct (read (S k + length chunks)) as [e|chunk];
        [|destruct (at_end chunk);
          [|destruct (write (S k + length chunks) (default [] chunk)) as [?|[]]]].
    + right. simpl.
      by replace (k + S (length chunks)) with (S k + length chunks) by lia.
Qed.

Lemma written_chunks filepath (chunks : list (list Byte.byte)) :
  written ([Open filepath] ++ (Write <$> chunks) ++ [Close]) = mjoin chunks.
Proof.
  unfold written. rewrite !omap_app.
  assert (omap (λ a, match a with Write chunk => Some chunk | _ => None end)
            (Write <$> chunks) = chunks) as ->.
  { induction chunks as [|c chunks IH]; [done|]. rewrite fmap_cons. simpl.
    f_equal. exact IH. }
  simpl. by rewrite app_nil_r.
Qed.

End write_file.
End CopyFacts.

(** X16. [write_file] copies the stream to the file chunk by chunk up to
    the first read that gives [None] or no bytes, and closes the file
    whatever happens.  When the stream gives the chunks [chunks] and then
    ends, the file is opened, the chunks are written in order, the file is
    closed and [write_file] returns: the file holds the chunks put
    together.  When the read after them raises instead, the same chunks
    have been written and the file has been closed before the exception
    leaves [write_file]: the part already copied stays in the file.  When
    the file cannot be opened, nothing is read. *)
Theorem stream_copied_until_it_ends
    (open_file : string → string + unit)
    (read : nat → string + option (list Byte.byte))
    (write : nat → list Byte.byte → string + unit)
    (filepath : string) (chunks : list (list Byte.byte)) (fuel : nat) :
  length chunks < fuel →
  (∀ i c, chunks !! i = Some c →
     c ≠ [] ∧ read i = inr (Some c) ∧ write i c = inr tt) →
  (∀ chunk, open_file filepath = inr tt →
     read (length chunks) = inr chunk → Copy.at_end chunk = true →
     Copy.write_file open_file read write fuel filepath
     = Some ([Copy.Open filepath] ++ (Copy.Write <$> chunks) ++ [Copy.Close],
             inr tt))
  ∧ (∀ e, open_file filepath = inr tt → read (length chunks) = inl e →
       Copy.write_file open_file read write fuel filepath
       = Some ([Copy.Open filepath] ++ (Copy.Write <$> chunks) ++ [Copy.Close],
               inl e))
  ∧ (∀ e, open_file filepath = inl e →
       Copy.write_file open_file read write fuel filepath = Some ([], inl e))
  ∧ Copy.written
      ([Copy.Open filepath] ++ (Copy.Write <$> chunks) ++ [Copy.Close])
    = mjoin chunks.
Proof.
  intros Hfuel Hok.
  pose proof (CopyFacts.copy_chunks read write fuel 0 chunks Hfuel Hok)
    as Hcopy.
  simpl in Hcopy. split_and!.
  - intros chunk Hopen Hread Hend. unfold Copy.write_file. rewrite Hopen.
    destruct Hcopy as [->|(c & Hc & Hne & _)].
    + simpl. by rewrite Hread, Hend.
    + rewrite Hc in Hread. simplify_eq. by destruct c.
  - intros e Hopen Hread. unfold Copy.write_file. rewrite Hopen.
    destruct Hcopy as [->|(c & Hc & _)].
    + simpl. by rewrite Hread.
    + rewrite Hc in Hread. done.
  - intros e Hopen. unfold Copy.write_file. by rewrite Hopen.
  - apply CopyFacts.written_chunks.
Qed.

Lemma stream_copied_until_it_ends_witness :
  (∀ chunk, CopyScenario.open_file "./downloads/pdfs/a.pdf" = inr tt →
     CopyScenario.read (length CopyScenario.pieces) = inr chunk →
     Copy.at_end chunk = true →
     Copy.write_file CopyScenario.open_file CopyScenario.read
       CopyScenario.write 3 "./downloads/pdfs/a.pdf"
     = Some ([Copy.Open "./downloads/pdfs/a.pdf"]
             ++ (Copy.Write <$> CopyScenario.pieces) ++ [Copy.Close],
             inr tt))
  ∧ (∀ e, CopyScenario.open_file "./downloads/pdfs/a.pdf" = inr tt →
       CopyScenario.read (length CopyScenario.pieces) = inl e →
       Copy.write_file CopyScenario.open_file CopyScenario.read
         CopyScenario.write 3 "./downloads/pdfs/a.pdf"
       = Some ([Copy.Open "./downloads/pdfs/a.pdf"]
               ++ (Copy.Write <$> CopyScenario.pieces) ++ [Copy.Close],
               inl e))
  ∧ (∀ e, CopyScenario.open_file "./downloads/pdfs/a.pdf" = inl e →
       Copy.write_file CopyScenario.open_file CopyScenario.read
         CopyScenario.write 3 "./downloads/pdfs/a.pdf" = Some ([], inl e))
  ∧ Copy.written
      ([Copy.Open "./downloads/pdfs/a.pdf"]
       ++ (Copy.Write <$> CopyScenario.pieces) ++ [Copy.Close])
    = mjoin CopyScenario.pieces.
Proof.
  apply (stream_copied_until_it_ends CopyScenario.open_file
           CopyScenario.read CopyScenario.write
           "./downloads/pdfs/a.pdf" CopyScenario.pieces 3).
  - simpl. lia.
  - intros [|[|i]] c Hc; simplify_eq/=; done.
Defined.

(** ** Requests on one event loop *)

Module ConcurrencyFacts.
Import Concurrency.

Section demo.
Context {Resp J : Type}.
Variable respond : nat → string + Resp.
Variable json_of : nat → Resp → string + J.
Variable delays : list nat.

Implicit Types (s : state (Resp:=Resp) (J:=J)) (p : pc (Resp:=Resp) (J:=J)).
Implicit Types (tr : list event).

Local Abbreviation task_step := (Concurrency.task_step respond json_of delays).
Local Abbreviation step := (Concurrency.step respond json_of delays).
Local Abbreviation init := (Concurrency.init (Resp:=Resp) (J:=J) delays).
Local Abbreviation exec := (Concurrency.exec respond json_of delays).
Local Abbreviation reachable := (Concurrency.reachable respond json_of delays).
Local Abbreviation invariant := (Concurrency.invariant respond json_of delays).

Lemma concurrent_init_invariant : invariant init.
Proof.
  split; unfold Concurrency.init; cbn [main tasks raised trace].
  - by rewrite length_fmap.
  - intros i delay p _ Hp.
    apply list_lookup_fmap_Some_1 in Hp as (? & -> & _). done.
  - done.
  - intros _ i p Hp.
    apply list_lookup_fmap_Some_1 in Hp as (? & -> & _). done.
  - symmetry. apply sum_list_with_zero. intros i p Hp.
    apply list_lookup_fmap_Some_1 in Hp as (? & -> & _). done.
  - symmetry. apply sum_list_with_zero. intros i p Hp.
    apply list_lookup_fmap_Some_1 in Hp as (? & -> & _). done.
  - done.
Qed.

(** What a step of a coroutine changes: its own place, perhaps the
    exception held, and the lines it prints. *)
Lemma task_step_inv i s s' :
  task_step i s = Some s' →
  main s = Gathering
  ∧ ∃ delay p p' new,
      delays !! i = Some delay ∧ tasks s !! i = Some p
      ∧ s' = State Gathering (<[i:=p']> (tasks s))
               (match failed p' with
                | Some e => note (raised s) e
                | None => raised s
                end)
               (trace s ++ new)
      ∧ failed p = None
      ∧ (agrees respond json_of delay p → agrees respond json_of delay p')
      ∧ rank p' < rank p
      ∧ sendings new + started p = started p'
      ∧ successes new + answered p = answered p'
      ∧ totals new = 0 ∧ closes new = 0.
Proof.
  unfold Concurrency.task_step. destruct (main s) eqn:Hm; [|done..].
  destruct (delays !! i) as [delay|] eqn:Hd; [|done]. simpl.
  destruct (tasks s !! i) as [p|] eqn:Hp; [|done]. simpl.
  intros Hstep. split; [done|]. exists delay, p.
  destruct p as [| |response|value|e|e]; try done.
  - simplify_eq. eexists Requesting, _. split_and!; try done. simpl. lia.
  - destruct (respond delay) as [e|response] eqn:Hr; simplify_eq.
    + exists (FailedRequest e), []. rewrite app_nil_r.
      split_and!; try done. simpl. lia.
    + eexists (Reading response), _. split_and!; try done. simpl. lia.
  - destruct (json_of delay response) as [e|value] eqn:Hj; simplify_eq.
    + exists (FailedReading e), []. rewrite app_nil_r.
      split_and!; try done; [|simpl; lia]. simpl. eauto.
    + exists (Done value), []. rewrite app_nil_r.
      split_and!; try done; [|simpl; lia]. simpl. eauto.
Qed.

Lemma counted_app (f : event → nat) tr new :
  sum_list_with f (tr ++ new) = sum_list_with f tr + sum_list_with f new.
Proof. apply sum_list_with_app. Qed.

Lemma task_step_invariant i s s' :
  invariant s → task_step i s = Some s' → invariant s'.
Proof.
  intros [Hlen Htask Hraised Hcalm Hsend Hsucc Hmain] Hstep.
  apply task_step_inv in Hstep
    as (Hm & delay & p & p' & new & Hd & Hp & -> & Hnf & Hagr & _ & Hs1 & Hs2
        & Ht & Hc).
  rewrite Hm in Hmain. destruct Hmain as [Htot Hclo].
  pose proof (sum_list_with_insert started _ _ _ p' Hp) as Hst.
  pose proof (sum_list_with_insert answered _ _ _ p' Hp) as Han.
  split; cbn [main tasks raised trace].
  - by rewrite length_insert.
  - intros j delay' q Hd' Hq. destruct (decide (i = j)) as [<-|Hne].
    + rewrite list_lookup_insert_eq in Hq
        by eauto using lookup_lt_Some. simplify_eq. eauto.
    + rewrite list_lookup_insert_ne in Hq by done. eauto.
  - intros e He. destruct (failed p') as [e'|] eqn:Hf.
    + destruct (raised s) as [e0|] eqn:Hr0; simpl in He; simplify_eq.
      * destruct (Hraised _ eq_refl) as (j & q & Hq & Hfq).
        exists j, q. split; [|done].
        rewrite list_lookup_insert_ne; [done|]. intros <-. congruence.
      * exists i, p'. split; [|done].
        apply list_lookup_insert_eq. eauto using lookup_lt_Some.
    + destruct (Hraised _ He) as (j & q & Hq & Hfq).
      exists j, q. split; [|done].
      rewrite list_lookup_insert_ne; [done|]. intros <-. congruence.
  - intros Hnone j q Hq. destruct (failed p') as [e'|] eqn:Hf.
    { by destruct (raised s). }
    destruct (decide (i = j)) as [<-|Hne].
    + rewrite list_lookup_insert_eq in Hq
        by eauto using lookup_lt_Some. by simplify_eq.
    + rewrite list_lookup_insert_ne in Hq by done. eauto.
  - unfold sendings in *. rewrite counted_app. lia.
  - unfold successes in *. rewrite counted_app. lia.
  - unfold totals, closes in *. rewrite !counted_app. lia.
Qed.

Lemma gather_step_invariant s s' :
  invariant s → main_step s = Some s' → invariant s'.
Proof.
  intros [Hlen Htask Hraised Hcalm Hsend Hsucc Hmain].
  unfold main_step. destruct (main s) eqn:Hm; [|done..].
  destruct Hmain as [Htot Hclo].
  destruct (raised s) as [e|] eqn:Hr.
  - intros ?; simplify_eq. split; cbn [main tasks raised trace]; done.
  - destruct (forallb is_done (tasks s)) eqn:Hall; [|done].
    intros ?; simplify_eq. split; cbn [main tasks raised trace]; try done.
    + unfold sendings in *. rewrite counted_app. simpl. lia.
    + unfold successes in *. rewrite counted_app. simpl. lia.
    + split_and!; [done| |by eauto].
      intros i p Hp. rewrite forallb_forall in Hall. apply Hall.
      apply list_elem_of_In. by eapply list_elem_of_lookup_2.
Qed.

Lemma concurrent_reachable_invariant s : reachable s → invariant s.
Proof.
  induction 1 as [|a s s' _ IH Hstep]; [apply concurrent_init_invariant|].
  destruct a; simpl in Hstep;
    eauto using gather_step_invariant, task_step_invariant.
Qed.

Lemma concurrent_exec_reachable sched s s' :
  reachable s → exec sched s = Some s' → reachable s'.
Proof.
  revert s. induction sched as [|a sched IH]; intros s Hs Hrun; simpl in Hrun.
  - by simplify_eq.
  - destruct (step a s) as [s1|] eqn:Hstep; [|done]. simpl in Hrun.
    eapply IH; [|done]. by eapply reach_step.
Qed.

Lemma concurrent_step_measure a s s' :
  step a s = Some s' → measure s' < measure s.
Proof.
  destruct a as [|i]; simpl; unfold measure.
  - unfold main_step. destruct (main s); [|done..].
    destruct (raised s); [intros ?; simplify_eq/=; lia|].
    destruct (forallb is_done (tasks s)); intros ?; simplify_eq/=. lia.
  - intros Hstep. apply task_step_inv in Hstep
      as (Hm & delay & p & p' & new & _ & Hp & -> & _ & _ & Hrank & _).
    rewrite Hm. cbn [main tasks].
    pose proof (sum_list_with_insert rank _ _ _ p' Hp). lia.
Qed.

Lemma concurrent_exec_bounded sched s s' :
  exec sched s = Some s' → length sched + measure s' ≤ measure s.
Proof.
  revert s. induction sched as [|a sched IH]; intros s Hrun; simpl in Hrun.
  - simplify_eq. simpl. lia.
  - destruct (step a s) as [s1|] eqn:Hstep; [|done]. simpl in Hrun.
    apply IH in Hrun. apply concurrent_step_measure in Hstep. simpl. lia.
Qed.

Lemma concurrent_measure_init : measure init = step_bound (length delays).
Proof.
  unfold measure, step_bound, Concurrency.init. cbn [main tasks].
  assert (sum_list_with rank ((λ _ : nat, Created (Resp:=Resp) (J:=J)) <$> delays)
          = 3 * length delays) as ->; [|lia].
  induction delays as [|d l IH]; [done|]. csimpl. rewrite IH. simpl. lia.
Qed.

(** While the caller waits, something can move. *)
Lemma concurrent_progress s :
  invariant s → main s = Gathering → ∃ a s', step a s = Some s'.
Proof.
  intros [Hlen Htask Hraised Hcalm _ _ _] Hm.
  destruct (raised s) as [e|] eqn:Hr.
  { exists Main. simpl. unfold main_step. rewrite Hm, Hr. eauto. }
  destruct (forallb is_done (tasks s)) eqn:Hall.
  { exists Main. simpl. unfold main_step. rewrite Hm, Hr, Hall. eauto. }
  apply not_true_iff_false in Hall. rewrite forallb_forall in Hall.
  assert (∃ i p, tasks s !! i = Some p ∧ is_done p = false) as (i & p & Hp & Hnd).
  { destruct (decide (Forall (λ p, is_done p = true) (tasks s))) as [Hf|Hf].
    - exfalso. apply Hall. intros p Hin. rewrite Forall_forall in Hf.
      apply Hf. by apply list_elem_of_In.
    - apply not_Forall_Exists in Hf; [|apply _].
      apply Exists_exists in Hf as (p & Hin & Hp).
      apply list_elem_of_lookup_1 in Hin as [i Hi].
      exists i, p. split; [done|]. simpl in Hp. by destruct (is_done p). }
  destruct (lookup_lt_is_Some_2 delays i) as [delay Hd];
    [rewrite <-Hlen; eauto using lookup_lt_Some|].
  pose proof (Hcalm eq_refl _ _ Hp) as Hnf.
  exists (Task i). simpl. unfold Concurrency.task_step.
  rewrite Hm, Hd, Hp. simpl.
  destruct p as [| |response|value|e|e]; try done; eauto.
  - destruct (respond delay); eauto.
  - destruct (json_of delay response); eauto.
Qed.

Lemma concurrent_stuck s a : main s ≠ Gathering → step a s = None.
Proof.
  intros Hm. destruct a as [|i]; simpl.
  - unfold main_step. by destruct (main s).
  - unfold Concurrency.task_step. by destruct (main s).
Qed.

Lemma sum_list_with_ones {X} (f : X → nat) (l : list X) :
  (∀ i x, l !! i = Some x → f x = 1) → sum_list_with f l = length l.
Proof.
  induction l as [|x l IH]; intros Hf; [done|]. simpl.
  rewrite (Hf 0 x eq_refl), IH; [done|]. intros i y Hy. by apply (Hf (S i)).
Qed.

(** When the caller has returned, every request has been answered. *)
Lemma returned_all_served s i delay :
  reachable s → main s = Returned → delays !! i = Some delay →
  served respond json_of delay ∧ ∃ value, tasks s !! i = Some (Done value).
Proof.
  intros Hs Hm Hd.
  destruct (concurrent_reachable_invariant _ Hs)
    as [Hlen Htask _ _ _ _ Hmain].
  rewrite Hm in Hmain. destruct Hmain as (_ & Hdone & _).
  destruct (lookup_lt_is_Some_2 (tasks s) i) as [p Hp];
    [rewrite Hlen; eauto using lookup_lt_Some|].
  pose proof (Hdone _ _ Hp) as Hp'. pose proof (Htask _ _ _ Hd Hp) as Hagr.
  destruct p as [| |response|value|e|e]; try done.
  destruct Hagr as (response & Hr & Hj). split; [|eauto].
  by exists response, value.
Qed.

(** When an exception has left the caller, it is that of a request. *)
Lemma escaped_some_failed s e :
  reachable s → main s = Escaped e →
  ∃ i delay, delays !! i = Some delay ∧ fails_with respond json_of delay e.
Proof.
  intros Hs Hm.
  destruct (concurrent_reachable_invariant _ Hs)
    as [Hlen Htask Hraised _ _ _ Hmain].
  rewrite Hm in Hmain. destruct Hmain as (Hr & _).
  destruct (Hraised _ Hr) as (i & p & Hp & Hf).
  destruct (lookup_lt_is_Some_2 delays i) as [delay Hd];
    [rewrite <-Hlen; eauto using lookup_lt_Some|].
  exists i, delay. split; [done|].
  pose proof (Htask _ _ _ Hd Hp) as Hagr. unfold fails_with.
  destruct p as [| |response|value|e'|e']; simplify_eq/=; eauto.
Qed.

Lemma served_not_failed delay e :
  served respond json_of delay → fails_with respond json_of delay e → False.
Proof.
  intros (response & value & Hr & Hj) [Hf|(response' & Hr' & Hj')];
    congruence.
Qed.

End demo.
End ConcurrencyFacts.

Module ConcurrencyScenarioFacts.
Import Concurrency ConcurrencyFacts ConcurrencyScenario.

Lemma concurrent_final_run :
  exec respond json_of demo_delays schedule start = Some final.
Proof. vm_compute. reflexivity. Qed.

Lemma concurrent_final_reachable :
  reachable respond json_of demo_delays final.
Proof.
  exact (concurrent_exec_reachable _ _ _ _ _ _ (reach_init _ _ _)
           concurrent_final_run).
Qed.

Lemma concurrent_all_run :
  exec respond_all json_of demo_delays schedule_all start = Some final_all.
Proof. vm_compute. reflexivity. Qed.

Lemma concurrent_all_reachable :
  reachable respond_all json_of demo_delays final_all.
Proof.
  exact (concurrent_exec_reachable _ _ _ _ _ _ (reach_init _ _ _)
           concurrent_all_run).
Qed.

End ConcurrencyScenarioFacts.

(** X17. [run_concurrent_tasks] prints its "Total" line and closes the
    loop (lines 59-60) only when every one of its coroutines has returned:
    when it has returned, the request for every delay has been answered and
    its JSON read, every coroutine has printed its two lines, and the
    "Total" line and the closing of the loop are the last two things that
    happened, each once. *)
Theorem total_printed_after_every_answer {Resp J : Type}
    (respond : nat → string + Resp) (json_of : nat → Resp → string + J)
    (delays : list nat) (s : Concurrency.state) :
  Concurrency.reachable respond json_of delays s →
  Concurrency.main s = Concurrency.Returned →
  (∀ i delay, delays !! i = Some delay →
     Concurrency.served respond json_of delay
     ∧ ∃ value, Concurrency.tasks s !! i = Some (Concurrency.Done value))
  ∧ Concurrency.sendings (Concurrency.trace s) = length delays
  ∧ Concurrency.successes (Concurrency.trace s) = length delays
  ∧ ∃ tr, Concurrency.trace s = tr ++ [Concurrency.Total; Concurrency.CloseLoop]
          ∧ Concurrency.totals tr = 0 ∧ Concurrency.closes tr = 0.
Proof.
  intros Hs Hm.
  destruct (ConcurrencyFacts.concurrent_reachable_invariant _ _ _ _ Hs)
    as [Hlen _ _ _ Hsend Hsucc Hmain].
  rewrite Hm in Hmain. destruct Hmain as (_ & Hdone & Htr).
  split_and!.
  - intros i delay Hd.
    by apply (ConcurrencyFacts.returned_all_served respond json_of delays s).
  - rewrite Hsend, <-Hlen. apply ConcurrencyFacts.sum_list_with_ones.
    intros i p Hp. specialize (Hdone _ _ Hp). by destruct p.
  - rewrite Hsucc, <-Hlen. apply ConcurrencyFacts.sum_list_with_ones.
    intros i p Hp. specialize (Hdone _ _ Hp). by destruct p.
  - exact Htr.
Qed.

Lemma total_printed_after_every_answer_witness :
  (∀ i delay, Concurrency.demo_delays !! i = Some delay →
     Concurrency.served ConcurrencyScenario.respond_all
       ConcurrencyScenario.json_of delay
     ∧ ∃ value, Concurrency.tasks ConcurrencyScenario.final_all !! i
                = Some (Concurrency.Done value))
  ∧ Concurrency.sendings (Concurrency.trace ConcurrencyScenario.final_all)
    = length Concurrency.demo_delays
  ∧ Concurrency.successes (Concurrency.trace ConcurrencyScenario.final_all)
    = length Concurrency.demo_delays
  ∧ ∃ tr, Concurrency.trace ConcurrencyScenario.final_all
          = tr ++ [Concurrency.Total; Concurrency.CloseLoop]
          ∧ Concurrency.totals tr = 0 ∧ Concurrency.closes tr = 0.
Proof.
  apply (total_printed_after_every_answer ConcurrencyScenario.respond_all
           ConcurrencyScenario.json_of Concurrency.demo_delays
           ConcurrencyScenario.final_all).
  - exact ConcurrencyScenarioFacts.concurrent_all_reachable.
  - vm_compute. reflexivity.
Defined.

(** X18. Neither [task] nor [run_concurrent_tasks] of the concurrency demo
    has a handler: when a request, or the reading of its answer, raises,
    the exception leaves [run_concurrent_tasks] through line 55.  It is
    then the exception of one of the requests; the "Total" line has not
    been printed and the loop has not been closed; and nothing runs any
    more, so the coroutines that were still suspended never finish. *)
Theorem failed_request_escapes {Resp J : Type}
    (respond : nat → string + Resp) (json_of : nat → Resp → string + J)
    (delays : list nat) (s : Concurrency.state) (e : string) :
  Concurrency.reachable respond json_of delays s →
  Concurrency.main s = Concurrency.Escaped e →
  (∃ i delay, delays !! i = Some delay
              ∧ Concurrency.fails_with respond json_of delay e)
  ∧ Concurrency.totals (Concurrency.trace s) = 0
  ∧ Concurrency.closes (Concurrency.trace s) = 0
  ∧ ∀ a, Concurrency.step respond json_of delays a s = None.
Proof.
  intros Hs Hm.
  destruct (ConcurrencyFacts.concurrent_reachable_invariant _ _ _ _ Hs)
    as [_ _ _ _ _ _ Hmain].
  rewrite Hm in Hmain. destruct Hmain as (_ & Htot & Hclo).
  split_and!; [|done|done|].
  - by apply (ConcurrencyFacts.escaped_some_failed respond json_of delays s).
  - intros a. apply ConcurrencyFacts.concurrent_stuck. by rewrite Hm.
Qed.

Lemma failed_request_escapes_witness :
  (∃ i delay, Concurrency.demo_delays !! i = Some delay
              ∧ Concurrency.fails_with ConcurrencyScenario.respond
                  ConcurrencyScenario.json_of delay "ServerDisconnectedError")
  ∧ Concurrency.totals (Concurrency.trace ConcurrencyScenario.final) = 0
  ∧ Concurrency.closes (Concurrency.trace ConcurrencyScenario.final) = 0
  ∧ ∀ a, Concurrency.step ConcurrencyScenario.respond
           ConcurrencyScenario.json_of Concurrency.demo_delays a
           ConcurrencyScenario.final = None.
Proof.
  apply (failed_request_escapes ConcurrencyScenario.respond
           ConcurrencyScenario.json_of Concurrency.demo_delays
           ConcurrencyScenario.final "ServerDisconnectedError").
  - exact ConcurrencyScenarioFacts.concurrent_final_reachable.
  - vm_compute. reflexivity.
Defined.

(** X19. [run_concurrent_tasks] ends in whatever order the loop runs its
    coroutines: a run over [n] delays takes at most [3 * n + 1] steps (31
    for the 10 delays of the demo), and nothing can move exactly when the
    caller has returned or an exception has left it.  Which of the two it
    is does not depend on the order: when every request is answered no
    exception leaves it, and when some request is not it does not
    return. *)
Theorem concurrent_demo_ends {Resp J : Type}
    (respond : nat → string + Resp) (json_of : nat → Resp → string + J)
    (delays : list nat) (sched : list Concurrency.actor)
    (s : Concurrency.state) :
  Concurrency.exec respond json_of delays sched (Concurrency.init delays)
  = Some s →
  length sched ≤ Concurrency.step_bound (length delays)
  ∧ ((∀ a, Concurrency.step respond json_of delays a s = None)
     ↔ Concurrency.main s ≠ Concurrency.Gathering)
  ∧ ((∀ delay, delay ∈ delays → Concurrency.served respond json_of delay) →
     ∀ e, Concurrency.main s ≠ Concurrency.Escaped e)
  ∧ ((∃ delay e, delay ∈ delays
                 ∧ Concurrency.fails_with respond json_of delay e) →
     Concurrency.main s ≠ Concurrency.Returned)
  ∧ Concurrency.step_bound (length Concurrency.demo_delays) = 31.
Proof.
  intros Hrun.
  assert (Concurrency.reachable respond json_of delays s) as Hs.
  { eapply ConcurrencyFacts.concurrent_exec_reachable;
      [apply Concurrency.reach_init|done]. }
  split_and!.
  - pose proof (ConcurrencyFacts.concurrent_exec_bounded _ _ _ _ _ _ Hrun)
      as Hb.
    rewrite ConcurrencyFacts.concurrent_measure_init in Hb. lia.
  - split.
    + intros Hstuck Hm.
      destruct (ConcurrencyFacts.concurrent_progress respond json_of delays s
                  (ConcurrencyFacts.concurrent_reachable_invariant _ _ _ _ Hs)
                  Hm) as (a & s' & Hstep).
      by rewrite Hstuck in Hstep.
    + intros Hm a. by apply ConcurrencyFacts.concurrent_stuck.
  - intros Hall e Hm.
    destruct (ConcurrencyFacts.escaped_some_failed _ _ _ _ _ Hs Hm)
      as (i & delay & Hd & Hf).
    eapply ConcurrencyFacts.served_not_failed; [|exact Hf].
    apply Hall. by eapply list_elem_of_lookup_2.
  - intros (delay & e & Hin & Hf) Hm.
    apply list_elem_of_lookup_1 in Hin as [i Hd].
    destruct (ConcurrencyFacts.returned_all_served _ _ _ _ _ _ Hs Hm Hd)
      as [Hserved _].
    by eapply ConcurrencyFacts.served_not_failed.
  - reflexivity.
Qed.

Lemma concurrent_demo_ends_witness :
  length ConcurrencyScenario.schedule
  ≤ Concurrency.step_bound (length Concurrency.demo_delays)
  ∧ ((∀ a, Concurrency.step ConcurrencyScenario.respond
             ConcurrencyScenario.json_of Concurrency.demo_delays a
             ConcurrencyScenario.final = None)
     ↔ Concurrency.main ConcurrencyScenario.final ≠ Concurrency.Gathering)
  ∧ ((∀ delay, delay ∈ Concurrency.demo_delays →
        Concurrency.served ConcurrencyScenario.respond
          ConcurrencyScenario.json_of delay) →
     ∀ e, Concurrency.main ConcurrencyScenario.final ≠ Concurrency.Escaped e)
  ∧ ((∃ delay e, delay ∈ Concurrency.demo_delays
                 ∧ Concurrency.fails_with ConcurrencyScenario.respond
                     ConcurrencyScenario.json_of delay e) →
     Concurrency.main ConcurrencyScenario.final ≠ Concurrency.Returned)
  ∧ Concurrency.step_bound (length Concurrency.demo_delays) = 31.
Proof.
  apply (concurrent_demo_ends ConcurrencyScenario.respond
           ConcurrencyScenario.json_of Concurrency.demo_delays
           ConcurrencyScenario.schedule ConcurrencyScenario.final).
  exact ConcurrencyScenarioFacts.concurrent_final_run.
Defined.
